(** * Valhalla graph reader and tile grid: a shallow embedding

    The first part follows [src/baldr/graphreader.cc] function by function.
    Unsigned C++ integers are values of [N] with the 32-bit wrap-around of
    [uint32_t] arithmetic written out; pointers into a tile are the values
    they point to, and a dereference that the C++ leaves undefined (a null
    tile, an index past the end of an array) is [None] in the option monad.
    Loops that the C++ may run for ever take a bound on their passes.

    The second part is the grid of [midgard/tiles.h] as [test/tiles.cc]
    uses it: its geometry with exact rationals, and the computations that
    the test makes on [float] in IEEE 754 single precision. *)

From Stdlib Require Import NArith ZArith QArith Qround Lqa Lia List Sorted Permutation.
From Stdlib Require Import Floats.SpecFloat.
From stdpp Require Import base option list sorting gmap.

Local Open Scope N_scope.

(** ** 32-bit unsigned arithmetic *)

Definition wrap32 (n : N) : N := n mod 2 ^ 32.
Definition add32 (a b : N) : N := wrap32 (a + b).
Definition sub32 (a b : N) : N := wrap32 (a + 2 ^ 32 - wrap32 b).

(** ** Identifiers *)

(** Modelled from the spec: [GraphId] (baldr/graphid.h is not part of the
    sources at hand).  A triple of hierarchy level, tile number and index
    within the tile, with one designated value for "invalid".  Comparison is
    on the whole value; [Tile_Base] clears the index. *)
Module GraphId.
Record t : Type := mk { level : N; tileid : N; id : N }.

(** The C++ constructor takes its arguments in this order. *)
Definition make (tileid level id : N) : t := mk level tileid id.

Definition set_id (g : t) (i : N) : t := mk (level g) (tileid g) i.
Definition Tile_Base (g : t) : t := mk (level g) (tileid g) 0.

(** The default-constructed id, [GraphId{}]. *)
Definition invalid : t := mk 7 4194303 2097151.

#[global] Instance eq_dec : EqDecision t.
Proof. solve_decision. Defined.

Definition Is_Valid (g : t) : bool := bool_decide (g ≠ invalid).
End GraphId.

(** ** Edge and node records *)

(** Modelled from the spec: the [Use] categories of a directed edge
    (baldr/graphconstants.h is not part of the sources at hand); only the
    categories the reader distinguishes are listed by name. *)
Inductive Use : Type :=
  | kRoad | kRamp | kTurnChannel | kTrack | kFerry
  | kRail | kBus
  | kEgressConnection | kPlatformConnection | kTransitConnection
  | kOther.

#[global] Instance Use_eq_dec : EqDecision Use.
Proof. solve_decision. Defined.

(** The access bit of the automobile, [kAutoAccess]. *)
Definition kAutoAccess : N := 1.

(** Modelled from the spec: the attributes of [DirectedEdge] that the reader
    inspects (baldr/directededge.h is not part of the sources at hand).
    [shortcut] and [superseded] are the raw masks; an edge is a shortcut when
    its mask is not zero. *)
Module DirectedEdge.
Record t : Type := mk {
  endnode : GraphId.t;
  opp_index : N;
  leaves_tile : bool;
  shortcut : N;
  superseded : N;
  use : Use;
  forwardaccess : N;
  sign : bool;
  classification : N;
  roundabout : bool;
  link : bool;
  toll : bool;
  destonly : bool;
  unpaved : bool;
  surface : N;
  speed : N;
  length : N;
  edgeinfo_offset : N
}.

Definition is_shortcut (d : t) : bool := negb (shortcut d =? 0).
Definition IsTransitLine (d : t) : bool :=
  bool_decide (use d = kRail) || bool_decide (use d = kBus).

Definition set_speed (s : N) (d : t) : t :=
  mk (endnode d) (opp_index d) (leaves_tile d) (shortcut d) (superseded d)
     (use d) (forwardaccess d) (sign d) (classification d) (roundabout d)
     (link d) (toll d) (destonly d) (unpaved d) (surface d) s (length d)
     (edgeinfo_offset d).
End DirectedEdge.

(** Coordinates are exact rationals standing for the C++ floats. *)
Definition PointLL : Type := (Q * Q)%type.

(** Modelled from the spec: [NodeTransition] (baldr/nodetransition.h is not
    part of the sources at hand), a link to the same place on another level. *)
Module NodeTransition.
Record t : Type := mk { endnode : GraphId.t }.
End NodeTransition.

(** Modelled from the spec: [NodeInfo] (baldr/nodeinfo.h is not part of the
    sources at hand).  The position is kept as an offset from the tile's
    base coordinate. *)
Module NodeInfo.
Record t : Type := mk {
  edge_index : N;
  edge_count : N;
  transition_index : N;
  transition_count : N;
  density : N;
  lon_offset : Q;
  lat_offset : Q
}.

Definition latlng (n : t) (base_ll : PointLL) : PointLL :=
  (fst base_ll + lon_offset n, snd base_ll + lat_offset n)%Q.
End NodeInfo.

(** ** Tiles and the reader *)

(** Modelled from the spec: [GraphTile] (baldr/graphtile.h is not part of the
    sources at hand): a header, the node array, the directed-edge array, the
    node-transition array and the shapes addressed by edge-info offset. *)
Module GraphTile.
Record t : Type := mk {
  graphid : GraphId.t;
  base_ll : PointLL;
  nodes : list NodeInfo.t;
  directededges : list DirectedEdge.t;
  transitions : list NodeTransition.t;
  shapes : gmap N (list PointLL)
}.

Definition nodecount (tl : t) : N := N.of_nat (List.length (nodes tl)).

Definition node (tl : t) (i : N) : option NodeInfo.t :=
  nodes tl !! N.to_nat i.
Definition directededge (tl : t) (i : N) : option DirectedEdge.t :=
  directededges tl !! N.to_nat i.
Definition transition (tl : t) (i : N) : option NodeTransition.t :=
  transitions tl !! N.to_nat i.

(** [tile->GetNodeTransitions(node)] : the node's run of transitions. *)
Definition GetNodeTransitions (tl : t) (n : GraphId.t)
  : option (list NodeTransition.t) :=
  ni ← node tl (GraphId.id n);
  Some (take (N.to_nat (NodeInfo.transition_count ni))
             (drop (N.to_nat (NodeInfo.transition_index ni)) (transitions tl))).

(** [tile->edgeinfo(offset).shape()] *)
Definition shape (tl : t) (offset : N) : option (list PointLL) :=
  shapes tl !! offset.
End GraphTile.

(** The reader proper: the tiles it can resolve, keyed by (level, tile). *)
Record GraphReader : Type := mkGraphReader {
  tiles : gmap (N * N) GraphTile.t
}.

(** Modelled from the spec: [GraphReader::GetGraphTile] (declared in
    baldr/graphreader.h, not part of the sources at hand).  Resolves the tile
    owning an id; [None] is the null tile. *)
Definition GetGraphTile (g : GraphReader) (gid : GraphId.t) : option GraphTile.t :=
  tiles g !! (GraphId.level gid, GraphId.tileid gid).

(** ** GetOpposingEdgeId *)

(** graphreader.cc, lines 14-35.  Returns the opposing edge id together with
    the tile left in the reference parameter. *)
Definition GetOpposingEdgeId (g : GraphReader) (edgeid : GraphId.t)
  : option (GraphId.t * option GraphTile.t) :=
  match GetGraphTile g edgeid with
  | None => Some (GraphId.invalid, None)
  | Some tile =>
      directededge ← GraphTile.directededge tile (GraphId.id edgeid);
      if DirectedEdge.IsTransitLine directededge
      then Some (GraphId.invalid, Some tile)
      else
        let id := DirectedEdge.endnode directededge in
        match GetGraphTile g id with
        | None => Some (GraphId.invalid, None)
        | Some tile' =>
            ni ← GraphTile.node tile' (GraphId.id id);
            Some (GraphId.set_id id
                    (add32 (NodeInfo.edge_index ni)
                           (DirectedEdge.opp_index directededge)),
                  Some tile')
        end
  end.

(** Modelled from the spec: the pointer-returning [GetOpposingEdge] of
    baldr/graphreader.h (not part of the sources at hand): the directed edge
    at the opposing id, or the null pointer when that id is invalid. *)
Definition GetOpposingEdge (g : GraphReader) (edgeid : GraphId.t)
  : option (option DirectedEdge.t) :=
  '(oppedgeid, tile) ← GetOpposingEdgeId g edgeid;
  if GraphId.Is_Valid oppedgeid
  then t ← tile;
       de ← GraphTile.directededge t (GraphId.id oppedgeid);
       Some (Some de)
  else Some None.

(** Modelled from the spec: [edge_endnode] of baldr/graphreader.h (not part
    of the sources at hand): the end node of an edge and the edge's tile, the
    invalid id and the null tile when the tile cannot be resolved. *)
Definition edge_endnode (g : GraphReader) (edge_id : GraphId.t)
  : option (GraphId.t * option GraphTile.t) :=
  match GetGraphTile g edge_id with
  | None => Some (GraphId.invalid, None)
  | Some tile =>
      de ← GraphTile.directededge tile (GraphId.id edge_id);
      Some (DirectedEdge.endnode de, Some tile)
  end.

(** Modelled from the spec: [edge_startnode] of baldr/graphreader.h (not
    part of the sources at hand): the end node of the opposing edge. *)
Definition edge_startnode (g : GraphReader) (edge_id : GraphId.t)
  : option GraphId.t :=
  '(opp_edge_id, _) ← GetOpposingEdgeId g edge_id;
  if GraphId.Is_Valid opp_edge_id
  then fst <$> edge_endnode g opp_edge_id
  else Some GraphId.invalid.

(** Modelled from the spec: the contiguous run of the outgoing edges of a
    node in the edge array of its tile (baldr/graphtile.h is not part of the
    sources at hand).  A run that extends past the array is a malformed tile
    and a fault. *)
Definition node_run (tile : GraphTile.t) (node : NodeInfo.t)
  : option (list DirectedEdge.t) :=
  if N.of_nat (List.length (GraphTile.directededges tile))
     <? NodeInfo.edge_index node + NodeInfo.edge_count node
  then None
  else Some (take (N.to_nat (NodeInfo.edge_count node))
               (drop (N.to_nat (NodeInfo.edge_index node))
                     (GraphTile.directededges tile))).

(** Modelled from the spec: [GraphTile::GetDirectedEdges(node_index)] (not
    part of the sources at hand): the index of the node's first outgoing edge
    and the run of its outgoing edges. *)
Definition GetDirectedEdges (tile : GraphTile.t) (node_index : N)
  : option (N * list DirectedEdge.t) :=
  ni ← GraphTile.node tile node_index;
  run ← node_run tile ni;
  Some (NodeInfo.edge_index ni, run).

(** ** AreEdgesConnected *)

(** The loop of the lambda [is_transition], lines 48-53, over [count]
    transitions from the one at [idx] on.  A transition read past the array
    of the tile is a fault. *)
Fixpoint transition_loop (tile : GraphTile.t) (n2 : GraphId.t) (idx : N)
    (count : nat) : option bool :=
  match count with
  | O => Some false
  | S count' =>
      trans ← GraphTile.transition tile idx;
      if bool_decide (NodeTransition.endnode trans = n2)
      then Some true
      else transition_loop tile n2 (N.succ idx) count'
  end.

(** The lambda [is_transition], lines 40-56: whether a transition leads from
    node [n1] to node [n2].  Nodes on one level are never looked up. *)
Definition is_transition (g : GraphReader) (n1 n2 : GraphId.t) : option bool :=
  if GraphId.level n1 =? GraphId.level n2 then Some false
  else
    tile ← GetGraphTile g n1;
    ni ← GraphTile.node tile (GraphId.id n1);
    if NodeInfo.transition_count ni =? 0 then Some false
    else transition_loop tile n2 (NodeInfo.transition_index ni)
           (N.to_nat (NodeInfo.transition_count ni)).

(** graphreader.cc, lines 38-82.  The disjunctions are evaluated from left
    to right and stop at the first that holds, as [||] does; line 76 reads
    the end node of [de1_opp] without a test for the null pointer. *)
Definition AreEdgesConnected (g : GraphReader) (edge1 edge2 : GraphId.t)
  : option bool :=
  t1 ← GetGraphTile g edge1;
  de1 ← GraphTile.directededge t1 (GraphId.id edge1);
  t2 ← (if bool_decide (GraphId.Tile_Base edge2 = GraphId.Tile_Base edge1)
        then Some t1 else GetGraphTile g edge2);
  de2 ← GraphTile.directededge t2 (GraphId.id edge2);
  let end1 := DirectedEdge.endnode de1 in
  let end2 := DirectedEdge.endnode de2 in
  c1 ← (if bool_decide (end1 = end2) then Some true
        else is_transition g end1 end2);
  if c1 : bool then Some true
  else
    de1_opp ← GetOpposingEdge g edge1;
    c2 ← match de1_opp with
         | None => Some false
         | Some o1 =>
             if bool_decide (DirectedEdge.endnode o1 = end2) then Some true
             else is_transition g (DirectedEdge.endnode o1) end2
         end;
    if c2 : bool then Some true
    else
      de2_opp ← GetOpposingEdge g edge2;
      match de2_opp with
      | None => Some false
      | Some o2 =>
          let start2 := DirectedEdge.endnode o2 in
          if bool_decide (start2 = end1) then Some true
          else
            o1 ← de1_opp;
            let start1 := DirectedEdge.endnode o1 in
            if bool_decide (start2 = start1) then Some true
            else
              c3 ← is_transition g start2 end1;
              if c3 : bool then Some true
              else is_transition g start2 start1
      end.

(** ** AreEdgesConnectedForward *)

(** The range-for over the node's transitions, lines 100-109: the first
    transition that ends on the wanted level. *)
Fixpoint find_transition (lvl : N) (ts : list NodeTransition.t)
  : option NodeTransition.t :=
  match ts with
  | [] => None
  | trans :: rest =>
      if GraphId.level (NodeTransition.endnode trans) =? lvl
      then Some trans
      else find_transition lvl rest
  end.

(** graphreader.cc, lines 86-115. *)
Definition AreEdgesConnectedForward (g : GraphReader) (edge1 edge2 : GraphId.t)
  : option bool :=
  '(endnode, tile0) ← edge_endnode g edge1;
  let tile1 :=
    if bool_decide (GraphId.Tile_Base endnode ≠ GraphId.Tile_Base edge1)
    then GetGraphTile g endnode else tile0 in
  if bool_decide (GraphId.Tile_Base endnode ≠ GraphId.Tile_Base edge1)
     && bool_decide (tile1 = None)
  then Some false
  else
    tile ← tile1;
    let check (tl : GraphTile.t) (en : GraphId.t) : option bool :=
      node ← GraphTile.node tl (GraphId.id en);
      Some ((NodeInfo.edge_index node <=? GraphId.id edge2)
            && (GraphId.id edge2
                <? add32 (NodeInfo.edge_index node) (NodeInfo.edge_count node)))
    in
    if negb (GraphId.level edge2 =? GraphId.level endnode)
    then
      ts ← GraphTile.GetNodeTransitions tile endnode;
      match find_transition (GraphId.level edge2) ts with
      | Some trans =>
          let endnode' := NodeTransition.endnode trans in
          match GetGraphTile g endnode' with
          | None => Some false
          | Some tile' => check tile' endnode'
          end
      | None => check tile endnode
      end
    else check tile endnode.

(** ** GetShortcut *)

(** The test under which the [continuing_edge] lambda skips an edge,
    lines 127-130. *)
Definition skipped (edgeid : GraphId.t) (idx : N) (de : DirectedEdge.t) : bool :=
  (idx =? GraphId.id edgeid)
  || DirectedEdge.is_shortcut de
  || bool_decide (DirectedEdge.use de = kTransitConnection)
  || bool_decide (DirectedEdge.use de = kEgressConnection)
  || bool_decide (DirectedEdge.use de = kPlatformConnection).

(** The loop of the lambda over the node's edges, lines 126-138: [idx] is the
    index of the head of [run], [cont] the candidate found so far.  The inner
    [None] is the null pointer. *)
Fixpoint continuing_edge_loop (edgeid : GraphId.t) (idx : N)
    (run : list DirectedEdge.t) (cont : option DirectedEdge.t)
  : option DirectedEdge.t :=
  match run with
  | [] => cont
  | de :: rest =>
      if skipped edgeid idx de
      then continuing_edge_loop edgeid (N.succ idx) rest cont
      else match cont with
           | Some _ => None
           | None => continuing_edge_loop edgeid (N.succ idx) rest (Some de)
           end
  end.

(** The lambda [continuing_edge], lines 122-139. *)
Definition continuing_edge (tile : GraphTile.t) (edgeid : GraphId.t)
    (nodeinfo : NodeInfo.t) : option (option DirectedEdge.t) :=
  run ← node_run tile nodeinfo;
  Some (continuing_edge_loop edgeid (NodeInfo.edge_index nodeinfo) run None).

(** One pass through the body of the [while (true)] loop once the continuing
    edge is known, lines 164-183: either the shortcut id is found (left) or
    the walk goes on from a tile, an edge id and a node (right). *)
Definition GetShortcut_step (g : GraphReader) (tile : GraphTile.t)
    (cont_de : DirectedEdge.t)
  : option (GraphId.t + (GraphTile.t * GraphId.t * NodeInfo.t)) :=
  let endnode := DirectedEdge.endnode cont_de in
  tile' ← (if DirectedEdge.leaves_tile cont_de
           then GetGraphTile g (GraphId.Tile_Base endnode)
           else Some tile);
  node ← GraphTile.node tile' (GraphId.id endnode);
  let idx := add32 (NodeInfo.edge_index node) (DirectedEdge.opp_index cont_de) in
  let edgeid := GraphId.make (GraphId.tileid endnode) (GraphId.level endnode) idx in
  directededge ← GraphTile.directededge tile' (GraphId.id edgeid);
  if negb (DirectedEdge.superseded directededge =? 0)
  then
    let idx' := add32 (NodeInfo.edge_index node)
                      (sub32 (DirectedEdge.superseded directededge) 1) in
    Some (inl (GraphId.make (GraphId.tileid endnode) (GraphId.level endnode) idx'))
  else Some (inr (tile', edgeid, node)).

(** The [while (true)] loop from its second pass on, lines 160-184. *)
Fixpoint GetShortcut_walk (fuel : nat) (g : GraphReader) (tile : GraphTile.t)
    (edgeid : GraphId.t) (node : NodeInfo.t) : option GraphId.t :=
  match fuel with
  | O => None
  | S fuel' =>
      cont_de ← continuing_edge tile edgeid node;
      match cont_de with
      | None => Some GraphId.invalid
      | Some cont_de =>
          st ← GetShortcut_step g tile cont_de;
          match st with
          | inl found => Some found
          | inr (tile', edgeid', node') =>
              GetShortcut_walk fuel' g tile' edgeid' node'
          end
      end
  end.

(** graphreader.cc, lines 118-186.  [last_level] stands for
    [TileHierarchy::levels().rbegin()->second.level]; [fuel] bounds the
    number of passes through the loop after the first. *)
Definition GetShortcut (last_level : N) (fuel : nat) (g : GraphReader)
    (id : GraphId.t) : option GraphId.t :=
  if last_level <=? GraphId.level id then Some GraphId.invalid
  else
    tile ← GetGraphTile g id;
    directededge ← GraphTile.directededge tile (GraphId.id id);
    if DirectedEdge.is_shortcut directededge then Some id
    else
      cont_de ← GetOpposingEdge g id;
      match cont_de with
      | None => Some GraphId.invalid
      | Some cont_de =>
          st ← GetShortcut_step g tile cont_de;
          match st with
          | inl found => Some found
          | inr (tile', edgeid, node) => GetShortcut_walk fuel g tile' edgeid node
          end
      end.

(** ** RecoverShortcut *)

(** The places where [RecoverShortcut] gives up, in source order. *)
Inductive bail : Type :=
  | NotShortcut       (* line 196 *)
  | NoBeginNode       (* line 202 *)
  | NoSupersededEdge  (* line 218, logged *)
  | NoEndNode         (* line 230 *)
  | NoMatchingEdge    (* line 266, logged: current_edge == nullptr *)
  | LengthOverrun     (* line 266, logged: accumulated_length > length *)
  | ShorterPath.      (* line 276, logged *)

Inductive outcome : Type :=
  | Recovered (edges : list GraphId.t)
  | Bailed (why : bail).

(** The search for the superseded edge, lines 206-212: the index of the first
    edge of the run whose superseded mask meets the shortcut's mask. *)
Fixpoint find_superseded (mask : N) (idx : N) (run : list DirectedEdge.t)
  : option N :=
  match run with
  | [] => None
  | de :: rest =>
      if negb (N.land mask (DirectedEdge.superseded de) =? 0)
      then Some idx
      else find_superseded mask (N.succ idx) rest
  end.

(** The test of lines 242-248.  The comparison of speeds is commented out in
    the source and is absent here. *)
Definition same_enough (begin_node : GraphId.t) (shortcut edge : DirectedEdge.t)
  : bool :=
  bool_decide (begin_node ≠ DirectedEdge.endnode edge)
  && negb (DirectedEdge.is_shortcut edge)
  && negb (N.land (DirectedEdge.forwardaccess edge) kAutoAccess =? 0)
  && bool_decide (DirectedEdge.sign edge = DirectedEdge.sign shortcut)
  && bool_decide (DirectedEdge.use edge = DirectedEdge.use shortcut)
  && (DirectedEdge.classification edge =? DirectedEdge.classification shortcut)
  && bool_decide (DirectedEdge.roundabout edge = DirectedEdge.roundabout shortcut)
  && bool_decide (DirectedEdge.link edge = DirectedEdge.link shortcut)
  && bool_decide (DirectedEdge.toll edge = DirectedEdge.toll shortcut)
  && bool_decide (DirectedEdge.destonly edge = DirectedEdge.destonly shortcut)
  && bool_decide (DirectedEdge.unpaved edge = DirectedEdge.unpaved shortcut)
  && (DirectedEdge.surface edge =? DirectedEdge.surface shortcut).

(** The range-for of lines 235-259: the first edge of the run that is the
    same enough, with its index. *)
Fixpoint find_same_enough (begin_node : GraphId.t) (shortcut : DirectedEdge.t)
    (idx : N) (run : list DirectedEdge.t) : option (N * DirectedEdge.t) :=
  match run with
  | [] => None
  | edge :: rest =>
      if same_enough begin_node shortcut edge
      then Some (idx, edge)
      else find_same_enough begin_node shortcut (N.succ idx) rest
  end.

(** The [while] loop of lines 226-268 followed by the final test of lines
    271-280.  [tile] is only read through the end node, as in the source,
    where [GetEndNode] replaces it. *)
Fixpoint RecoverShortcut_walk (fuel : nat) (g : GraphReader)
    (shortcut current_edge : DirectedEdge.t) (begin_node : GraphId.t)
    (accumulated_length : N) (edges : list GraphId.t) : option outcome :=
  if bool_decide (DirectedEdge.endnode current_edge = DirectedEdge.endnode shortcut)
  then
    if accumulated_length <? DirectedEdge.length shortcut
    then Some (Bailed ShorterPath)
    else Some (Recovered edges)
  else
    match fuel with
    | O => None
    | S fuel' =>
        let endnode := DirectedEdge.endnode current_edge in
        match GetGraphTile g endnode with
        | None => Some (Bailed NoEndNode)
        | Some tile =>
            let node_index := GraphId.id endnode in
            '(first, run) ← GetDirectedEdges tile node_index;
            match find_same_enough begin_node shortcut first run with
            | None => Some (Bailed NoMatchingEdge)
            | Some (idx, edge) =>
                let edges' :=
                  edges ++ [GraphId.set_id (GraphTile.graphid tile) idx] in
                let begin_node' :=
                  GraphId.set_id (GraphTile.graphid tile) node_index in
                let accumulated_length' :=
                  add32 accumulated_length (DirectedEdge.length edge) in
                if DirectedEdge.length shortcut <? accumulated_length'
                then Some (Bailed LengthOverrun)
                else RecoverShortcut_walk fuel' g shortcut edge begin_node'
                       accumulated_length' edges'
            end
        end
    end.

(** What the loop carries from one pass to the next: the current edge, the
    node it was taken from, the accumulated length and the edges so far. *)
Definition recover_state : Type :=
  (DirectedEdge.t * GraphId.t * N * list GraphId.t)%type.

(** Lines 190-223: everything before the loop.  Either an early return, or
    the shortcut edge and the state the loop starts from.  The test
    [!begin_node] is read as "the begin node is the invalid id". *)
Definition RecoverShortcut_seed (g : GraphReader) (shortcut_id : GraphId.t)
  : option (bail + DirectedEdge.t * recover_state) :=
  tile ← GetGraphTile g shortcut_id;
  shortcut ← GraphTile.directededge tile (GraphId.id shortcut_id);
  if negb (DirectedEdge.is_shortcut shortcut) then Some (inl NotShortcut)
  else
    begin_node ← edge_startnode g shortcut_id;
    if negb (GraphId.Is_Valid begin_node) then Some (inl NoBeginNode)
    else
      '(first, run) ← GetDirectedEdges tile (GraphId.id begin_node);
      match find_superseded (DirectedEdge.shortcut shortcut) first run with
      | None => Some (inl NoSupersededEdge)
      | Some idx =>
          let edge0 := GraphId.set_id (GraphTile.graphid tile) idx in
          current_edge ← GraphTile.directededge tile (GraphId.id edge0);
          Some (inr (shortcut,
                     (current_edge, begin_node,
                      wrap32 (DirectedEdge.length current_edge), [edge0])))
      end.

(** graphreader.cc, lines 189-281, with every return labelled. *)
Definition RecoverShortcut_outcome (fuel : nat) (g : GraphReader)
    (shortcut_id : GraphId.t) : option outcome :=
  seed ← RecoverShortcut_seed g shortcut_id;
  match seed with
  | inl why => Some (Bailed why)
  | inr (shortcut, (current_edge, begin_node, accumulated_length, edges)) =>
      RecoverShortcut_walk fuel g shortcut current_edge begin_node
        accumulated_length edges
  end.

(** What the caller receives: the recovered edges, or the shortcut alone. *)
Definition RecoverShortcut (fuel : nat) (g : GraphReader)
    (shortcut_id : GraphId.t) : option (list GraphId.t) :=
  o ← RecoverShortcut_outcome fuel g shortcut_id;
  match o with
  | Recovered edges => Some edges
  | Bailed _ => Some [shortcut_id]
  end.

(** ** GetEdgeDensity *)

(** graphreader.cc, lines 285-295. *)
Definition GetEdgeDensity (g : GraphReader) (edgeid : GraphId.t) : option N :=
  opp_edge ← GetOpposingEdge g edgeid;
  match opp_edge with
  | Some opp_edge =>
      let id := DirectedEdge.endnode opp_edge in
      match GetGraphTile g id with
      | Some tile =>
          ni ← GraphTile.node tile (GraphId.id id);
          Some (NodeInfo.density ni)
      | None => Some 0
      end
  | None => Some 0
  end.

(** ** GetDirectedEdgeNodes *)

(** graphreader.cc, lines 298-308: the start node and the end node of an
    edge, in this order.  The tile handed in may be the null pointer. *)
Definition GetDirectedEdgeNodes (g : GraphReader) (tile : option GraphTile.t)
    (edge : DirectedEdge.t) : option (GraphId.t * GraphId.t) :=
  let end_node := DirectedEdge.endnode edge in
  let t2 := if DirectedEdge.leaves_tile edge
            then GetGraphTile g end_node else tile in
  match t2 with
  | Some t2 =>
      ni ← GraphTile.node t2 (GraphId.id end_node);
      let edge_idx :=
        add32 (NodeInfo.edge_index ni) (DirectedEdge.opp_index edge) in
      de ← GraphTile.directededge t2 edge_idx;
      Some (DirectedEdge.endnode de, end_node)
  | None => Some (GraphId.invalid, end_node)
  end.

(** ** GetMinimumBoundingBox *)

(** Modelled from the spec: the invalid coordinate of midgard/pointll.h and
    the default-constructed point [PointLL{}] (not part of the sources at
    hand). *)
Definition INVALID_LL : Q := 50159344557 # 1.
Definition PointLL_default : PointLL := (INVALID_LL, INVALID_LL).
Definition PointLL_IsValid (p : PointLL) : bool :=
  negb (Qeq_bool (fst p) INVALID_LL) && negb (Qeq_bool (snd p) INVALID_LL).

(** Modelled from the spec: the axis-aligned box [AABB2<PointLL>] of
    midgard/aabb2.h (not part of the sources at hand), built from its minimum
    and maximum points. *)
Module AABB2.
Record t : Type := mk { minx : Q; miny : Q; maxx : Q; maxy : Q }.

Definition of_points (minpt maxpt : PointLL) : t :=
  mk (fst minpt) (snd minpt) (fst maxpt) (snd maxpt).
Definition minpt (b : t) : PointLL := (minx b, miny b).
Definition maxpt (b : t) : PointLL := (maxx b, maxy b).

Definition Contains (b : t) (pt : PointLL) : bool :=
  Qle_bool (minx b) (fst pt) && Qle_bool (miny b) (snd pt)
  && Qle_bool (fst pt) (maxx b) && Qle_bool (snd pt) (maxy b).

Definition Expand (b : t) (pt : PointLL) : t :=
  mk (if Qle_bool (minx b) (fst pt) then minx b else fst pt)
     (if Qle_bool (miny b) (snd pt) then miny b else snd pt)
     (if Qle_bool (fst pt) (maxx b) then maxx b else fst pt)
     (if Qle_bool (snd pt) (maxy b) then maxy b else snd pt).
End AABB2.

(** Lines 346-353: the box expanded by the shape of every edge of the run. *)
Fixpoint expand_edges (tile : GraphTile.t) (run : list DirectedEdge.t)
    (min_bb : AABB2.t) : option AABB2.t :=
  match run with
  | [] => Some min_bb
  | diredge :: rest =>
      shape ← GraphTile.shape tile (DirectedEdge.edgeinfo_offset diredge);
      expand_edges tile rest (foldl AABB2.Expand min_bb shape)
  end.

(** Lines 335-355: the loop over the nodes of one tile. *)
Fixpoint scan_nodes (tile : GraphTile.t) (bb : AABB2.t)
    (nodes : list NodeInfo.t) (min_bb : AABB2.t) : option AABB2.t :=
  match nodes with
  | [] => Some min_bb
  | node :: rest =>
      let node_ll := NodeInfo.latlng node (GraphTile.base_ll tile) in
      if AABB2.Contains bb node_ll
      then
        let min_bb1 :=
          if negb (PointLL_IsValid (AABB2.minpt min_bb))
          then AABB2.of_points node_ll node_ll
          else min_bb in
        run ← node_run tile node;
        min_bb2 ← expand_edges tile run min_bb1;
        scan_nodes tile bb rest min_bb2
      else scan_nodes tile bb rest min_bb
  end.

(** Lines 328-356: the loop over the tiles.  Trimming the cache between two
    tiles does not change which tile an id resolves to, and is not shown. *)
Fixpoint scan_tiles (g : GraphReader) (bb : AABB2.t) (ids : list GraphId.t)
    (min_bb : AABB2.t) : option AABB2.t :=
  match ids with
  | [] => Some min_bb
  | tile_id :: rest =>
      match GetGraphTile g tile_id with
      | None => scan_tiles g bb rest min_bb
      | Some tile =>
          min_bb' ← scan_nodes tile bb (GraphTile.nodes tile) min_bb;
          scan_tiles g bb rest min_bb'
      end
  end.

(** graphreader.cc, lines 324-360.  [GetGraphIds] stands for
    [TileHierarchy::GetGraphIds], which is not part of the sources at hand. *)
Definition GetMinimumBoundingBox (GetGraphIds : AABB2.t → list GraphId.t)
    (g : GraphReader) (bb : AABB2.t) : option AABB2.t :=
  scan_tiles g bb (GetGraphIds bb)
    (AABB2.of_points PointLL_default PointLL_default).

(** * The vocabulary of the properties *)

(** ** The backward walk of GetShortcut, as a relation *)

(** The edges of a node's run that the lambda does not skip: the continuing
    edges of the walk at that node. *)
Fixpoint continuing_edges (edgeid : GraphId.t) (idx : N)
    (run : list DirectedEdge.t) : list DirectedEdge.t :=
  match run with
  | [] => []
  | de :: rest =>
      if skipped edgeid idx de
      then continuing_edges edgeid (N.succ idx) rest
      else de :: continuing_edges edgeid (N.succ idx) rest
  end.

(** The states of the backward walk: the tile, the edge the walk stands on
    and the node that edge leaves. *)
Definition walk_state : Type := (GraphTile.t * GraphId.t * NodeInfo.t)%type.

(** [walk_reaches g n st st'] : the loop gets from [st] to [st'] in [n]
    passes, each finding one continuing edge and no superseded edge. *)
Inductive walk_reaches (g : GraphReader) : nat → walk_state → walk_state → Prop :=
  | walk_here st : walk_reaches g 0 st st
  | walk_pass n tile edgeid node c st' st'' :
      continuing_edge tile edgeid node = Some (Some c) →
      GetShortcut_step g tile c = Some (inr st') →
      walk_reaches g n st' st'' →
      walk_reaches g (S n) (tile, edgeid, node) st''.

(** ** The invariant of the tile format on opposing edges *)

(** Edge [i] of a tile belongs to node [k] of that tile. *)
Definition leaves_node (tile : GraphTile.t) (i k : N) (ni : NodeInfo.t) : Prop :=
  GraphTile.node tile k = Some ni
  ∧ NodeInfo.edge_index ni ≤ i
  ∧ i < NodeInfo.edge_index ni + NodeInfo.edge_count ni.

(** Every edge [e] leaving a node [k] has, at the position its opposing
    index names among the edges of its end node, an edge of the same kind
    that ends at [k] and whose opposing index names [e]. *)
Definition opposing_consistent (g : GraphReader) : Prop :=
  ∀ (e : GraphId.t) tile de k ni tile' ni',
    GetGraphTile g e = Some tile →
    GraphTile.directededge tile (GraphId.id e) = Some de →
    leaves_node tile (GraphId.id e) k ni →
    GetGraphTile g (DirectedEdge.endnode de) = Some tile' →
    GraphTile.node tile' (GraphId.id (DirectedEdge.endnode de)) = Some ni' →
    ∃ de',
      GraphTile.directededge tile'
        (add32 (NodeInfo.edge_index ni') (DirectedEdge.opp_index de)) = Some de'
      ∧ DirectedEdge.endnode de' = GraphId.set_id e k
      ∧ add32 (NodeInfo.edge_index ni) (DirectedEdge.opp_index de') = GraphId.id e
      ∧ DirectedEdge.IsTransitLine de' = DirectedEdge.IsTransitLine de.

(** ** Graphs that differ in speed only *)

Definition forget_speed_tile (tl : GraphTile.t) : GraphTile.t :=
  GraphTile.mk (GraphTile.graphid tl) (GraphTile.base_ll tl) (GraphTile.nodes tl)
    (DirectedEdge.set_speed 0 <$> GraphTile.directededges tl)
    (GraphTile.transitions tl) (GraphTile.shapes tl).

Definition forget_speed (g : GraphReader) : GraphReader :=
  mkGraphReader (forget_speed_tile <$> tiles g).

(** Two readers hold the same graph except for the speeds of the edges. *)
Definition same_but_speed (g1 g2 : GraphReader) : Prop :=
  forget_speed g1 = forget_speed g2.

(** ** The forward walk of RecoverShortcut, as a relation *)

(** One full pass through the loop body, lines 226-268, that neither returns
    nor leaves the loop. *)
Definition recover_pass (g : GraphReader) (shortcut : DirectedEdge.t)
    (st st' : recover_state) : Prop :=
  let '(current_edge, begin_node, acc, edges) := st in
  let endnode := DirectedEdge.endnode current_edge in
  endnode ≠ DirectedEdge.endnode shortcut
  ∧ ∃ tile first run idx edge,
      GetGraphTile g endnode = Some tile
      ∧ GetDirectedEdges tile (GraphId.id endnode) = Some (first, run)
      ∧ find_same_enough begin_node shortcut first run = Some (idx, edge)
      ∧ add32 acc (DirectedEdge.length edge) ≤ DirectedEdge.length shortcut
      ∧ st' = (edge, GraphId.set_id (GraphTile.graphid tile) (GraphId.id endnode),
               add32 acc (DirectedEdge.length edge),
               edges ++ [GraphId.set_id (GraphTile.graphid tile) idx]).

Inductive recover_reaches (g : GraphReader) (shortcut : DirectedEdge.t)
  : nat → recover_state → recover_state → Prop :=
  | recover_here st : recover_reaches g shortcut 0 st st
  | recover_more n st st' st'' :
      recover_pass g shortcut st st' →
      recover_reaches g shortcut n st' st'' →
      recover_reaches g shortcut (S n) st st''.

(** No edge leaving the end node of the current edge is the same enough. *)
Definition no_matching_edge (g : GraphReader) (shortcut : DirectedEdge.t)
    (st : recover_state) : Prop :=
  let '(current_edge, begin_node, acc, edges) := st in
  let endnode := DirectedEdge.endnode current_edge in
  endnode ≠ DirectedEdge.endnode shortcut
  ∧ ∃ tile first run,
      GetGraphTile g endnode = Some tile
      ∧ GetDirectedEdges tile (GraphId.id endnode) = Some (first, run)
      ∧ ∀ e, e ∈ run → same_enough begin_node shortcut e = false.

(** The edge that is the same enough takes the accumulated length past the
    length of the shortcut, and the end node is not reached yet. *)
Definition length_overrun (g : GraphReader) (shortcut : DirectedEdge.t)
    (st : recover_state) : Prop :=
  let '(current_edge, begin_node, acc, edges) := st in
  let endnode := DirectedEdge.endnode current_edge in
  endnode ≠ DirectedEdge.endnode shortcut
  ∧ ∃ tile first run idx edge,
      GetGraphTile g endnode = Some tile
      ∧ GetDirectedEdges tile (GraphId.id endnode) = Some (first, run)
      ∧ find_same_enough begin_node shortcut first run = Some (idx, edge)
      ∧ DirectedEdge.length shortcut < add32 acc (DirectedEdge.length edge).

(** The end node of the shortcut is reached with an accumulated length that
    [differs] from the length of the shortcut. *)
Definition final_length (differs : N → N → Prop) (shortcut : DirectedEdge.t)
    (st : recover_state) : Prop :=
  let '(current_edge, begin_node, acc, edges) := st in
  DirectedEdge.endnode current_edge = DirectedEdge.endnode shortcut
  ∧ differs acc (DirectedEdge.length shortcut).

(** The end node of the current edge lies in a tile that does not resolve. *)
Definition no_end_node (g : GraphReader) (shortcut : DirectedEdge.t)
    (st : recover_state) : Prop :=
  let '(current_edge, begin_node, acc, edges) := st in
  DirectedEdge.endnode current_edge ≠ DirectedEdge.endnode shortcut
  ∧ GetGraphTile g (DirectedEdge.endnode current_edge) = None.

(** Some state that the walk reaches satisfies [bad], with fuel left for
    [need] more passes. *)
Definition walk_meets (need : nat) (bad : DirectedEdge.t → recover_state → Prop)
    (fuel : nat) (g : GraphReader) (shortcut_id : GraphId.t) : Prop :=
  ∃ shortcut st0 n st,
    RecoverShortcut_seed g shortcut_id = Some (inr (shortcut, st0))
    ∧ recover_reaches g shortcut n st0 st
    ∧ (n + need ≤ fuel)%nat
    ∧ bad shortcut st.

(** The three failures of the walk as the specification lists them: the last
    one is any final length other than the length of the shortcut. *)
Definition listed_failure (fuel : nat) (g : GraphReader)
    (shortcut_id : GraphId.t) : Prop :=
  walk_meets 1 (no_matching_edge g) fuel g shortcut_id
  ∨ walk_meets 1 (length_overrun g) fuel g shortcut_id
  ∨ walk_meets 0 (final_length (λ a l, a ≠ l)) fuel g shortcut_id.

(** The failures as the source has them: those of the walk, where the final
    length fails only when it is below the length of the shortcut, the end
    node whose tile does not resolve, and the returns before the walk. *)
Definition source_failure (fuel : nat) (g : GraphReader)
    (shortcut_id : GraphId.t) : Prop :=
  walk_meets 1 (no_matching_edge g) fuel g shortcut_id
  ∨ walk_meets 1 (length_overrun g) fuel g shortcut_id
  ∨ walk_meets 0 (final_length N.lt) fuel g shortcut_id
  ∨ walk_meets 1 (no_end_node g) fuel g shortcut_id
  ∨ ∃ why, RecoverShortcut_seed g shortcut_id = Some (inl why).

(** The listed failures together with the two kinds that the source adds:
    the end node whose tile does not resolve and the returns before the
    walk. *)
Definition recover_failure (fuel : nat) (g : GraphReader)
    (shortcut_id : GraphId.t) : Prop :=
  listed_failure fuel g shortcut_id
  ∨ walk_meets 1 (no_end_node g) fuel g shortcut_id
  ∨ ∃ why, RecoverShortcut_seed g shortcut_id = Some (inl why).

(** The superseded edge that the walk starts from does not, alone, reach the
    end node of the shortcut with more than the length of the shortcut. *)
Definition seed_within (g : GraphReader) (shortcut_id : GraphId.t) : Prop :=
  ∀ shortcut current_edge begin_node acc edges,
    RecoverShortcut_seed g shortcut_id
    = Some (inr (shortcut, (current_edge, begin_node, acc, edges))) →
    DirectedEdge.endnode current_edge = DirectedEdge.endnode shortcut →
    acc ≤ DirectedEdge.length shortcut.

(** The length of the edges behind a list of ids, summed without wrapping. *)
Fixpoint total_length (g : GraphReader) (edges : list GraphId.t) : option N :=
  match edges with
  | [] => Some 0
  | e :: rest =>
      tile ← GetGraphTile g e;
      de ← GraphTile.directededge tile (GraphId.id e);
      n ← total_length g rest;
      Some (DirectedEdge.length de + n)
  end.

(** Every tile is stored under the level and tile number of its header. *)
Definition reader_keyed (g : GraphReader) : Prop :=
  ∀ key tile, tiles g !! key = Some tile →
    key = (GraphId.level (GraphTile.graphid tile),
           GraphId.tileid (GraphTile.graphid tile)).

(** The length of an edge is a 24-bit field. *)
Definition kMaxEdgeLength : N := 16777215.

Definition lengths_bounded (g : GraphReader) : Prop :=
  ∀ key tile i de,
    tiles g !! key = Some tile → GraphTile.directededges tile !! i = Some de →
    DirectedEdge.length de ≤ kMaxEdgeLength.

(** ** Well-formed chains under a shortcut *)

(** The uses that never continue a chain (lines 128-130). *)
Definition connection_use (u : Use) : bool :=
  bool_decide (u = kTransitConnection)
  || bool_decide (u = kEgressConnection)
  || bool_decide (u = kPlatformConnection).

Definition never_continues (de : DirectedEdge.t) : bool :=
  DirectedEdge.is_shortcut de || connection_use (DirectedEdge.use de).

(** The attributes that a base edge shares with the shortcut above it. *)
Definition attribute_identical (shortcut edge : DirectedEdge.t) : Prop :=
  N.land (DirectedEdge.forwardaccess edge) kAutoAccess ≠ 0
  ∧ DirectedEdge.sign edge = DirectedEdge.sign shortcut
  ∧ DirectedEdge.use edge = DirectedEdge.use shortcut
  ∧ DirectedEdge.classification edge = DirectedEdge.classification shortcut
  ∧ DirectedEdge.roundabout edge = DirectedEdge.roundabout shortcut
  ∧ DirectedEdge.link edge = DirectedEdge.link shortcut
  ∧ DirectedEdge.toll edge = DirectedEdge.toll shortcut
  ∧ DirectedEdge.destonly edge = DirectedEdge.destonly shortcut
  ∧ DirectedEdge.unpaved edge = DirectedEdge.unpaved shortcut
  ∧ DirectedEdge.surface edge = DirectedEdge.surface shortcut.

(** One edge of a chain with what the graph holds about it: the node it
    leaves, that node's tile, record and run of edges, the position of the
    edge in the run, the edge, and on the side of its end node the tile, the
    node record, and the opposing edge with its index. *)
Record hop : Type := mkHop {
  h_from : GraphId.t;
  h_tile : GraphTile.t;
  h_node : NodeInfo.t;
  h_run : list DirectedEdge.t;
  h_pos : nat;
  h_de : DirectedEdge.t;
  h_totile : GraphTile.t;
  h_tonode : NodeInfo.t;
  h_opp : DirectedEdge.t
}.

Definition h_to (h : hop) : GraphId.t := DirectedEdge.endnode (h_de h).
Definition h_idx (h : hop) : N :=
  NodeInfo.edge_index (h_node h) + N.of_nat (h_pos h).
Definition h_oidx (h : hop) : N :=
  add32 (NodeInfo.edge_index (h_tonode h)) (DirectedEdge.opp_index (h_de h)).
Definition hop_id (h : hop) : GraphId.t := GraphId.set_id (h_from h) (h_idx h).

(** The hop describes the graph: a base edge that is the same as the
    shortcut in its attributes, with a consistent opposing edge. *)
Record hop_ok (last_level : N) (g : GraphReader) (shortcut : DirectedEdge.t)
    (h : hop) : Prop := {
  ok_level : GraphId.level (h_from h) < last_level;
  ok_tolevel : GraphId.level (h_to h) < last_level;
  ok_tile : GetGraphTile g (h_from h) = Some (h_tile h);
  ok_header : GraphTile.graphid (h_tile h) = GraphId.Tile_Base (h_from h);
  ok_node : GraphTile.node (h_tile h) (GraphId.id (h_from h)) = Some (h_node h);
  ok_run : node_run (h_tile h) (h_node h) = Some (h_run h);
  ok_pos : h_run h !! h_pos h = Some (h_de h);
  ok_base : never_continues (h_de h) = false;
  ok_road : DirectedEdge.IsTransitLine (h_de h) = false;
  ok_same : attribute_identical shortcut (h_de h);
  ok_totile : GetGraphTile g (h_to h) = Some (h_totile h);
  ok_tonode : GraphTile.node (h_totile h) (GraphId.id (h_to h)) = Some (h_tonode h);
  ok_opp : GraphTile.directededge (h_totile h) (h_oidx h) = Some (h_opp h);
  ok_opp_end : DirectedEdge.endnode (h_opp h) = h_from h;
  ok_opp_idx :
    add32 (NodeInfo.edge_index (h_node h)) (DirectedEdge.opp_index (h_opp h))
    = h_idx h;
  ok_opp_base : never_continues (h_opp h) = false;
  ok_opp_tile : DirectedEdge.leaves_tile (h_opp h) = false → h_totile h = h_tile h
}.

(** [h'] follows [h] through a node that has no other real edge than the
    two of the chain, and the chain does not turn back. *)
Record hop_link (h h' : hop) : Prop := {
  lk_node : h_from h' = h_to h;
  lk_plain : DirectedEdge.superseded (h_de h') = 0;
  lk_onward : h_to h' ≠ h_from h;
  lk_opp : ∃ j : nat,
      h_oidx h = NodeInfo.edge_index (h_node h') + N.of_nat j
      ∧ h_run h' !! j = Some (h_opp h);
  lk_only : ∀ (j : nat) de,
      h_run h' !! j = Some de →
      j ≠ h_pos h' →
      NodeInfo.edge_index (h_node h') + N.of_nat j ≠ h_oidx h →
      never_continues de = true
}.

(** The hops after [h] up to the end node of the shortcut. *)
Fixpoint chain_links (shortcut : DirectedEdge.t) (h : hop) (rest : list hop)
  : Prop :=
  match rest with
  | [] => h_to h = DirectedEdge.endnode shortcut
  | h' :: rest' =>
      h_to h ≠ DirectedEdge.endnode shortcut
      ∧ hop_link h h'
      ∧ chain_links shortcut h' rest'
  end.

(** The id that lines 179-182 return once the backward walk stands on the
    first edge of a chain: the edge of the begin node at the position that
    the superseded field of the first edge, less one, gives. *)
Definition superseded_position (h : hop) : GraphId.t :=
  GraphId.set_id (h_from h)
    (add32 (NodeInfo.edge_index (h_node h))
           (sub32 (DirectedEdge.superseded (h_de h)) 1)).

(** The first hop [h] is the edge that the shortcut [s] supersedes: the
    shortcut is an edge of the node that [h] leaves, its mask shares a bit
    with the superseded field of [h] (the test of line 207) and with that of
    no edge before [h], and its opposing edge leads back to that node. *)
Record chain_head (last_level : N) (g : GraphReader) (s : GraphId.t)
    (shortcut : DirectedEdge.t) (h : hop) : Prop := {
  hd_levels : last_level ≤ 7;
  hd_leaves : ∃ j : nat,
      h_run h !! j = Some shortcut
      ∧ s = GraphId.set_id (h_from h)
              (NodeInfo.edge_index (h_node h) + N.of_nat j);
  hd_shortcut : DirectedEdge.is_shortcut shortcut = true;
  hd_road : DirectedEdge.IsTransitLine shortcut = false;
  hd_use : connection_use (DirectedEdge.use shortcut) = false;
  hd_mask :
    N.land (DirectedEdge.shortcut shortcut) (DirectedEdge.superseded (h_de h)) ≠ 0;
  hd_first : ∀ (j : nat) de,
      h_run h !! j = Some de → (j < h_pos h)%nat →
      N.land (DirectedEdge.shortcut shortcut) (DirectedEdge.superseded de) = 0;
  hd_tolevel : GraphId.level (DirectedEdge.endnode shortcut) < last_level;
  hd_back : ∃ tile ni opp,
      GetGraphTile g (DirectedEdge.endnode shortcut) = Some tile
      ∧ GraphTile.node tile (GraphId.id (DirectedEdge.endnode shortcut)) = Some ni
      ∧ GraphTile.directededge tile
          (add32 (NodeInfo.edge_index ni) (DirectedEdge.opp_index shortcut))
        = Some opp
      ∧ DirectedEdge.endnode opp = h_from h
}.

(** The length of a chain. *)
Definition chain_length (hs : list hop) : N :=
  foldr (λ h n, DirectedEdge.length (h_de h) + n) 0 hs.

(** A well-formed chain: the shortcut [s] leaves the node of the first hop
    and supersedes it by its mask, the hops [h :: rest] lead from there to
    the end node of the shortcut, and their lengths add up to the length of
    the shortcut. *)
Record chain_wf (last_level : N) (g : GraphReader) (s : GraphId.t)
    (shortcut : DirectedEdge.t) (h : hop) (rest : list hop) : Prop := {
  wf_head : chain_head last_level g s shortcut h;
  wf_hops : Forall (hop_ok last_level g shortcut) (h :: rest);
  wf_links : chain_links shortcut h rest;
  wf_length : chain_length (h :: rest) = DirectedEdge.length shortcut;
  wf_fits : DirectedEdge.length shortcut < 2 ^ 32
}.

(** * Synthetic graphs *)

(** ** A synthetic chain

    Four nodes in one tile of level 0, three road edges [e0], [e1], [e2]
    from node 0 to node 3 with their opposing edges, and a shortcut in each
    direction between node 0 and node 3.

<<
      node 0          node 1          node 2          node 3
      0: s  -> 3      2: o0 -> 0      4: o1 -> 1      6: s' -> 0
      1: e0 -> 1      3: e1 -> 2      5: e2 -> 3      7: o2 -> 2
>> *)
Module Chain.
Definition nd (i : N) : GraphId.t := GraphId.make 0 0 i.

Definition road (to opp len sup spd : N) : DirectedEdge.t :=
  DirectedEdge.mk (nd to) opp false 0 sup kRoad 1 false 2 false false false
    false false 0 spd len 0.

Definition short (to opp len mask spd : N) : DirectedEdge.t :=
  DirectedEdge.mk (nd to) opp false mask 0 kRoad 1 false 2 false false false
    false false 0 spd len 0.

Definition node (first count : N) (lon lat : Q) : NodeInfo.t :=
  NodeInfo.mk first count 0 0 0 lon lat.

Definition edges (spd : N) : list DirectedEdge.t :=
  [ short 3 0 600 1 spd; road 1 0 100 1 spd;
    road 0 1 100 0 spd;  road 2 0 200 0 spd;
    road 1 1 200 0 spd;  road 3 1 300 0 spd;
    short 0 0 600 1 spd; road 2 1 300 1 spd ].

Definition tile (spd : N) : GraphTile.t :=
  GraphTile.mk (GraphId.make 0 0 0) (0, 0)%Q
    [ node 0 2 (1#10) (1#10); node 2 2 (2#10) (1#10);
      node 4 2 (3#10) (1#10); node 6 2 (4#10) (1#10) ]
    (edges spd) [] {[ 0 := [(1#10, 1#10); (4#10, 1#10)]%Q ]}.

Definition graph (spd : N) : GraphReader :=
  mkGraphReader {[ (0, 0) := tile spd ]}.

Definition s : GraphId.t := nd 0.
Definition e0 : GraphId.t := nd 1.
Definition e1 : GraphId.t := nd 3.
Definition e2 : GraphId.t := nd 5.
End Chain.

(** ** Two more synthetic graphs *)

(** A fork: node 1 has three road edges, node 0 has one.
<<
      node 0        node 1        node 2        node 3        node 4
      0: e0 -> 1    1: o0 -> 0    4: o1 -> 1    6: b' -> 1    7: o2 -> 2
                    2: e1 -> 2    5: e2 -> 4
                    3: b  -> 3
>> *)
Module Fork.
Definition tile : GraphTile.t :=
  GraphTile.mk (GraphId.make 0 0 0) (0, 0)%Q
    [ Chain.node 0 1 0 0; Chain.node 1 3 0 0; Chain.node 4 2 0 0;
      Chain.node 6 1 0 0; Chain.node 7 1 0 0 ]
    [ Chain.road 1 0 10 0 30;
      Chain.road 0 0 10 0 30; Chain.road 2 0 10 0 30; Chain.road 3 0 10 0 30;
      Chain.road 1 1 10 0 30; Chain.road 4 0 10 0 30;
      Chain.road 1 2 10 0 30;
      Chain.road 2 1 10 0 30 ]
    [] ∅.
Definition graph : GraphReader := mkGraphReader {[ (0, 0) := tile ]}.
Definition e0 : GraphId.t := Chain.nd 0.
Definition e1 : GraphId.t := Chain.nd 2.
Definition e2 : GraphId.t := Chain.nd 5.
End Fork.

(** Two tiles of the same level, each with one road between two nodes.
<<
      tile 0:  node 0   0: a  -> (tile 0, node 1)
               node 1   1: a' -> (tile 0, node 0)
      tile 1:  node 0   0: b  -> (tile 1, node 1)
               node 1   1: b' -> (tile 1, node 0)
>> *)
Module TwoTiles.
Definition road (t to opp : N) : DirectedEdge.t :=
  DirectedEdge.mk (GraphId.make t 0 to) opp false 0 0 kRoad 1 false 2 false
    false false false false 0 30 10 0.
Definition tile (t : N) : GraphTile.t :=
  GraphTile.mk (GraphId.make t 0 0) (0, 0)%Q
    [ Chain.node 0 1 0 0; Chain.node 1 1 0 0 ]
    [ road t 1 0; road t 0 0 ] [] ∅.
Definition graph : GraphReader :=
  mkGraphReader {[ (0, 0) := tile 0; (0, 1) := tile 1 ]}.
Definition a : GraphId.t := GraphId.make 0 0 0.
Definition b' : GraphId.t := GraphId.make 1 0 1.
End TwoTiles.

(** The chain with no edge marked as superseded at node 0. *)
Module Unmarked.
Definition tile : GraphTile.t :=
  GraphTile.mk (GraphId.make 0 0 0) (0, 0)%Q
    (GraphTile.nodes (Chain.tile 30))
    (<[ 1%nat := Chain.road 1 0 100 0 30 ]> (Chain.edges 30)) [] ∅.
Definition graph : GraphReader := mkGraphReader {[ (0, 0) := tile ]}.
End Unmarked.

(** One road edge of length 10 between two nodes, under a shortcut of
    length 5.
<<
      node 0   0: s  -> 1      node 1   2: s' -> 0
               1: e0 -> 1               3: o0 -> 0
>> *)
Module Single.
Definition tile : GraphTile.t :=
  GraphTile.mk (GraphId.make 0 0 0) (0, 0)%Q
    [ Chain.node 0 2 0 0; Chain.node 2 2 0 0 ]
    [ Chain.short 1 0 5 1 30; Chain.road 1 1 10 1 30;
      Chain.short 0 0 5 1 30; Chain.road 0 1 10 1 30 ] [] ∅.
Definition graph : GraphReader := mkGraphReader {[ (0, 0) := tile ]}.
End Single.

(** The synthetic chain of [Chain], hop by hop. *)
Module ChainHops.
Definition nodeinfo (i : N) : NodeInfo.t :=
  Chain.node (2 * i) 2 ((Z.of_N i + 1) # 10) (1 # 10).
Definition sde : DirectedEdge.t := Chain.short 3 0 600 1 30.
Definition e0 : DirectedEdge.t := Chain.road 1 0 100 1 30.
Definition o0 : DirectedEdge.t := Chain.road 0 1 100 0 30.
Definition e1 : DirectedEdge.t := Chain.road 2 0 200 0 30.
Definition o1 : DirectedEdge.t := Chain.road 1 1 200 0 30.
Definition e2 : DirectedEdge.t := Chain.road 3 1 300 0 30.
Definition o2 : DirectedEdge.t := Chain.road 2 1 300 1 30.

Definition h0 : hop :=
  mkHop (Chain.nd 0) (Chain.tile 30) (nodeinfo 0) [sde; e0] 1 e0
    (Chain.tile 30) (nodeinfo 1) o0.
Definition h1 : hop :=
  mkHop (Chain.nd 1) (Chain.tile 30) (nodeinfo 1) [o0; e1] 1 e1
    (Chain.tile 30) (nodeinfo 2) o1.
Definition h2 : hop :=
  mkHop (Chain.nd 2) (Chain.tile 30) (nodeinfo 2) [o1; e2] 1 e2
    (Chain.tile 30) (nodeinfo 3) o2.
End ChainHops.

(** ** A chain under the third shortcut of a node

    Node 0 is the begin node of three shortcuts, with the masks 1, 2 and 4,
    and of the three road edges that they supersede.  The third shortcut
    [s3] stands for the chain [e0], [e1], [e2] from node 0 to node 3; the
    other two stand for the roads [a] and [b].

<<
      node 0           node 1        node 2        node 3        node 4        node 5
      0: s1 -> 4       6: o0 -> 0    8: o1 -> 1    10: s3' -> 0  12: s1' -> 0  14: s2' -> 0
      1: s2 -> 5       7: e1 -> 2    9: e2 -> 3    11: o2  -> 2  13: a'  -> 0  15: b'  -> 0
      2: s3 -> 3
      3: a  -> 4
      4: b  -> 5
      5: e0 -> 1
>> *)
Module Third.
Definition edges : list DirectedEdge.t :=
  [ Chain.short 4 0 50 1 30;  Chain.short 5 0 70 2 30;
    Chain.short 3 0 600 4 30; Chain.road 4 1 50 1 30;
    Chain.road 5 1 70 2 30;   Chain.road 1 0 100 4 30;
    Chain.road 0 5 100 0 30;  Chain.road 2 0 200 0 30;
    Chain.road 1 1 200 0 30;  Chain.road 3 1 300 0 30;
    Chain.short 0 2 600 1 30; Chain.road 2 1 300 1 30;
    Chain.short 0 0 50 1 30;  Chain.road 0 3 50 1 30;
    Chain.short 0 1 70 1 30;  Chain.road 0 4 70 1 30 ].

Definition nodes : list NodeInfo.t :=
  [ Chain.node 0 6 0 0;  Chain.node 6 2 0 0;  Chain.node 8 2 0 0;
    Chain.node 10 2 0 0; Chain.node 12 2 0 0; Chain.node 14 2 0 0 ].

Definition tile : GraphTile.t :=
  GraphTile.mk (GraphId.make 0 0 0) (0, 0)%Q nodes edges [] ∅.

Definition graph : GraphReader := mkGraphReader {[ (0, 0) := tile ]}.

Definition s3 : GraphId.t := Chain.nd 2.
Definition a : GraphId.t := Chain.nd 3.
Definition e0 : GraphId.t := Chain.nd 5.
Definition e1 : GraphId.t := Chain.nd 7.
Definition e2 : GraphId.t := Chain.nd 9.
End Third.

(** The chain of [Third], hop by hop. *)
Module ThirdHops.
Definition sde : DirectedEdge.t := Chain.short 3 0 600 4 30.
Definition e0 : DirectedEdge.t := Chain.road 1 0 100 4 30.
Definition o0 : DirectedEdge.t := Chain.road 0 5 100 0 30.
Definition e1 : DirectedEdge.t := Chain.road 2 0 200 0 30.
Definition o1 : DirectedEdge.t := Chain.road 1 1 200 0 30.
Definition e2 : DirectedEdge.t := Chain.road 3 1 300 0 30.
Definition o2 : DirectedEdge.t := Chain.road 2 1 300 1 30.

Definition h0 : hop :=
  mkHop (Chain.nd 0) Third.tile (Chain.node 0 6 0 0) (take 6 Third.edges) 5 e0
    Third.tile (Chain.node 6 2 0 0) o0.
Definition h1 : hop :=
  mkHop (Chain.nd 1) Third.tile (Chain.node 6 2 0 0) [o0; e1] 1 e1
    Third.tile (Chain.node 8 2 0 0) o1.
Definition h2 : hop :=
  mkHop (Chain.nd 2) Third.tile (Chain.node 8 2 0 0) [o1; e2] 1 e2
    Third.tile (Chain.node 10 2 0 0) o2.
End ThirdHops.
(** * Vocabulary and graphs for the further properties *)

(** The directed edge behind an edge id. *)
Definition edge_at (g : GraphReader) (e : GraphId.t) : option DirectedEdge.t :=
  tile ← GetGraphTile g e;
  GraphTile.directededge tile (GraphId.id e).

(** ** The path that a recovery returns *)

(** The edges of a tile are counted in 32 bits. *)
Definition tiles_addressable (g : GraphReader) : Prop :=
  ∀ key tile, tiles g !! key = Some tile →
    N.of_nat (List.length (GraphTile.directededges tile)) < 2 ^ 32.

(** Edge [b] is one of the edges that leave the end node of edge [a]: it
    lies in the tile of that node, within the run of the node's edges. *)
Definition leaves_end_of (g : GraphReader) (a b : GraphId.t) : Prop :=
  ∃ da tile ni,
    edge_at g a = Some da
    ∧ GetGraphTile g (DirectedEdge.endnode da) = Some tile
    ∧ GraphId.Tile_Base b = GraphId.Tile_Base (DirectedEdge.endnode da)
    ∧ leaves_node tile (GraphId.id b) (GraphId.id (DirectedEdge.endnode da)) ni
    ∧ NodeInfo.edge_index ni + NodeInfo.edge_count ni
      ≤ N.of_nat (List.length (GraphTile.directededges tile)).

(** [recovered_from g s from a rest] : starting with edge [a], which leaves
    node [from], the edges [rest] go on, each leaving the end node of the one
    before, none ending at the node that the one before left, each the same
    enough as the shortcut [s], up to an edge that ends where [s] ends. *)
Inductive recovered_from (g : GraphReader) (s : DirectedEdge.t)
  : GraphId.t → GraphId.t → list GraphId.t → Prop :=
  | recovered_end from a da :
      edge_at g a = Some da →
      DirectedEdge.endnode da = DirectedEdge.endnode s →
      recovered_from g s from a []
  | recovered_step from a da b db rest :
      edge_at g a = Some da →
      DirectedEdge.endnode da ≠ DirectedEdge.endnode s →
      leaves_end_of g a b →
      edge_at g b = Some db →
      same_enough from s db = true →
      recovered_from g s (DirectedEdge.endnode da) b rest →
      recovered_from g s from a (b :: rest).

(** ** Graphs on which the forward walk ends *)

(** No edge has length 0. *)
Definition lengths_positive (g : GraphReader) : Prop :=
  ∀ key tile i de,
    tiles g !! key = Some tile → GraphTile.directededges tile !! i = Some de →
    0 < DirectedEdge.length de.

(** The end node of every edge, when its tile resolves, is a node of that
    tile whose run of edges lies within the tile. *)
Definition runs_resolve (g : GraphReader) : Prop :=
  ∀ key tile i de tile',
    tiles g !! key = Some tile → GraphTile.directededges tile !! i = Some de →
    GetGraphTile g (DirectedEdge.endnode de) = Some tile' →
    is_Some (GetDirectedEdges tile' (GraphId.id (DirectedEdge.endnode de))).

(** ** The points that the minimum bounding box has to hold *)

(** The box has taken up a point: its minimum lies below the invalid
    coordinate. *)
Definition started (b : AABB2.t) : Prop :=
  (AABB2.minx b < INVALID_LL)%Q ∧ (AABB2.miny b < INVALID_LL)%Q.

(** The bounds of one box lie outside those of another. *)
Definition grown (b b' : AABB2.t) : Prop :=
  (AABB2.minx b' <= AABB2.minx b ∧ AABB2.miny b' <= AABB2.miny b
   ∧ AABB2.maxx b <= AABB2.maxx b' ∧ AABB2.maxy b <= AABB2.maxy b')%Q.

(** [p] is a point of the shape of an edge that leaves a node of [nodes]
    lying in the box [bb]. *)
Definition shape_point_inside (tile : GraphTile.t) (bb : AABB2.t)
    (nodes : list NodeInfo.t) (p : PointLL) : Prop :=
  ∃ node run de pts,
    node ∈ nodes
    ∧ AABB2.Contains bb (NodeInfo.latlng node (GraphTile.base_ll tile)) = true
    ∧ node_run tile node = Some run
    ∧ de ∈ run
    ∧ GraphTile.shape tile (DirectedEdge.edgeinfo_offset de) = Some pts
    ∧ p ∈ pts.

(** [p] is the position of a node of [nodes] lying in the box [bb], or a
    point of the shape of an edge that leaves such a node. *)
Definition point_inside (tile : GraphTile.t) (bb : AABB2.t)
    (nodes : list NodeInfo.t) (p : PointLL) : Prop :=
  (∃ node,
     node ∈ nodes
     ∧ AABB2.Contains bb (NodeInfo.latlng node (GraphTile.base_ll tile)) = true
     ∧ p = NodeInfo.latlng node (GraphTile.base_ll tile))
  ∨ shape_point_inside tile bb nodes p.

(** Each of the four bounds of the box is a coordinate of a point of [S]. *)
Definition spanned (S : PointLL → Prop) (b : AABB2.t) : Prop :=
  (∃ p, S p ∧ AABB2.minx b = fst p)
  ∧ (∃ p, S p ∧ AABB2.miny b = snd p)
  ∧ (∃ p, S p ∧ AABB2.maxx b = fst p)
  ∧ (∃ p, S p ∧ AABB2.maxy b = snd p).

(** ** More synthetic graphs *)

(** A station: a rail line and a road leave node 0; the nodes carry
    densities 5, 7 and 9.
<<
      node 0 (5)         node 1 (7)         node 2 (9)
      0: rail -> 1       2: rail' -> 0      3: road' -> 0
      1: road -> 2
>> *)
Module Station.
Definition line (u : Use) (to opp : N) : DirectedEdge.t :=
  DirectedEdge.mk (Chain.nd to) opp false 0 0 u 1 false 2 false false false
    false false 0 30 10 0.
Definition node (first count density : N) : NodeInfo.t :=
  NodeInfo.mk first count 0 0 density 0 0.
Definition tile : GraphTile.t :=
  GraphTile.mk (GraphId.make 0 0 0) (0, 0)%Q
    [ node 0 2 5; node 2 1 7; node 3 1 9 ]
    [ line kRail 1 0; line kRoad 2 0; line kRail 0 0; line kRoad 0 1 ] [] ∅.
Definition graph : GraphReader := mkGraphReader {[ (0, 0) := tile ]}.
Definition rail : GraphId.t := Chain.nd 0.
Definition road : GraphId.t := Chain.nd 1.
Definition road' : GraphId.t := Chain.nd 3.
End Station.

(** A ring: three nodes, each with an edge to the next and an edge to the
    one before, none of them superseded.
<<
      node 0          node 1          node 2
      0: -> 1         2: -> 2         4: -> 0
      1: -> 2         3: -> 0         5: -> 1
>> *)
Module Ring.
Definition tile : GraphTile.t :=
  GraphTile.mk (GraphId.make 0 0 0) (0, 0)%Q
    [ Chain.node 0 2 0 0; Chain.node 2 2 0 0; Chain.node 4 2 0 0 ]
    [ Chain.road 1 1 10 0 30; Chain.road 2 0 10 0 30;
      Chain.road 2 1 10 0 30; Chain.road 0 0 10 0 30;
      Chain.road 0 1 10 0 30; Chain.road 1 0 10 0 30 ] [] ∅.
Definition graph : GraphReader := mkGraphReader {[ (0, 0) := tile ]}.
End Ring.

(** Two levels: a road on level 0 and a road on level 1, and a transition
    from node 1 of level 0 up to node 0 of level 1.
<<
      level 0:  node 0   0: -> node 1
                node 1   1: -> node 0      transition to (level 1, node 0)
      level 1:  node 0   0: -> node 1
                node 1   1: -> node 0
>> *)
Module Levels.
Definition road (l to opp : N) : DirectedEdge.t :=
  DirectedEdge.mk (GraphId.make 0 l to) opp false 0 0 kRoad 1 false 2 false
    false false false false 0 30 10 0.
Definition lower : GraphTile.t :=
  GraphTile.mk (GraphId.make 0 0 0) (0, 0)%Q
    [ Chain.node 0 1 0 0; NodeInfo.mk 1 1 0 1 0 0 0 ]
    [ road 0 1 0; road 0 0 0 ]
    [ NodeTransition.mk (GraphId.make 0 1 0) ] ∅.
Definition upper : GraphTile.t :=
  GraphTile.mk (GraphId.make 0 1 0) (0, 0)%Q
    [ Chain.node 0 1 0 0; Chain.node 1 1 0 0 ]
    [ road 1 1 0; road 1 0 0 ] [] ∅.
Definition graph : GraphReader :=
  mkGraphReader {[ (0, 0) := lower; (1, 0) := upper ]}.
Definition below : GraphId.t := GraphId.make 0 0 0.
Definition above : GraphId.t := GraphId.make 0 1 1.
End Levels.


(** * The tile grid *)

(** Modelled from the spec: the grid [Tiles<Point2>] of midgard/tiles.h (not
    part of the sources at hand; test/tiles.cc exercises it), for the planar
    kind of coordinates.  Tiles are numbered row by row from the lower left
    corner of the bounds, and every tile is cut into [nsubdivisions] by
    [nsubdivisions] bins numbered the same way. *)
Module Tiles.
Local Open Scope Z_scope.

Record t : Type := mk {
  tilebounds : AABB2.t;
  tilesize : Q;
  nrows : Z;
  ncolumns : Z;
  nsubdivisions : Z
}.

(** Modelled from the spec: the constructor
    [Tiles(bounds, tilesize, subdivisions)]. *)
Definition make (bounds : AABB2.t) (size : Q) (subdivisions : Z) : t :=
  mk bounds size
     (Qceiling ((AABB2.maxy bounds - AABB2.miny bounds) / size))
     (Qceiling ((AABB2.maxx bounds - AABB2.minx bounds) / size))
     subdivisions.

Definition SubdivisionSize (g : t) : Q := tilesize g / inject_Z (nsubdivisions g).

(** Modelled from the spec: [Tiles::TileId(col, row)], the id of the tile in
    a column and a row. *)
Definition TileId (g : t) (col row : Z) : Z := row * ncolumns g + col.

(** Modelled from the spec: [Tiles::GetRowColumn(tileid)], the pair
    (row, column) of a tile, with the division of C++. *)
Definition GetRowColumn (g : t) (tileid : Z) : Z * Z :=
  (Z.quot tileid (ncolumns g), Z.rem tileid (ncolumns g)).

(** The ids of the grid. *)
Definition valid_id (g : t) (tileid : Z) : Prop :=
  0 <= tileid < nrows g * ncolumns g.
Definition valid_row_column (g : t) (rc : Z * Z) : Prop :=
  (0 <= fst rc < nrows g) /\ (0 <= snd rc < ncolumns g).



End Tiles.

(** The grid of [TestRowCol]: the world in tiles of one degree. *)
Definition grid_world : Tiles.t := Tiles.make (AABB2.mk (-180) (-90) 180 90) 1 1.

(** ** Points and rectangles *)





(** ** Single precision

    The [float] of the test: IEEE 754 binary32 with rounding to the nearest,
    ties to even, through the operations of the standard library on
    [spec_float], at a precision of 24 bits. *)
Module F32.
Local Open Scope Z_scope.

Definition t : Type := spec_float.
Definition prec : Z := 24.
Definition emax : Z := 128.

Definition div : t → t → t := SFdiv prec emax.


(** The conversion of an [int] to [float]. *)
Definition of_int (z : Z) : t := binary_normalize prec emax z 0 false.


(** The number that a finite [float] stands for. *)
Definition to_Q (f : t) : Q :=
  match f with
  | S754_finite s m e => (inject_Z (cond_Zopp s (Zpos m)) * Qpower 2 e)%Q
  | _ => 0%Q
  end.
End F32.

(** Modelled from the spec: what [closest_first_answer] reads of a
    [Tiles<Point2>] (midgard/tiles.h is not part of the sources at hand):
    the bounds and the size of a tile as [float], the numbers of rows, of
    columns and of bins a side, [TileBounds().Width()] and [Height()] as
    the differences of the bounds, [SubdivisionSize()] as the size of a tile
    over the number of bins a side, and [TileId(col, row)]. *)
Module Tiles32.
Local Open Scope Z_scope.

Record t : Type := mk {
  minx : F32.t;
  miny : F32.t;
  maxx : F32.t;
  maxy : F32.t;
  tilesize : F32.t;
  nrows : Z;
  ncolumns : Z;
  nsubdivisions : Z
}.

Definition SubdivisionSize (g : t) : F32.t :=
  F32.div (tilesize g) (F32.of_int (nsubdivisions g)).
Definition TileId (g : t) (col row : Z) : Z := row * ncolumns g + col.

(** The grid with the numbers that its floats stand for. *)
Definition exact (g : t) : Tiles.t :=
  Tiles.mk (AABB2.mk (F32.to_Q (minx g)) (F32.to_Q (miny g))
                     (F32.to_Q (maxx g)) (F32.to_Q (maxy g)))
           (F32.to_Q (tilesize g)) (nrows g) (ncolumns g) (nsubdivisions g).
End Tiles32.

(** ** The brute-force answer of the test *)













(** ** The fixtures of test/tiles.cc *)

(** [assert_answer], test/tiles.cc lines 126-144, from line 128 on:
    [answer] is what [g.Intersect(l)] has returned at line 127
    ([Tiles::Intersect] is not part of the sources at hand).  The answer has
    no more tiles than expected, every tile of the answer is expected, and
    the bins of a tile of the answer are no more than, and among, the
    expected ones.  [true] stands for a return without an exception. *)
Definition assert_answer (answer expected : gmap Z (gset Z)) : bool :=
  bool_decide (size answer ≤ size expected)%nat
  && forallb
       (λ t : Z * gset Z,
          match expected !! fst t with
          | None => false
          | Some bins =>
              bool_decide (size (snd t) ≤ size bins)%nat
              && forallb (λ s, bool_decide (s ∈ bins)) (elements (snd t))
          end)
       (map_to_list answer).
(** * Properties of the graph reader *)

(** ** The opposing edge *)

Lemma GetGraphTile_set_id g e i :
  GetGraphTile g (GraphId.set_id e i) = GetGraphTile g e.
Proof. done. Qed.

Lemma set_id_set_id e k : GraphId.set_id (GraphId.set_id e k) (GraphId.id e) = e.
Proof. by destruct e. Qed.

(** C3. In a graph whose tiles keep the opposing-edge invariant of the
    format, the opposing edge of the opposing edge of a non-transit edge
    whose end node resolves is the edge itself. *)
Theorem GetOpposingEdgeId_involutive (g : GraphReader) (e : GraphId.t)
    tile de k ni tile' ni' :
  opposing_consistent g →
  GetGraphTile g e = Some tile →
  GraphTile.directededge tile (GraphId.id e) = Some de →
  leaves_node tile (GraphId.id e) k ni →
  DirectedEdge.IsTransitLine de = false →
  GetGraphTile g (DirectedEdge.endnode de) = Some tile' →
  GraphTile.node tile' (GraphId.id (DirectedEdge.endnode de)) = Some ni' →
  ∃ e', GetOpposingEdgeId g e = Some (e', Some tile')
        ∧ GetOpposingEdgeId g e' = Some (e, Some tile).
Proof.
  intros Hwf Ht Hd Hk Htr Ht' Hn'.
  destruct (Hwf e tile de k ni tile' ni' Ht Hd Hk Ht' Hn')
    as (de' & Hd' & Hend & Hopp & Htr').
  eexists. split.
  - unfold GetOpposingEdgeId. rewrite Ht. simpl. rewrite Hd. simpl.
    rewrite Htr, Ht'. simpl. rewrite Hn'. reflexivity.
  - unfold GetOpposingEdgeId.
    rewrite GetGraphTile_set_id, Ht'. simpl. rewrite Hd'. simpl.
    rewrite Htr', Htr, Hend, GetGraphTile_set_id, Ht. simpl.
    destruct Hk as (Hk & _ & _). rewrite Hk. simpl.
    by rewrite Hopp, set_id_set_id.
Qed.

(** Case analysis on an index into a concrete array: the lookup [H] at
    index [N.to_nat i] succeeded. *)
Ltac enum_index H i :=
  let n := fresh "n" in
  let E := fresh "E" in
  remember (N.to_nat i) as n eqn:E;
  apply (f_equal N.of_nat) in E; rewrite N2Nat.id in E; subst i;
  do 9 (try (destruct n as [|n]; [| simpl in H]));
  try discriminate H.

Lemma GetGraphTile_singleton key tl (e : GraphId.t) tile :
  GetGraphTile (mkGraphReader {[ key := tl ]}) e = Some tile →
  key = (GraphId.level e, GraphId.tileid e) ∧ tile = tl.
Proof.
  unfold GetGraphTile. simpl. intros [-> ->]%lookup_singleton_Some. done.
Qed.

Lemma Chain_opposing_consistent spd : opposing_consistent (Chain.graph spd).
Proof.
  intros [l t i] tile de k ni tile' ni' Ht Hd (Hk & Hlo & Hhi) Ht' Hn'.
  apply GetGraphTile_singleton in Ht as [Hkey ->].
  apply GetGraphTile_singleton in Ht' as [Hkey' ->].
  simpl in Hkey. injection Hkey as <- <-.
  unfold GraphTile.directededge, GraphTile.node in *. simpl in Hd, Hk, Hlo, Hhi.
  enum_index Hk k; injection Hk as <-; simpl in Hlo, Hhi;
    enum_index Hd i; try lia;
    injection Hd as <-; simpl in Hn'; injection Hn' as <-;
    (eexists; split; [reflexivity|]); done.
Qed.

Lemma GetOpposingEdgeId_involutive_witness :
  ∃ e', GetOpposingEdgeId (Chain.graph 30) Chain.e1
          = Some (e', Some (Chain.tile 30))
        ∧ GetOpposingEdgeId (Chain.graph 30) e'
          = Some (Chain.e1, Some (Chain.tile 30)).
Proof.
  eapply (GetOpposingEdgeId_involutive (Chain.graph 30) Chain.e1
            (Chain.tile 30) _ 1 _ (Chain.tile 30) _
            (Chain_opposing_consistent 30));
    [reflexivity | reflexivity | | reflexivity | reflexivity | reflexivity].
  split; [reflexivity | split; vm_compute; congruence].
Defined.

(** ** Forward connection *)

(** The answer of [AreEdgesConnectedForward] never looks at the tile number
    of its second edge. *)
Lemma AreEdgesConnectedForward_tile_blind g edge1 edge2 t :
  AreEdgesConnectedForward g edge1 edge2 =
  AreEdgesConnectedForward g edge1
    (GraphId.mk (GraphId.level edge2) t (GraphId.id edge2)).
Proof. reflexivity. Qed.

(** C5. Edge [a] of tile 0 ends at node 1 of tile 0; edge [b'] of tile 1
    starts at node 1 of tile 1, which is another node; and yet the two are
    reported as connected, because only the index of [b'] is compared with
    the range of edges of the end node of [a]. *)
Theorem AreEdgesConnectedForward_other_tile :
  (fst <$> edge_endnode TwoTiles.graph TwoTiles.a) = Some (GraphId.make 0 0 1)
  ∧ edge_startnode TwoTiles.graph TwoTiles.b' = Some (GraphId.make 1 0 1)
  ∧ GraphId.make 1 0 1 ≠ GraphId.make 0 0 1
  ∧ AreEdgesConnectedForward TwoTiles.graph TwoTiles.a TwoTiles.b' = Some true.
Proof.
  split; [reflexivity|]. split; [reflexivity|]. split; [discriminate|].
  reflexivity.
Qed.

(** ** The shortcut above an edge *)

Lemma continuing_edge_loop_found edgeid idx run c :
  continuing_edge_loop edgeid idx run (Some c) =
  match continuing_edges edgeid idx run with
  | [] => Some c
  | _ => None
  end.
Proof.
  revert idx. induction run as [|de rest IH]; intros idx; simpl; [done|].
  destruct (skipped edgeid idx de); [apply IH | done].
Qed.

Lemma continuing_edge_loop_spec edgeid idx run :
  continuing_edge_loop edgeid idx run None =
  match continuing_edges edgeid idx run with
  | [c] => Some c
  | _ => None
  end.
Proof.
  revert idx. induction run as [|de rest IH]; intros idx; simpl; [done|].
  destruct (skipped edgeid idx de); [apply IH|].
  rewrite continuing_edge_loop_found.
  by destruct (continuing_edges edgeid (N.succ idx) rest).
Qed.

Lemma continuing_edge_count tile edgeid node run :
  node_run tile node = Some run →
  List.length (continuing_edges edgeid (NodeInfo.edge_index node) run) ≠ 1%nat →
  continuing_edge tile edgeid node = Some None.
Proof.
  unfold continuing_edge. intros -> Hn. simpl.
  rewrite continuing_edge_loop_spec.
  destruct (continuing_edges _ _ _) as [|c [|c' l]]; simpl in *; done.
Qed.

Lemma GetShortcut_walk_reaches g n k st st' :
  walk_reaches g n st st' →
  GetShortcut_walk (n + k) g st.1.1 st.1.2 st.2 =
  GetShortcut_walk k g st'.1.1 st'.1.2 st'.2.
Proof.
  induction 1 as [st|n tile edgeid node c [[t' e'] n'] st'' Hc Hs _ IH]; [done|].
  simpl. rewrite Hc. simpl. rewrite Hs. simpl. exact IH.
Qed.

(** C4. [GetShortcut] gives back the id of an edge that is itself a shortcut
    (on a level that has shortcuts); it gives the invalid id on the last
    level of the hierarchy and above; and it gives the invalid id as soon as
    the backward walk stands at a node where the number of continuing edges
    is not one. *)
Theorem GetShortcut_contract (last_level : N) (g : GraphReader) (id : GraphId.t) :
  (∀ fuel tile de,
     GraphId.level id < last_level →
     GetGraphTile g id = Some tile →
     GraphTile.directededge tile (GraphId.id id) = Some de →
     DirectedEdge.is_shortcut de = true →
     GetShortcut last_level fuel g id = Some id)
  ∧ (∀ fuel,
     last_level ≤ GraphId.level id →
     GetShortcut last_level fuel g id = Some GraphId.invalid)
  ∧ (∀ fuel n tile de c0 st0 tile' edgeid node run,
     GraphId.level id < last_level →
     GetGraphTile g id = Some tile →
     GraphTile.directededge tile (GraphId.id id) = Some de →
     DirectedEdge.is_shortcut de = false →
     GetOpposingEdge g id = Some (Some c0) →
     GetShortcut_step g tile c0 = Some (inr st0) →
     walk_reaches g n st0 (tile', edgeid, node) →
     node_run tile' node = Some run →
     List.length (continuing_edges edgeid (NodeInfo.edge_index node) run) ≠ 1%nat →
     (n < fuel)%nat →
     GetShortcut last_level fuel g id = Some GraphId.invalid).
Proof.
  split; [|split].
  - intros fuel tile de Hl Ht Hd Hs. unfold GetShortcut.
    apply N.leb_gt in Hl. rewrite Hl, Ht. simpl. rewrite Hd. simpl.
    by rewrite Hs.
  - intros fuel Hl. unfold GetShortcut. apply N.leb_le in Hl. by rewrite Hl.
  - intros fuel n tile de c0 [[t0 e0] n0] tile' edgeid node run
      Hl Ht Hd Hs Ho Hst Hreach Hrun Hcount Hfuel.
    unfold GetShortcut. apply N.leb_gt in Hl.
    rewrite Hl, Ht. simpl. rewrite Hd. simpl. rewrite Hs, Ho. simpl.
    rewrite Hst. simpl.
    replace fuel with (n + S (fuel - S n))%nat by lia.
    rewrite (GetShortcut_walk_reaches g n _ _ _ Hreach). simpl.
    by rewrite (continuing_edge_count _ _ _ _ Hrun Hcount).
Qed.

Lemma GetShortcut_contract_witness :
  GetShortcut 2 5 (Chain.graph 30) Chain.s = Some Chain.s
  ∧ GetShortcut 2 5 (Chain.graph 30) (GraphId.make 0 2 1) = Some GraphId.invalid
  ∧ GetShortcut 2 5 Fork.graph Fork.e2 = Some GraphId.invalid
  ∧ GetShortcut 2 5 Fork.graph Fork.e0 = Some GraphId.invalid.
Proof.
  split; [|split; [|split]].
  - eapply (proj1 (GetShortcut_contract 2 (Chain.graph 30) Chain.s));
      [reflexivity..].
  - apply (proj1 (proj2 (GetShortcut_contract 2 (Chain.graph 30)
                           (GraphId.make 0 2 1)))).
    vm_compute. discriminate.
  - eapply (proj2 (proj2 (GetShortcut_contract 2 Fork.graph Fork.e2))
              5%nat 1%nat);
      [reflexivity | reflexivity | reflexivity | reflexivity | reflexivity
      | reflexivity
      | eapply walk_pass; [reflexivity | reflexivity | apply walk_here]
      | reflexivity | vm_compute; discriminate | lia].
  - eapply (proj2 (proj2 (GetShortcut_contract 2 Fork.graph Fork.e0))
              5%nat 0%nat);
      [reflexivity | reflexivity | reflexivity | reflexivity | reflexivity
      | reflexivity | apply walk_here | reflexivity
      | vm_compute; discriminate | lia].
Defined.

(** ** The walk of RecoverShortcut *)

Lemma find_same_enough_None b s idx run :
  find_same_enough b s idx run = None ↔ ∀ e, e ∈ run → same_enough b s e = false.
Proof.
  revert idx. induction run as [|e rest IH]; intros idx; simpl.
  - split; [|done]. intros _ e He. by apply elem_of_nil in He.
  - destruct (same_enough b s e) eqn:E.
    + split; [done|]. intros H. specialize (H e (list_elem_of_here _ _)).
      congruence.
    + rewrite IH. split.
      * intros H e' [->|He']%elem_of_cons; [done|by apply H].
      * intros H e' He'. apply H. by apply list_elem_of_further.
Qed.

Lemma find_same_enough_Some b s idx run i e :
  find_same_enough b s idx run = Some (i, e) →
  ∃ j : nat, i = idx + N.of_nat j ∧ run !! j = Some e
             ∧ same_enough b s e = true.
Proof.
  revert idx. induction run as [|e' rest IH]; intros idx; simpl; [done|].
  destruct (same_enough b s e') eqn:E.
  - intros [= <- <-]. exists 0%nat. split; [lia|done].
  - intros (j & -> & Hj & He)%IH. exists (S j). split; [lia|done].
Qed.

Lemma GetDirectedEdges_Some tile n first run :
  GetDirectedEdges tile n = Some (first, run) →
  ∃ ni, GraphTile.node tile n = Some ni
        ∧ first = NodeInfo.edge_index ni
        ∧ node_run tile ni = Some run.
Proof.
  unfold GetDirectedEdges.
  destruct (GraphTile.node tile n) as [ni|]; simpl; [|done].
  destruct (node_run tile ni) as [run'|] eqn:E; simpl; [|done].
  intros [= <- <-]. by exists ni.
Qed.

Lemma node_run_lookup tile ni run (j : nat) e :
  node_run tile ni = Some run → run !! j = Some e →
  GraphTile.directededge tile (NodeInfo.edge_index ni + N.of_nat j) = Some e.
Proof.
  unfold node_run, GraphTile.directededge.
  destruct (_ <? _); [done|]. intros [= <-] H.
  apply lookup_take_Some in H as [H _]. rewrite lookup_drop in H.
  by rewrite N2Nat.inj_add, Nat2N.id.
Qed.

Lemma RecoverShortcut_walk_reaches g s n k st st' :
  recover_reaches g s n st st' →
  RecoverShortcut_walk (n + k) g s st.1.1.1 st.1.1.2 st.1.2 st.2 =
  RecoverShortcut_walk k g s st'.1.1.1 st'.1.1.2 st'.1.2 st'.2.
Proof.
  induction 1 as [st|n [[[c b] acc] es] st' st'' Hpass _ IH]; [done|].
  destruct Hpass as (Hne & tile & first & run & idx & edge
                     & Ht & Hr & Hf & Hle & ->).
  simpl. rewrite bool_decide_eq_false_2 by done.
  rewrite Ht. simpl. rewrite Hr. simpl. rewrite Hf.
  apply N.ltb_ge in Hle. rewrite Hle. exact IH.
Qed.

Lemma RecoverShortcut_of_outcome fuel g sid o :
  RecoverShortcut_outcome fuel g sid = Some o →
  RecoverShortcut fuel g sid
  = Some (match o with Recovered es => es | Bailed _ => [sid] end).
Proof. unfold RecoverShortcut. intros ->. by destruct o. Qed.

(** What the walk answers at a state that it reaches within its fuel. *)
Lemma RecoverShortcut_outcome_at fuel g sid s st0 n c b acc es :
  RecoverShortcut_seed g sid = Some (inr (s, st0)) →
  recover_reaches g s n st0 (c, b, acc, es) →
  (n ≤ fuel)%nat →
  RecoverShortcut_outcome fuel g sid
  = RecoverShortcut_walk (fuel - n) g s c b acc es.
Proof.
  intros Hseed Hreach Hn. unfold RecoverShortcut_outcome. rewrite Hseed.
  simpl. destruct st0 as [[[c0 b0] acc0] es0].
  replace fuel with (n + (fuel - n))%nat at 1 by lia.
  apply (RecoverShortcut_walk_reaches g s n (fuel - n) _ _ Hreach).
Qed.

Lemma walk_meets_bails need (bad : DirectedEdge.t → recover_state → Prop)
    fuel g sid :
  (∀ s c b acc es k, bad s (c, b, acc, es) →
     ∃ why, RecoverShortcut_walk (need + k) g s c b acc es = Some (Bailed why)) →
  walk_meets need bad fuel g sid →
  RecoverShortcut fuel g sid = Some [sid].
Proof.
  intros Hbad (s & st0 & n & [[[c b] acc] es] & Hseed & Hreach & Hn & Hb).
  destruct (Hbad s c b acc es (fuel - n - need)%nat Hb) as [why Hw].
  apply (RecoverShortcut_of_outcome fuel g sid (Bailed why)).
  rewrite (RecoverShortcut_outcome_at fuel g sid s st0 n c b acc es)
    by (done || lia).
  by replace (fuel - n)%nat with (need + (fuel - n - need))%nat by lia.
Qed.

Lemma no_matching_edge_bails g s c b acc es k :
  no_matching_edge g s (c, b, acc, es) →
  ∃ why, RecoverShortcut_walk (1 + k) g s c b acc es = Some (Bailed why).
Proof.
  intros (Hne & tile & first & run & Ht & Hr & Hnone).
  exists NoMatchingEdge. simpl. rewrite bool_decide_eq_false_2 by done.
  rewrite Ht. simpl. rewrite Hr. simpl.
  by rewrite (proj2 (find_same_enough_None b s first run) Hnone).
Qed.

Lemma length_overrun_bails g s c b acc es k :
  length_overrun g s (c, b, acc, es) →
  ∃ why, RecoverShortcut_walk (1 + k) g s c b acc es = Some (Bailed why).
Proof.
  intros (Hne & tile & first & run & idx & edge & Ht & Hr & Hf & Hlt).
  exists LengthOverrun. simpl. rewrite bool_decide_eq_false_2 by done.
  rewrite Ht. simpl. rewrite Hr. simpl. rewrite Hf.
  apply N.ltb_lt in Hlt. by rewrite Hlt.
Qed.

Lemma shorter_path_bails g s c b acc es k :
  final_length N.lt s (c, b, acc, es) →
  ∃ why, RecoverShortcut_walk (0 + k) g s c b acc es = Some (Bailed why).
Proof.
  intros (Heq & Hlt). exists ShorterPath. apply N.ltb_lt in Hlt.
  destruct k; simpl; rewrite bool_decide_eq_true_2 by done; by rewrite Hlt.
Qed.

Lemma no_end_node_bails g s c b acc es k :
  no_end_node g s (c, b, acc, es) →
  ∃ why, RecoverShortcut_walk (1 + k) g s c b acc es = Some (Bailed why).
Proof.
  intros (Hne & Ht). exists NoEndNode. simpl.
  rewrite bool_decide_eq_false_2 by done. by rewrite Ht.
Qed.

(** Every failure of the walk is one of the four, met at a state that the
    walk reaches. *)
Lemma RecoverShortcut_walk_Bailed fuel g s c b acc es why :
  RecoverShortcut_walk fuel g s c b acc es = Some (Bailed why) →
  ∃ n st, recover_reaches g s n (c, b, acc, es) st
    ∧ ((why = NoMatchingEdge ∧ (n + 1 ≤ fuel)%nat ∧ no_matching_edge g s st)
       ∨ (why = LengthOverrun ∧ (n + 1 ≤ fuel)%nat ∧ length_overrun g s st)
       ∨ (why = ShorterPath ∧ (n + 0 ≤ fuel)%nat ∧ final_length N.lt s st)
       ∨ (why = NoEndNode ∧ (n + 1 ≤ fuel)%nat ∧ no_end_node g s st)).
Proof.
  revert c b acc es.
  assert (∀ c b acc es k,
            bool_decide (DirectedEdge.endnode c = DirectedEdge.endnode s) = true →
            (if acc <? DirectedEdge.length s
             then Some (Bailed ShorterPath) else Some (Recovered es))
            = Some (Bailed why) →
            ∃ n st, recover_reaches g s n (c, b, acc, es) st
              ∧ ((why = NoMatchingEdge ∧ (n + 1 ≤ k)%nat ∧ no_matching_edge g s st)
                 ∨ (why = LengthOverrun ∧ (n + 1 ≤ k)%nat ∧ length_overrun g s st)
                 ∨ (why = ShorterPath ∧ (n + 0 ≤ k)%nat ∧ final_length N.lt s st)
                 ∨ (why = NoEndNode ∧ (n + 1 ≤ k)%nat ∧ no_end_node g s st)))
    as Hfinal.
  { intros c b acc es k Heq%bool_decide_eq_true.
    destruct (acc <? _) eqn:E; [|done]. intros [= <-].
    exists 0%nat, (c, b, acc, es). split; [constructor|].
    right; right; left. split; [done|]. split; [lia|].
    split; [done|by apply N.ltb_lt]. }
  induction fuel as [|fuel IH]; intros c b acc es; simpl.
  - destruct (bool_decide _) eqn:Hd; [by apply Hfinal|done].
  - destruct (bool_decide _) eqn:Hd; [by apply Hfinal|].
    apply bool_decide_eq_false in Hd.
    destruct (GetGraphTile g (DirectedEdge.endnode c)) as [tile|] eqn:Ht; simpl.
    2:{ intros [= <-]. exists 0%nat, (c, b, acc, es). split; [constructor|].
        right; right; right. split; [done|]. split; [lia|]. by split. }
    destruct (GetDirectedEdges tile _) as [[first run]|] eqn:Hr; simpl; [|done].
    destruct (find_same_enough b s first run) as [[idx edge]|] eqn:Hf.
    2:{ intros [= <-]. exists 0%nat, (c, b, acc, es). split; [constructor|].
        left. split; [done|]. split; [lia|]. split; [done|].
        exists tile, first, run. split; [done|]. split; [done|].
        by apply (proj1 (find_same_enough_None b s first run)). }
    destruct (_ <? add32 _ _) eqn:E.
    { intros [= <-]. exists 0%nat, (c, b, acc, es). split; [constructor|].
      right; left. split; [done|]. split; [lia|]. split; [done|].
      exists tile, first, run, idx, edge. apply N.ltb_lt in E. done. }
    intros (n & st & Hreach & Hcase)%IH. apply N.ltb_ge in E.
    exists (S n), st. split.
    + eapply recover_more; [|exact Hreach]. split; [done|].
      by exists tile, first, run, idx, edge.
    + destruct Hcase as [(?&?&?)|[(?&?&?)|[(?&?&?)|(?&?&?)]]];
        [left | right; left | right; right; left | right; right; right];
        (split; [done|]); (split; [lia|done]).
Qed.

(** *** The length of the recovered edges *)

Lemma total_length_app g es e tile de n :
  total_length g es = Some n →
  GetGraphTile g e = Some tile →
  GraphTile.directededge tile (GraphId.id e) = Some de →
  total_length g (es ++ [e]) = Some (n + DirectedEdge.length de).
Proof.
  revert n. induction es as [|e' rest IH]; intros n; simpl.
  - intros [= <-] -> . simpl. intros ->. simpl. f_equal. lia.
  - destruct (GetGraphTile g e') as [t'|]; simpl; [|done].
    destruct (GraphTile.directededge t' _) as [d'|]; simpl; [|done].
    destruct (total_length g rest) as [m|] eqn:Hm; simpl; [|done].
    intros [= <-] Ht Hd. rewrite (IH m eq_refl Ht Hd). simpl. f_equal. lia.
Qed.

Lemma GetGraphTile_keyed g e tile i :
  reader_keyed g → GetGraphTile g e = Some tile →
  GetGraphTile g (GraphId.set_id (GraphTile.graphid tile) i) = Some tile.
Proof.
  intros Hk Ht. unfold GetGraphTile in *. simpl.
  by rewrite <- (Hk _ _ Ht).
Qed.

Lemma wrap32_small n : n < 2 ^ 32 → wrap32 n = n.
Proof. apply N.mod_small. Qed.

Lemma directededge_bounded g e tile i de :
  lengths_bounded g → GetGraphTile g e = Some tile →
  GraphTile.directededge tile i = Some de →
  DirectedEdge.length de ≤ kMaxEdgeLength.
Proof. intros Hb Ht Hd. exact (Hb _ _ _ _ Ht Hd). Qed.

(** Once the accumulated length is the true total and within the length of
    the shortcut, a recovery returns edges of exactly that length. *)
Lemma RecoverShortcut_walk_total fuel g s c b acc es es' :
  reader_keyed g → lengths_bounded g →
  DirectedEdge.length s ≤ kMaxEdgeLength →
  total_length g es = Some acc →
  acc ≤ DirectedEdge.length s →
  RecoverShortcut_walk fuel g s c b acc es = Some (Recovered es') →
  total_length g es' = Some (DirectedEdge.length s).
Proof.
  intros Hk Hb Hs. revert c b acc es.
  induction fuel as [|fuel IH]; intros c b acc es Htot Hacc; simpl.
  - case_bool_decide; [|done]. destruct (acc <? _) eqn:E; [done|].
    intros [= <-]. apply N.ltb_ge in E. rewrite Htot. f_equal. lia.
  - case_bool_decide.
    { destruct (acc <? _) eqn:E; [done|].
      intros [= <-]. apply N.ltb_ge in E. rewrite Htot. f_equal. lia. }
    destruct (GetGraphTile g (DirectedEdge.endnode c)) as [tile|] eqn:Ht;
      simpl; [|done].
    destruct (GetDirectedEdges tile _) as [[first run]|] eqn:Hr; simpl; [|done].
    destruct (find_same_enough b s first run) as [[idx edge]|] eqn:Hf; [|done].
    destruct (_ <? add32 _ _) eqn:E; [done|]. apply N.ltb_ge in E.
    apply GetDirectedEdges_Some in Hr as (ni & Hni & -> & Hrun).
    apply find_same_enough_Some in Hf as (j & -> & Hj & _).
    pose proof (node_run_lookup _ _ _ _ _ Hrun Hj) as Hde.
    pose proof (directededge_bounded _ _ _ _ _ Hb Ht Hde) as Hlen.
    assert (add32 acc (DirectedEdge.length edge)
            = acc + DirectedEdge.length edge) as Hadd.
    { apply wrap32_small. unfold kMaxEdgeLength in *. lia. }
    rewrite Hadd in *. apply IH; [|done].
    apply (total_length_app g es _ tile edge acc Htot); [|done].
    by apply (GetGraphTile_keyed g (DirectedEdge.endnode c)).
Qed.

(** A recovery returns the seed edge alone, or edges whose total length is the
    length of the shortcut. *)
Lemma RecoverShortcut_walk_seed fuel g s c b acc e0 tile es' :
  reader_keyed g → lengths_bounded g →
  DirectedEdge.length s ≤ kMaxEdgeLength →
  GetGraphTile g e0 = Some tile →
  GraphTile.directededge tile (GraphId.id e0) = Some c →
  acc = wrap32 (DirectedEdge.length c) →
  RecoverShortcut_walk fuel g s c b acc [e0] = Some (Recovered es') →
  es' = [e0] ∨ total_length g es' = Some (DirectedEdge.length s).
Proof.
  intros Hk Hb Hs Ht0 Hc ->.
  pose proof (directededge_bounded _ _ _ _ _ Hb Ht0 Hc) as Hc0.
  rewrite wrap32_small by (unfold kMaxEdgeLength in *; lia).
  destruct fuel as [|fuel]; simpl.
  - case_bool_decide; [|done]. destruct (_ <? _); [done|].
    intros [= <-]. by left.
  - case_bool_decide.
    { destruct (_ <? _); [done|]. intros [= <-]. by left. }
    destruct (GetGraphTile g (DirectedEdge.endnode c)) as [tile1|] eqn:Ht;
      simpl; [|done].
    destruct (GetDirectedEdges tile1 _) as [[first run]|] eqn:Hr; simpl; [|done].
    destruct (find_same_enough b s first run) as [[idx edge]|] eqn:Hf; [|done].
    destruct (_ <? add32 _ _) eqn:E; [done|]. apply N.ltb_ge in E.
    apply GetDirectedEdges_Some in Hr as (ni & Hni & -> & Hrun).
    apply find_same_enough_Some in Hf as (j & -> & Hj & _).
    pose proof (node_run_lookup _ _ _ _ _ Hrun Hj) as Hde.
    pose proof (directededge_bounded _ _ _ _ _ Hb Ht Hde) as Hlen.
    assert (add32 (DirectedEdge.length c) (DirectedEdge.length edge)
            = DirectedEdge.length c + DirectedEdge.length edge) as Hadd.
    { apply wrap32_small. unfold kMaxEdgeLength in *. lia. }
    rewrite Hadd in *. intros Hw. right.
    eapply RecoverShortcut_walk_total; [done | done | done | | | exact Hw].
    + apply (total_length_app g [e0] _ tile1 edge (DirectedEdge.length c));
        [ | by apply (GetGraphTile_keyed g (DirectedEdge.endnode c)) | done].
      simpl. rewrite Ht0. simpl. rewrite Hc. simpl. f_equal. lia.
    + done.
Qed.

(** *** The seed and the shape of a recovery *)

Lemma find_superseded_Some mask idx run i :
  find_superseded mask idx run = Some i →
  ∃ (j : nat) e, i = idx + N.of_nat j ∧ run !! j = Some e
                 ∧ N.land mask (DirectedEdge.superseded e) ≠ 0.
Proof.
  revert idx. induction run as [|e rest IH]; intros idx; simpl; [done|].
  destruct (N.land mask (DirectedEdge.superseded e) =? 0) eqn:E; simpl.
  - intros (j & e' & -> & Hj & He)%IH. exists (S j), e'. split; [lia|done].
  - intros [= <-]. exists 0%nat, e. apply N.eqb_neq in E. split; [lia|done].
Qed.

Lemma RecoverShortcut_walk_prefix fuel g s c b acc es es' :
  RecoverShortcut_walk fuel g s c b acc es = Some (Recovered es') →
  es `prefix_of` es'.
Proof.
  revert c b acc es. induction fuel as [|fuel IH]; intros c b acc es; simpl.
  - case_bool_decide; [|done]. destruct (_ <? _); [done|]. by intros [= <-].
  - case_bool_decide as Hend.
    { destruct (_ <? _); [done|]. by intros [= <-]. }
    destruct (GetGraphTile g _) as [tile|]; simpl; [|done].
    destruct (GetDirectedEdges tile _) as [[first run]|]; simpl; [|done].
    destruct (find_same_enough b s first run) as [[idx edge]|]; [|done].
    destruct (_ <? add32 _ _); [done|].
    intros Hw%IH. etrans; [|exact Hw]. by apply prefix_app_r.
Qed.

(** What the seed is made of when the walk starts. *)
Lemma RecoverShortcut_seed_inr g sid s st0 :
  RecoverShortcut_seed g sid = Some (inr (s, st0)) →
  ∃ tile c0 b0 idx,
    GetGraphTile g sid = Some tile
    ∧ GraphTile.directededge tile (GraphId.id sid) = Some s
    ∧ GraphTile.directededge tile idx = Some c0
    ∧ N.land (DirectedEdge.shortcut s) (DirectedEdge.superseded c0) ≠ 0
    ∧ st0 = (c0, b0, wrap32 (DirectedEdge.length c0),
             [GraphId.set_id (GraphTile.graphid tile) idx]).
Proof.
  unfold RecoverShortcut_seed.
  destruct (GetGraphTile g sid) as [tile|]; simpl; [|done].
  destruct (GraphTile.directededge tile (GraphId.id sid)) as [s'|] eqn:Hs;
    simpl; [|done].
  destruct (DirectedEdge.is_shortcut s'); simpl; [|done].
  destruct (edge_startnode g sid) as [b0|]; simpl; [|done].
  destruct (GraphId.Is_Valid b0); simpl; [|done].
  destruct (GetDirectedEdges tile _) as [[first run]|] eqn:Hr; simpl; [|done].
  destruct (find_superseded _ first run) as [idx|] eqn:Hf; [|done].
  destruct (GraphTile.directededge tile idx) as [c0|] eqn:Hc; simpl; [|done].
  intros [= <- <-].
  apply GetDirectedEdges_Some in Hr as (ni & _ & -> & Hrun).
  apply find_superseded_Some in Hf as (j & e & -> & Hj & Hland).
  rewrite (node_run_lookup _ _ _ _ _ Hrun Hj) in Hc. injection Hc as <-.
  exists tile, e, b0, (NodeInfo.edge_index ni + N.of_nat j).
  repeat (split; [done|]). split; [|done].
  exact (node_run_lookup _ _ _ _ _ Hrun Hj).
Qed.

Lemma source_failure_bails fuel g sid :
  source_failure fuel g sid → RecoverShortcut fuel g sid = Some [sid].
Proof.
  intros [H|[H|[H|[H|[why H]]]]].
  - eapply walk_meets_bails; [|exact H]. intros. by apply no_matching_edge_bails.
  - eapply walk_meets_bails; [|exact H]. intros. by apply length_overrun_bails.
  - eapply walk_meets_bails; [|exact H]. intros. by apply shorter_path_bails.
  - eapply walk_meets_bails; [|exact H]. intros. by apply no_end_node_bails.
  - apply (RecoverShortcut_of_outcome fuel g sid (Bailed why)).
    unfold RecoverShortcut_outcome. by rewrite H.
Qed.

Lemma Bailed_source_failure fuel g sid why :
  RecoverShortcut_outcome fuel g sid = Some (Bailed why) →
  source_failure fuel g sid.
Proof.
  unfold RecoverShortcut_outcome.
  destruct (RecoverShortcut_seed g sid) as [[why'|[s [[[c0 b0] acc0] es0]]]|]
    eqn:Hseed; simpl; [| |done].
  - intros _. do 4 right. by exists why'.
  - intros (n & st & Hreach & Hcase)%RecoverShortcut_walk_Bailed.
    destruct Hcase as [(_&?&?)|[(_&?&?)|[(_&?&?)|(_&?&?)]]];
      [left | right; left | right; right; left | right; right; right; left];
      by exists s, (c0, b0, acc0, es0), n, st.
Qed.

(** After one pass or more the accumulated length is within the length of
    the shortcut. *)
Lemma recover_reaches_within g s n st st' :
  recover_reaches g s n st st' → n ≠ 0%nat →
  st'.1.2 ≤ DirectedEdge.length s.
Proof.
  induction 1 as [st|n [[[c b] acc] es] st' st'' Hpass Hreach IH]; [done|].
  intros _. destruct n as [|n].
  - inversion Hreach; subst.
    destruct Hpass as (_ & tile & first & run & idx & edge & _ & _ & _ & Hle & ->).
    done.
  - by apply IH.
Qed.

Lemma source_failure_listed fuel g sid :
  source_failure fuel g sid → recover_failure fuel g sid.
Proof.
  intros [H|[H|[H|[H|H]]]].
  - left. by left.
  - left. right. by left.
  - left. right. right.
    destruct H as (s & st0 & n & [[[c b] acc] es] & Hseed & Hreach & Hn & He & Hlt).
    exists s, st0, n, (c, b, acc, es). repeat (split; [done|]). lia.
  - right. by left.
  - right. by right.
Qed.

Lemma recover_failure_source fuel g sid :
  seed_within g sid → recover_failure fuel g sid → source_failure fuel g sid.
Proof.
  intros Hin [[H|[H|H]]|[H|H]].
  - by left.
  - right. by left.
  - right. right. left.
    destruct H as (s & st0 & n & [[[c b] acc] es] & Hseed & Hreach & Hn & He & Hne).
    exists s, st0, n, (c, b, acc, es). repeat (split; [done|]).
    assert (acc ≤ DirectedEdge.length s); [|lia].
    destruct n as [|n].
    + inversion Hreach; subst. by apply (Hin s c b acc es).
    + by apply (recover_reaches_within g s (S n) st0 (c, b, acc, es)).
  - do 3 right. by left.
  - by do 4 right.
Qed.

(** C2 (amended). When the superseded first edge does not alone reach the
    end node of the shortcut with more than its length, [RecoverShortcut]
    returns the shortcut id alone exactly when the walk meets no matching
    edge, an overrun of the length or a final length other than the length
    of the shortcut, or meets an end node whose tile does not resolve, or
    the function returns before the walk; and every other list it returns
    is made of edges whose lengths add up to the length of the shortcut. *)
Theorem RecoverShortcut_contract (fuel : nat) (g : GraphReader)
    (shortcut_id : GraphId.t) tile shortcut :
  GetGraphTile g shortcut_id = Some tile →
  GraphTile.directededge tile (GraphId.id shortcut_id) = Some shortcut →
  seed_within g shortcut_id →
  (recover_failure fuel g shortcut_id →
     RecoverShortcut fuel g shortcut_id = Some [shortcut_id])
  ∧ (N.land (DirectedEdge.shortcut shortcut) (DirectedEdge.superseded shortcut) = 0 →
     RecoverShortcut fuel g shortcut_id = Some [shortcut_id] →
     recover_failure fuel g shortcut_id)
  ∧ (∀ es, reader_keyed g → lengths_bounded g →
       RecoverShortcut fuel g shortcut_id = Some es →
       es ≠ [shortcut_id] →
       total_length g es = Some (DirectedEdge.length shortcut)).
Proof.
  intros Ht Hs Hin. split; [|split].
  - intros H. by apply source_failure_bails, recover_failure_source.
  - intros Hsup Hres. apply source_failure_listed. unfold RecoverShortcut in Hres.
    destruct (RecoverShortcut_outcome fuel g shortcut_id) as [[es|why]|] eqn:Ho;
      simpl in Hres; [| by eapply Bailed_source_failure | done].
    exfalso. injection Hres as ->. unfold RecoverShortcut_outcome in Ho.
    destruct (RecoverShortcut_seed g shortcut_id)
      as [[why'|[s [[[c0 b0] acc0] es0]]]|] eqn:Hseed; simpl in Ho; [done| |done].
    apply RecoverShortcut_seed_inr in Hseed
      as (tile' & c0' & b0' & idx & Ht' & Hs' & Hc & Hland & [= -> -> -> ->]).
    apply RecoverShortcut_walk_prefix in Ho as [k Hk].
    injection Hk as Hk _. rewrite Ht in Ht'. injection Ht' as <-.
    rewrite Hs in Hs'. injection Hs' as <-.
    apply (f_equal GraphId.id) in Hk. simpl in Hk. rewrite <- Hk, Hs in Hc.
    by injection Hc as <-.
  - intros es Hk Hb Hres Hne. unfold RecoverShortcut in Hres.
    destruct (RecoverShortcut_outcome fuel g shortcut_id) as [[es'|why]|] eqn:Ho;
      simpl in Hres; [|congruence|done].
    injection Hres as ->. unfold RecoverShortcut_outcome in Ho.
    destruct (RecoverShortcut_seed g shortcut_id)
      as [[why'|[s [[[c0 b0] acc0] es0]]]|] eqn:Hseed; simpl in Ho; [done| |done].
    pose proof (Hin _ _ _ _ _ Hseed) as Hwithin.
    apply RecoverShortcut_seed_inr in Hseed
      as (tile' & c0' & b0' & idx & Ht' & Hs' & Hc & Hland & [= -> -> -> ->]).
    rewrite Ht in Ht'. injection Ht' as <-.
    rewrite Hs in Hs'. injection Hs' as <-.
    pose proof (directededge_bounded _ _ _ _ _ Hb Ht Hs) as Hslen.
    pose proof (directededge_bounded _ _ _ _ _ Hb Ht Hc) as Hclen.
    pose proof (GetGraphTile_keyed g shortcut_id tile idx Hk Ht) as Hkt.
    pose proof Ho as Ho'.
    eapply RecoverShortcut_walk_seed in Ho' as [->|Htot];
      [ | done | done | done | done | exact Hkt | done | done ].
    (* the first edge alone *)
    rewrite wrap32_small in Ho, Hwithin by (unfold kMaxEdgeLength in *; lia).
    simpl. rewrite Hkt. simpl. rewrite Hc. simpl. f_equal.
    destruct fuel; simpl in Ho;
      (case_bool_decide as Hend;
       [ destruct (_ <? _) eqn:E; [done|]; apply N.ltb_ge in E;
         specialize (Hwithin Hend); lia
       | ]).
    * done.
    * exfalso.
      destruct (GetGraphTile g (DirectedEdge.endnode c0')) as [t1|]; [|done].
      simpl in Ho.
      destruct (GetDirectedEdges t1 _) as [[f1 r1]|]; [|done]. simpl in Ho.
      destruct (find_same_enough _ _ f1 r1) as [[i1 e1]|]; [|done].
      destruct (_ <? add32 _ _); [done|].
      apply RecoverShortcut_walk_prefix in Ho as [more Hmore].
      by destruct more.
Qed.

Lemma reader_keyed_singleton key tl :
  key = (GraphId.level (GraphTile.graphid tl), GraphId.tileid (GraphTile.graphid tl)) →
  reader_keyed (mkGraphReader {[ key := tl ]}).
Proof.
  intros -> k t Hk. simpl in Hk.
  by apply lookup_singleton_Some in Hk as [<- <-].
Qed.

Lemma lengths_bounded_singleton key tl :
  Forall (λ de, DirectedEdge.length de ≤ kMaxEdgeLength)
    (GraphTile.directededges tl) →
  lengths_bounded (mkGraphReader {[ key := tl ]}).
Proof.
  intros H k t i de Hk Hi. simpl in Hk.
  apply lookup_singleton_Some in Hk as [_ <-].
  by apply (proj1 (Forall_lookup _ _) H i de).
Qed.

Lemma Chain_reader_keyed spd : reader_keyed (Chain.graph spd).
Proof. by apply reader_keyed_singleton. Qed.

Lemma Chain_lengths_bounded spd : lengths_bounded (Chain.graph spd).
Proof.
  apply lengths_bounded_singleton. simpl.
  repeat (apply Forall_cons; split; [vm_compute; discriminate|]).
  apply Forall_nil_2.
Qed.

Lemma Chain_seed_within : seed_within (Chain.graph 30) Chain.s.
Proof.
  intros s c b acc es Hseed Hend. vm_compute in Hseed.
  injection Hseed as <- <- <- <- <-. discriminate Hend.
Qed.

Lemma RecoverShortcut_contract_witness :
  total_length (Chain.graph 30) [Chain.e0; Chain.e1; Chain.e2] = Some 600.
Proof.
  apply (proj2 (proj2 (RecoverShortcut_contract 5 (Chain.graph 30) Chain.s
                         (Chain.tile 30) (Chain.short 3 0 600 1 30)
                         eq_refl eq_refl Chain_seed_within))
           [Chain.e0; Chain.e1; Chain.e2]
           (Chain_reader_keyed 30) (Chain_lengths_bounded 30)).
  - reflexivity.
  - discriminate.
Defined.

(** C2, as the specification words it, fails: with no superseded edge at its
    begin node the shortcut comes back alone although the walk never started,
    so that none of the three listed failures occurred. *)
Lemma RecoverShortcut_bails_before_walk :
  RecoverShortcut 5 Unmarked.graph Chain.s = Some [Chain.s]
  ∧ ¬ listed_failure 5 Unmarked.graph Chain.s.
Proof.
  split; [reflexivity|].
  intros [H|[H|H]]; destruct H as (s & st0 & n & st & Hseed & _);
    vm_compute in Hseed; discriminate.
Qed.

(** A single edge longer than its shortcut is recovered all the same: the
    length is compared inside the loop only, and the loop is not entered
    when the first edge ends where the shortcut ends. *)
Lemma RecoverShortcut_single_overlong :
  RecoverShortcut 5 Single.graph Chain.s = Some [Chain.e0]
  ∧ total_length Single.graph [Chain.e0] = Some 10
  ∧ (DirectedEdge.length <$> GraphTile.directededge Single.tile 0) = Some 5.
Proof. split; [reflexivity|]. split; reflexivity. Qed.

(** ** Speed and the recovery of shortcuts *)

Lemma same_enough_set_speed b s e x y :
  same_enough b (DirectedEdge.set_speed x s) (DirectedEdge.set_speed y e)
  = same_enough b s e.
Proof. reflexivity. Qed.

Lemma find_same_enough_set_speed b s idx run x y :
  find_same_enough b (DirectedEdge.set_speed x s) idx
    (DirectedEdge.set_speed y <$> run)
  = prod_map id (DirectedEdge.set_speed y) <$> find_same_enough b s idx run.
Proof.
  revert idx. induction run as [|e rest IH]; intros idx; simpl; [done|].
  rewrite same_enough_set_speed. destruct (same_enough b s e); [done|apply IH].
Qed.

Lemma find_superseded_set_speed mask idx run y :
  find_superseded mask idx (DirectedEdge.set_speed y <$> run)
  = find_superseded mask idx run.
Proof.
  revert idx. induction run as [|e rest IH]; intros idx; simpl; [done|].
  destruct (negb _); [done|apply IH].
Qed.

Lemma GetGraphTile_forget_speed g e :
  GetGraphTile (forget_speed g) e = forget_speed_tile <$> GetGraphTile g e.
Proof. unfold GetGraphTile, forget_speed. simpl. apply lookup_fmap. Qed.

Lemma directededge_forget_speed tl i :
  GraphTile.directededge (forget_speed_tile tl) i
  = DirectedEdge.set_speed 0 <$> GraphTile.directededge tl i.
Proof. unfold GraphTile.directededge. simpl. apply list_lookup_fmap. Qed.

Lemma GetDirectedEdges_forget_speed tl n :
  GetDirectedEdges (forget_speed_tile tl) n
  = prod_map id (fmap (M:=list) (DirectedEdge.set_speed 0))
      <$> GetDirectedEdges tl n.
Proof.
  unfold GetDirectedEdges.
  change (GraphTile.node (forget_speed_tile tl) n) with (GraphTile.node tl n).
  destruct (GraphTile.node tl n) as [ni|]; simpl; [|done].
  unfold node_run. simpl.
  rewrite length_fmap. destruct (_ <? _); simpl; [done|].
  by rewrite fmap_take, fmap_drop.
Qed.

Lemma GetOpposingEdgeId_forget_speed g e :
  GetOpposingEdgeId (forget_speed g) e
  = prod_map id (fmap (M:=option) forget_speed_tile) <$> GetOpposingEdgeId g e.
Proof.
  unfold GetOpposingEdgeId. rewrite GetGraphTile_forget_speed.
  destruct (GetGraphTile g e) as [tile|]; simpl; [|done].
  rewrite directededge_forget_speed.
  destruct (GraphTile.directededge tile _) as [de|]; simpl; [|done].
  change (DirectedEdge.IsTransitLine (DirectedEdge.set_speed 0 de))
    with (DirectedEdge.IsTransitLine de).
  destruct (DirectedEdge.IsTransitLine de); [done|].
  rewrite GetGraphTile_forget_speed.
  destruct (GetGraphTile g (DirectedEdge.endnode de)) as [tile'|]; simpl; [|done].
  change (GraphTile.node (forget_speed_tile tile')) with (GraphTile.node tile').
  by destruct (GraphTile.node tile' _).
Qed.

Lemma edge_startnode_forget_speed g e :
  edge_startnode (forget_speed g) e = edge_startnode g e.
Proof.
  unfold edge_startnode. rewrite GetOpposingEdgeId_forget_speed.
  destruct (GetOpposingEdgeId g e) as [[opp tl]|]; simpl; [|done].
  destruct (GraphId.Is_Valid opp); [|done].
  unfold edge_endnode. rewrite GetGraphTile_forget_speed.
  destruct (GetGraphTile g opp) as [tile|]; simpl; [|done].
  rewrite directededge_forget_speed.
  by destruct (GraphTile.directededge tile _).
Qed.

Lemma RecoverShortcut_walk_forget_speed fuel g s c b acc es :
  RecoverShortcut_walk fuel (forget_speed g) (DirectedEdge.set_speed 0 s)
    (DirectedEdge.set_speed 0 c) b acc es
  = RecoverShortcut_walk fuel g s c b acc es.
Proof.
  revert c b acc es. induction fuel as [|fuel IH]; intros c b acc es; simpl.
  - done.
  - destruct (bool_decide _); [done|].
    rewrite GetGraphTile_forget_speed.
    destruct (GetGraphTile g (DirectedEdge.endnode c)) as [tile|]; simpl; [|done].
    rewrite GetDirectedEdges_forget_speed.
    destruct (GetDirectedEdges tile _) as [[first run]|]; simpl; [|done].
    rewrite find_same_enough_set_speed.
    destruct (find_same_enough b s first run) as [[idx edge]|]; simpl; [|done].
    destruct (_ <? _); [done|]. apply IH.
Qed.

Lemma RecoverShortcut_outcome_forget_speed fuel g sid :
  RecoverShortcut_outcome fuel (forget_speed g) sid
  = RecoverShortcut_outcome fuel g sid.
Proof.
  unfold RecoverShortcut_outcome, RecoverShortcut_seed.
  rewrite GetGraphTile_forget_speed.
  destruct (GetGraphTile g sid) as [tile|]; simpl; [|done].
  rewrite directededge_forget_speed.
  destruct (GraphTile.directededge tile (GraphId.id sid)) as [s|]; simpl; [|done].
  change (DirectedEdge.is_shortcut (DirectedEdge.set_speed 0 s))
    with (DirectedEdge.is_shortcut s).
  destruct (DirectedEdge.is_shortcut s); simpl; [|done].
  rewrite edge_startnode_forget_speed.
  destruct (edge_startnode g sid) as [b|]; simpl; [|done].
  destruct (GraphId.Is_Valid b); simpl; [|done].
  rewrite GetDirectedEdges_forget_speed.
  destruct (GetDirectedEdges tile _) as [[first run]|]; simpl; [|done].
  rewrite find_superseded_set_speed.
  destruct (find_superseded _ first run) as [idx|]; [|done].
  rewrite directededge_forget_speed.
  destruct (GraphTile.directededge tile _) as [c|]; simpl; [|done].
  apply RecoverShortcut_walk_forget_speed.
Qed.

(** C9. Two readers whose graphs differ only in the speeds of their edges
    recover the same edges from the same shortcut id. *)
Theorem RecoverShortcut_speed_independent (fuel : nat) (g1 g2 : GraphReader)
    (shortcut_id : GraphId.t) :
  same_but_speed g1 g2 →
  RecoverShortcut fuel g1 shortcut_id = RecoverShortcut fuel g2 shortcut_id.
Proof.
  intros H. unfold RecoverShortcut.
  rewrite <- (RecoverShortcut_outcome_forget_speed fuel g1).
  rewrite <- (RecoverShortcut_outcome_forget_speed fuel g2).
  by rewrite H.
Qed.

Lemma RecoverShortcut_speed_independent_witness :
  RecoverShortcut 5 (Chain.graph 30) Chain.s
  = RecoverShortcut 5 (Chain.graph 90) Chain.s.
Proof.
  apply (RecoverShortcut_speed_independent 5 (Chain.graph 30) (Chain.graph 90)).
  unfold same_but_speed, forget_speed, Chain.graph. simpl.
  by rewrite !map_fmap_singleton.
Defined.

(** ** Chains under a shortcut *)

Lemma skipped_split eid idx de :
  skipped eid idx de = (idx =? GraphId.id eid) || never_continues de.
Proof.
  unfold skipped, never_continues, connection_use.
  by destruct (idx =? _), (DirectedEdge.is_shortcut de),
    (bool_decide (_ = kTransitConnection)),
    (bool_decide (_ = kEgressConnection)).
Qed.

Lemma continuing_edges_none eid idx run :
  (∀ (j : nat) de, run !! j = Some de → skipped eid (idx + N.of_nat j) de = true) →
  continuing_edges eid idx run = [].
Proof.
  revert idx. induction run as [|de rest IH]; intros idx H; simpl; [done|].
  pose proof (H 0%nat de eq_refl) as H0. rewrite N.add_0_r in H0. rewrite H0.
  apply IH. intros j d Hj. specialize (H (S j) d Hj).
  by replace (N.succ idx + N.of_nat j) with (idx + N.of_nat (S j)) by lia.
Qed.

Lemma continuing_edges_only eid idx run (k : nat) o :
  run !! k = Some o →
  skipped eid (idx + N.of_nat k) o = false →
  (∀ (j : nat) de, run !! j = Some de → j ≠ k →
     skipped eid (idx + N.of_nat j) de = true) →
  continuing_edges eid idx run = [o].
Proof.
  revert idx k. induction run as [|de rest IH]; intros idx k Hk Ho H; [done|].
  simpl. destruct k as [|k].
  - injection Hk as ->. rewrite N.add_0_r in Ho. rewrite Ho. f_equal.
    apply continuing_edges_none. intros j d Hj.
    replace (N.succ idx + N.of_nat j) with (idx + N.of_nat (S j)) by lia.
    by apply H.
  - pose proof (H 0%nat de eq_refl) as H0. rewrite N.add_0_r in H0.
    rewrite H0 by done. apply (IH (N.succ idx) k Hk).
    + by replace (N.succ idx + N.of_nat k) with (idx + N.of_nat (S k)) by lia.
    + intros j d Hj Hne.
      replace (N.succ idx + N.of_nat j) with (idx + N.of_nat (S j)) by lia.
      apply H; [done|lia].
Qed.

Lemma find_same_enough_at b s idx run (k : nat) e :
  run !! k = Some e →
  same_enough b s e = true →
  (∀ (j : nat) de, run !! j = Some de → (j < k)%nat → same_enough b s de = false) →
  find_same_enough b s idx run = Some (idx + N.of_nat k, e).
Proof.
  revert idx k. induction run as [|de rest IH]; intros idx k Hk He H; [done|].
  simpl. destruct k as [|k].
  - injection Hk as ->. rewrite He. f_equal. f_equal. lia.
  - rewrite (H 0%nat de eq_refl) by lia.
    rewrite (IH (N.succ idx) k Hk He).
    + f_equal. f_equal. lia.
    + intros j d Hj Hlt. apply (H (S j) d Hj). lia.
Qed.

Lemma find_superseded_at mask idx run (k : nat) e :
  run !! k = Some e →
  N.land mask (DirectedEdge.superseded e) ≠ 0 →
  (∀ (j : nat) de, run !! j = Some de → (j < k)%nat →
     N.land mask (DirectedEdge.superseded de) = 0) →
  find_superseded mask idx run = Some (idx + N.of_nat k).
Proof.
  revert idx k. induction run as [|de rest IH]; intros idx k Hk He H; [done|].
  simpl. destruct k as [|k].
  - injection Hk as ->. apply N.eqb_neq in He. rewrite He. simpl.
    f_equal. lia.
  - rewrite (H 0%nat de eq_refl) by lia. simpl.
    rewrite (IH (N.succ idx) k Hk He).
    + f_equal. lia.
    + intros j d Hj Hlt. apply (H (S j) d Hj). lia.
Qed.

Lemma same_enough_true b s e :
  b ≠ DirectedEdge.endnode e →
  DirectedEdge.is_shortcut e = false →
  attribute_identical s e →
  same_enough b s e = true.
Proof.
  intros Hb Hs (Ha & H1 & H2 & H3 & H4 & H5 & H6 & H7 & H8 & H9).
  unfold same_enough. rewrite Hs, H1, H2, H3, H4, H5, H6, H7, H8, H9.
  apply N.eqb_neq in Ha. rewrite Ha.
  rewrite !N.eqb_refl, !bool_decide_eq_true_2 by done. done.
Qed.

Lemma same_enough_back b s e :
  DirectedEdge.endnode e = b → same_enough b s e = false.
Proof.
  intros <-. unfold same_enough. by rewrite bool_decide_eq_false_2 by tauto.
Qed.

Lemma same_enough_never_continues b s e :
  connection_use (DirectedEdge.use s) = false →
  never_continues e = true →
  same_enough b s e = false.
Proof.
  intros Hs He. unfold same_enough, never_continues in *.
  destruct (bool_decide (b ≠ _)); simpl; [|done].
  destruct (DirectedEdge.is_shortcut e); simpl in *; [done|].
  destruct (negb _); simpl; [|done].
  destruct (bool_decide (DirectedEdge.sign e = _)); simpl; [|done].
  rewrite bool_decide_eq_false_2; [done|].
  intros Heq. rewrite Heq in He. congruence.
Qed.

(** *** What a hop gives *)

Section hop_facts.
Context {last_level : N} {g : GraphReader} {shortcut : DirectedEdge.t}.
Context {h : hop} (Hok : hop_ok last_level g shortcut h).

Lemma hop_edge : GraphTile.directededge (h_tile h) (h_idx h) = Some (h_de h).
Proof. exact (node_run_lookup _ _ _ _ _ (ok_run _ _ _ _ Hok) (ok_pos _ _ _ _ Hok)). Qed.

Lemma hop_id_tile : GetGraphTile g (hop_id h) = Some (h_tile h).
Proof. unfold hop_id. rewrite GetGraphTile_set_id. apply Hok. Qed.

Lemma hop_not_shortcut : DirectedEdge.is_shortcut (h_de h) = false.
Proof.
  pose proof (ok_base _ _ _ _ Hok) as H. unfold never_continues in H.
  by apply orb_false_iff in H as [? _].
Qed.

Lemma hop_header_id i :
  GraphId.set_id (GraphTile.graphid (h_tile h)) i = GraphId.set_id (h_from h) i.
Proof. by rewrite (ok_header _ _ _ _ Hok). Qed.

Lemma hop_valid (hl : last_level ≤ 7) i :
  GraphId.Is_Valid (GraphId.set_id (h_to h) i) = true.
Proof.
  apply bool_decide_eq_true_2. intros Heq.
  apply (f_equal GraphId.level) in Heq. simpl in Heq.
  pose proof (ok_tolevel _ _ _ _ Hok). lia.
Qed.

Lemma hop_opposing (hl : last_level ≤ 7) :
  GetOpposingEdge g (hop_id h) = Some (Some (h_opp h)).
Proof.
  unfold GetOpposingEdge, GetOpposingEdgeId.
  rewrite hop_id_tile. simpl. rewrite hop_edge. simpl.
  rewrite (ok_road _ _ _ _ Hok).
  change (DirectedEdge.endnode (h_de h)) with (h_to h).
  rewrite (ok_totile _ _ _ _ Hok). simpl.
  rewrite (ok_tonode _ _ _ _ Hok). simpl.
  rewrite (hop_valid hl). simpl.
  fold (h_oidx h). by rewrite (ok_opp _ _ _ _ Hok).
Qed.

(** The pass of the backward walk that arrives over the opposing edge. *)
Lemma hop_step tile :
  (DirectedEdge.leaves_tile (h_opp h) = false → tile = h_tile h) →
  GetShortcut_step g tile (h_opp h)
  = Some (if DirectedEdge.superseded (h_de h) =? 0
          then inr (h_tile h, hop_id h, h_node h)
          else inl (GraphId.set_id (h_from h)
                      (add32 (NodeInfo.edge_index (h_node h))
                             (sub32 (DirectedEdge.superseded (h_de h)) 1)))).
Proof.
  intros Htile. unfold GetShortcut_step.
  rewrite (ok_opp_end _ _ _ _ Hok).
  assert ((if DirectedEdge.leaves_tile (h_opp h)
           then GetGraphTile g (GraphId.Tile_Base (h_from h))
           else Some tile) = Some (h_tile h)) as ->.
  { destruct (DirectedEdge.leaves_tile (h_opp h)).
    - change (GetGraphTile g (GraphId.Tile_Base (h_from h)))
        with (GetGraphTile g (h_from h)). apply Hok.
    - by rewrite Htile. }
  simpl. rewrite (ok_node _ _ _ _ Hok). simpl.
  rewrite (ok_opp_idx _ _ _ _ Hok), hop_edge. simpl.
  by destruct (DirectedEdge.superseded (h_de h) =? 0).
Qed.
End hop_facts.

Lemma GetDirectedEdges_of_run tile n ni run :
  GraphTile.node tile n = Some ni → node_run tile ni = Some run →
  GetDirectedEdges tile n = Some (NodeInfo.edge_index ni, run).
Proof.
  unfold GetDirectedEdges. intros -> Hrun. simpl. by rewrite Hrun.
Qed.

Lemma set_id_id (x : GraphId.t) : GraphId.set_id x (GraphId.id x) = x.
Proof. by destruct x. Qed.

Lemma Is_Valid_level (x : GraphId.t) :
  GraphId.level x < 7 → GraphId.Is_Valid x = true.
Proof.
  intros Hl. apply bool_decide_eq_true_2. intros Heq.
  apply (f_equal GraphId.level) in Heq. simpl in Heq. lia.
Qed.

Lemma chain_links_lookup shortcut h rest (k : nat) a b :
  chain_links shortcut h rest →
  (h :: rest) !! k = Some a → (h :: rest) !! S k = Some b →
  hop_link a b.
Proof.
  revert h k. induction rest as [|h' rest IH]; intros h k Hl Ha Hb.
  - by destruct k.
  - destruct Hl as (_ & Hlink & Hl). destruct k as [|k].
    + simpl in Ha, Hb. by injection Ha as <-; injection Hb as <-.
    + by apply (IH h' k).
Qed.

(** *** The forward walk along a chain *)

Section chain_walks.
Context {last_level : N} {g : GraphReader} {s : GraphId.t}
        {shortcut : DirectedEdge.t}.

(** The edge that the forward walk takes at the node between two hops. *)
Lemma link_same_enough h h' :
  connection_use (DirectedEdge.use shortcut) = false →
  hop_ok last_level g shortcut h → hop_ok last_level g shortcut h' →
  hop_link h h' →
  find_same_enough (h_from h) shortcut (NodeInfo.edge_index (h_node h'))
    (h_run h') = Some (h_idx h', h_de h').
Proof.
  intros Huse Hok Hok' Hlink.
  apply find_same_enough_at; [apply Hok'| |].
  - apply same_enough_true; [|by apply (hop_not_shortcut Hok')|apply Hok'].
    intros Heq. by apply (lk_onward _ _ Hlink).
  - intros j de Hj Hlt.
    destruct (lk_opp _ _ Hlink) as (jo & Hjo & Hopp).
    destruct (decide (j = jo)) as [->|Hne].
    + rewrite Hopp in Hj. injection Hj as <-.
      apply same_enough_back, Hok.
    + apply same_enough_never_continues; [done|].
      apply (lk_only _ _ Hlink j de Hj); lia.
Qed.

Lemma recover_chain h rest fuel acc es :
  connection_use (DirectedEdge.use shortcut) = false →
  Forall (hop_ok last_level g shortcut) (h :: rest) →
  chain_links shortcut h rest →
  acc + chain_length rest = DirectedEdge.length shortcut →
  DirectedEdge.length shortcut < 2 ^ 32 →
  (List.length rest ≤ fuel)%nat →
  RecoverShortcut_walk fuel g shortcut (h_de h) (h_from h) acc es
  = Some (Recovered (es ++ (hop_id <$> rest))).
Proof.
  intros Huse. revert h fuel acc es.
  induction rest as [|h' rest IH]; intros h fuel acc es Hoks Hl Hsum Hfit Hfuel.
  - simpl in Hl, Hsum. rewrite app_nil_r.
    assert ((acc <? DirectedEdge.length shortcut) = false) as Hlt
      by (apply N.ltb_ge; lia).
    destruct fuel; simpl; change (DirectedEdge.endnode (h_de h)) with (h_to h);
      rewrite bool_decide_eq_true_2 by done; by rewrite Hlt.
  - destruct Hl as (Hne & Hlink & Hl).
    apply Forall_cons in Hoks as [Hok Hoks].
    pose proof Hoks as [Hok' _]%Forall_cons.
    destruct fuel as [|fuel]; [simpl in Hfuel; lia|].
    simpl in Hsum, Hfuel. simpl.
    change (DirectedEdge.endnode (h_de h)) with (h_to h).
    rewrite bool_decide_eq_false_2 by done.
    rewrite <- (lk_node _ _ Hlink), (ok_tile _ _ _ _ Hok'). simpl.
    rewrite (GetDirectedEdges_of_run _ _ _ _ (ok_node _ _ _ _ Hok')
               (ok_run _ _ _ _ Hok')). simpl.
    rewrite (link_same_enough h h') by done.
    assert (add32 acc (DirectedEdge.length (h_de h'))
            = acc + DirectedEdge.length (h_de h')) as ->
      by (apply wrap32_small; lia).
    assert ((DirectedEdge.length shortcut
             <? acc + DirectedEdge.length (h_de h')) = false) as ->
      by (apply N.ltb_ge; lia).
    rewrite !(hop_header_id Hok'), set_id_id.
    rewrite (IH h' fuel) by (done || lia).
    by rewrite <- app_assoc.
Qed.

Lemma chain_head_mark h :
  chain_head last_level g s shortcut h → DirectedEdge.superseded (h_de h) ≠ 0.
Proof.
  intros Hhd Hz. apply (hd_mask _ _ _ _ _ Hhd). rewrite Hz. apply N.land_0_r.
Qed.

Lemma chain_head_tile h :
  chain_head last_level g s shortcut h →
  hop_ok last_level g shortcut h →
  GetGraphTile g s = Some (h_tile h).
Proof.
  intros Hhd Hok. destruct (hd_leaves _ _ _ _ _ Hhd) as (j & _ & ->).
  rewrite GetGraphTile_set_id. apply Hok.
Qed.

Lemma chain_head_edge h :
  chain_head last_level g s shortcut h →
  hop_ok last_level g shortcut h →
  GraphTile.directededge (h_tile h) (GraphId.id s) = Some shortcut.
Proof.
  intros Hhd Hok. destruct (hd_leaves _ _ _ _ _ Hhd) as (j & Hj & ->).
  exact (node_run_lookup _ _ _ _ _ (ok_run _ _ _ _ Hok) Hj).
Qed.

Lemma chain_startnode h :
  chain_head last_level g s shortcut h →
  hop_ok last_level g shortcut h →
  GetGraphTile g s = Some (h_tile h)
  ∧ edge_startnode g s = Some (h_from h)
  ∧ GraphId.Is_Valid (h_from h) = true.
Proof.
  intros Hhd Hok.
  pose proof (chain_head_tile h Hhd Hok) as Ht.
  split; [done|]. split.
  - destruct (hd_back _ _ _ _ _ Hhd) as (tile & ni & opp & Ht' & Hn & Ho & He).
    unfold edge_startnode, GetOpposingEdgeId. rewrite Ht. simpl.
    rewrite (chain_head_edge h Hhd Hok). simpl.
    rewrite (hd_road _ _ _ _ _ Hhd), Ht'. simpl. rewrite Hn. simpl.
    rewrite Is_Valid_level.
    + unfold edge_endnode. rewrite GetGraphTile_set_id, Ht'. simpl.
      rewrite Ho. simpl. by rewrite He.
    + simpl. pose proof (hd_tolevel _ _ _ _ _ Hhd).
      pose proof (hd_levels _ _ _ _ _ Hhd). lia.
  - apply Is_Valid_level. pose proof (ok_level _ _ _ _ Hok).
    pose proof (hd_levels _ _ _ _ _ Hhd). lia.
Qed.

Lemma RecoverShortcut_chain h rest fuel :
  chain_wf last_level g s shortcut h rest →
  (List.length rest ≤ fuel)%nat →
  RecoverShortcut fuel g s = Some (hop_id <$> h :: rest).
Proof.
  intros [Hhd Hoks Hl Hsum Hfit] Hfuel.
  pose proof Hoks as [Hok _]%Forall_cons.
  destruct (chain_startnode h Hhd Hok) as (Ht & Hstart & Hvalid).
  apply (RecoverShortcut_of_outcome fuel g s (Recovered (hop_id <$> h :: rest))).
  unfold RecoverShortcut_outcome, RecoverShortcut_seed.
  rewrite Ht. simpl. rewrite (chain_head_edge h Hhd Hok). simpl.
  rewrite (hd_shortcut _ _ _ _ _ Hhd). simpl.
  rewrite Hstart. simpl. rewrite Hvalid. simpl.
  rewrite (GetDirectedEdges_of_run _ _ _ _ (ok_node _ _ _ _ Hok)
             (ok_run _ _ _ _ Hok)). simpl.
  rewrite (find_superseded_at _ _ _ (h_pos h) (h_de h));
    [|apply Hok|apply Hhd|apply Hhd].
  fold (h_idx h). rewrite (hop_edge Hok). simpl.
  rewrite (hop_header_id Hok). fold (hop_id h).
  simpl in Hsum.
  rewrite wrap32_small by lia.
  by rewrite (recover_chain h rest fuel) by (done || apply Hhd).
Qed.

(** *** The backward walk along a chain *)

Lemma link_continuing_edge h h' :
  hop_ok last_level g shortcut h → hop_ok last_level g shortcut h' →
  hop_link h h' →
  continuing_edge (h_tile h') (hop_id h') (h_node h') = Some (Some (h_opp h)).
Proof.
  intros Hok Hok' Hlink.
  destruct (lk_opp _ _ Hlink) as (jo & Hjo & Hopp).
  assert (jo ≠ h_pos h') as Hdiff.
  { intros ->. rewrite (ok_pos _ _ _ _ Hok') in Hopp. injection Hopp as Heq.
    apply (lk_onward _ _ Hlink). unfold h_to. rewrite Heq. apply Hok. }
  unfold continuing_edge. rewrite (ok_run _ _ _ _ Hok'). simpl.
  rewrite continuing_edge_loop_spec.
  rewrite (continuing_edges_only _ _ _ jo (h_opp h)); [done|done| |].
  - rewrite skipped_split, (ok_opp_base _ _ _ _ Hok), orb_false_r.
    apply N.eqb_neq. simpl. unfold h_idx. lia.
  - intros j de Hj Hne. rewrite skipped_split.
    destruct (decide (j = h_pos h')) as [->|Hne'].
    + simpl. unfold h_idx. by rewrite N.eqb_refl.
    + rewrite (lk_only _ _ Hlink j de Hj) by (done || lia).
      apply orb_true_r.
Qed.

Lemma link_tiles h h' :
  hop_ok last_level g shortcut h → hop_ok last_level g shortcut h' →
  hop_link h h' → h_totile h = h_tile h'.
Proof.
  intros Hok Hok' Hlink.
  pose proof (ok_totile _ _ _ _ Hok) as H1.
  pose proof (ok_tile _ _ _ _ Hok') as H2.
  rewrite (lk_node _ _ Hlink) in H2. congruence.
Qed.

Lemma walk_back h rest (k : nat) hk fuel :
  chain_wf last_level g s shortcut h rest →
  (h :: rest) !! S k = Some hk →
  (S k ≤ fuel)%nat →
  GetShortcut_walk fuel g (h_tile hk) (hop_id hk) (h_node hk)
  = Some (superseded_position h).
Proof.
  intros [Hhd Hoks Hl Hsum Hfit]. revert hk fuel.
  induction k as [|k IH]; intros hk fuel Hk Hfuel.
  - destruct fuel as [|fuel]; [lia|].
    pose proof (proj1 (Forall_lookup _ _) Hoks 0%nat h eq_refl) as Hok.
    pose proof (proj1 (Forall_lookup _ _) Hoks 1%nat hk Hk) as Hokk.
    pose proof (chain_links_lookup _ _ _ 0%nat h hk Hl eq_refl Hk) as Hlink.
    simpl. rewrite (link_continuing_edge h hk) by done. simpl.
    rewrite (hop_step Hok).
    + pose proof (chain_head_mark h Hhd) as Hm. apply N.eqb_neq in Hm.
      by rewrite Hm.
    + intros Hlv. rewrite <- (link_tiles h hk) by done. by apply Hok.
  - destruct fuel as [|fuel]; [lia|].
    destruct (lookup_lt_is_Some_2 (h :: rest) (S k)) as [hp Hp].
    { apply lookup_lt_Some in Hk. lia. }
    destruct (lookup_lt_is_Some_2 (h :: rest) k) as [hpp Hpp].
    { apply lookup_lt_Some in Hk. lia. }
    pose proof (proj1 (Forall_lookup _ _) Hoks _ _ Hp) as Hokp.
    pose proof (proj1 (Forall_lookup _ _) Hoks _ _ Hk) as Hokk.
    pose proof (chain_links_lookup _ _ _ _ _ _ Hl Hp Hk) as Hlink.
    pose proof (chain_links_lookup _ _ _ _ _ _ Hl Hpp Hp) as Hlinkp.
    simpl. rewrite (link_continuing_edge hp hk) by done. simpl.
    rewrite (hop_step Hokp).
    + rewrite (lk_plain _ _ Hlinkp). simpl. apply IH; [done|lia].
    + intros Hlv. rewrite <- (link_tiles hp hk) by done. by apply Hokp.
Qed.

Lemma GetShortcut_chain h rest (k : nat) hk fuel :
  chain_wf last_level g s shortcut h rest →
  (h :: rest) !! k = Some hk →
  (k ≤ fuel)%nat →
  GetShortcut last_level fuel g (hop_id hk) = Some (superseded_position h).
Proof.
  intros Hwf Hk Hfuel. pose proof Hwf as [Hhd Hoks Hl Hsum Hfit].
  pose proof (proj1 (Forall_lookup _ _) Hoks _ _ Hk) as Hok.
  unfold GetShortcut.
  assert ((last_level <=? GraphId.level (hop_id hk)) = false) as ->.
  { apply N.leb_gt. apply Hok. }
  rewrite (hop_id_tile Hok). simpl.
  change (GraphId.id (hop_id hk)) with (h_idx hk).
  rewrite (hop_edge Hok). simpl. rewrite (hop_not_shortcut Hok).
  rewrite (hop_opposing Hok) by apply Hhd. simpl.
  rewrite (hop_step Hok) by done. simpl.
  destruct k as [|k].
  - injection Hk as <-.
    pose proof (chain_head_mark h Hhd) as Hm. apply N.eqb_neq in Hm.
    by rewrite Hm.
  - destruct (lookup_lt_is_Some_2 (h :: rest) k) as [hp Hp].
    { apply lookup_lt_Some in Hk. lia. }
    pose proof (chain_links_lookup _ _ _ _ _ _ Hl Hp Hk) as Hlink.
    rewrite (lk_plain _ _ Hlink). simpl.
    by apply (walk_back h rest k).
Qed.

Lemma total_length_chain hs :
  Forall (hop_ok last_level g shortcut) hs →
  total_length g (hop_id <$> hs) = Some (chain_length hs).
Proof.
  induction hs as [|h hs IH]; intros Hoks; [done|].
  apply Forall_cons in Hoks as [Hok Hoks].
  rewrite fmap_cons. cbn [total_length].
  rewrite (IH Hoks), (hop_id_tile Hok). simpl.
  change (GraphId.id (hop_id h)) with (h_idx h).
  by rewrite (hop_edge Hok).
Qed.
End chain_walks.

Lemma ChainHops_ok h :
  h ∈ [ChainHops.h0; ChainHops.h1; ChainHops.h2] →
  hop_ok 2 (Chain.graph 30) ChainHops.sde h.
Proof.
  intros Hh.
  repeat (apply elem_of_cons in Hh as [->|Hh];
          [constructor; try reflexivity; try done;
           repeat split; vm_compute; congruence|]).
  by apply elem_of_nil in Hh.
Qed.

Lemma ChainHops_link h h' :
  (h, h') ∈ [(ChainHops.h0, ChainHops.h1); (ChainHops.h1, ChainHops.h2)] →
  hop_link h h'.
Proof.
  intros Hh.
  repeat (apply elem_of_cons in Hh as [[= -> ->]|Hh];
          [constructor;
           [reflexivity | reflexivity | discriminate
           | by exists 0%nat
           | intros [|[|j]] de Hj Hne Hidx; vm_compute in Hidx; done] |]).
  by apply elem_of_nil in Hh.
Qed.

Lemma ChainHops_wf :
  chain_wf 2 (Chain.graph 30) Chain.s ChainHops.sde ChainHops.h0
    [ChainHops.h1; ChainHops.h2].
Proof.
  constructor.
  - constructor; try reflexivity; try done.
    + by exists 0%nat.
    + intros [|j] de Hj Hlt; [|simpl in Hlt; lia].
      simpl in Hj. by injection Hj as <-.
    + by exists (Chain.tile 30), (ChainHops.nodeinfo 3), (Chain.short 0 0 600 1 30).
  - repeat (apply Forall_cons; split; [apply ChainHops_ok; set_solver|]).
    apply Forall_nil_2.
  - simpl. split; [discriminate|]. split; [apply ChainHops_link; set_solver|].
    split; [discriminate|]. split; [apply ChainHops_link; set_solver|].
    reflexivity.
  - reflexivity.
  - reflexivity.
Qed.

Lemma ThirdHops_ok h :
  h ∈ [ThirdHops.h0; ThirdHops.h1; ThirdHops.h2] →
  hop_ok 2 Third.graph ThirdHops.sde h.
Proof.
  intros Hh.
  repeat (apply elem_of_cons in Hh as [->|Hh];
          [constructor; try reflexivity; try done;
           repeat split; vm_compute; congruence|]).
  by apply elem_of_nil in Hh.
Qed.

Lemma ThirdHops_link h h' :
  (h, h') ∈ [(ThirdHops.h0, ThirdHops.h1); (ThirdHops.h1, ThirdHops.h2)] →
  hop_link h h'.
Proof.
  intros Hh.
  repeat (apply elem_of_cons in Hh as [[= -> ->]|Hh];
          [constructor;
           [reflexivity | reflexivity | discriminate
           | by exists 0%nat
           | intros [|[|j]] de Hj Hne Hidx; vm_compute in Hidx; done] |]).
  by apply elem_of_nil in Hh.
Qed.

Lemma ThirdHops_wf :
  chain_wf 2 Third.graph Third.s3 ThirdHops.sde ThirdHops.h0
    [ThirdHops.h1; ThirdHops.h2].
Proof.
  constructor.
  - constructor; try reflexivity; try done.
    + by exists 2%nat.
    + intros j de Hj Hlt. simpl in Hlt.
      do 5 (destruct j as [|j]; [simpl in Hj; by injection Hj as <-|]). lia.
    + by exists Third.tile, (Chain.node 10 2 0 0), (Chain.short 0 2 600 1 30).
  - repeat (apply Forall_cons; split; [apply ThirdHops_ok; set_solver|]).
    apply Forall_nil_2.
  - simpl. split; [discriminate|]. split; [apply ThirdHops_link; set_solver|].
    split; [discriminate|]. split; [apply ThirdHops_link; set_solver|].
    reflexivity.
  - reflexivity.
  - reflexivity.
Qed.

(** C1. The chain [e0], [e1], [e2] under the third shortcut [s3] of node 0
    is well formed, [RecoverShortcut] of [s3] gives the three edges in order
    and their lengths add up to the 600 of the shortcut; yet [GetShortcut]
    of each of the three edges is [a], the road edge at position 3 of
    node 0, and not the shortcut: line 181 takes the mask 4 in the
    superseded field of [e0], less one, for the position of the shortcut at
    the node. *)
Theorem GetShortcut_misses_third_shortcut :
  chain_wf 2 Third.graph Third.s3 ThirdHops.sde ThirdHops.h0
    [ThirdHops.h1; ThirdHops.h2]
  ∧ hop_id <$> [ThirdHops.h0; ThirdHops.h1; ThirdHops.h2]
    = [Third.e0; Third.e1; Third.e2]
  ∧ RecoverShortcut 2 Third.graph Third.s3
    = Some [Third.e0; Third.e1; Third.e2]
  ∧ total_length Third.graph [Third.e0; Third.e1; Third.e2]
    = Some (DirectedEdge.length ThirdHops.sde)
  ∧ GetShortcut 2 2 Third.graph Third.e0 = Some Third.a
  ∧ GetShortcut 2 2 Third.graph Third.e1 = Some Third.a
  ∧ GetShortcut 2 2 Third.graph Third.e2 = Some Third.a
  ∧ Third.a ≠ Third.s3
  ∧ GraphTile.directededge Third.tile (GraphId.id Third.a)
    = Some (Chain.road 4 1 50 1 30).
Proof.
  split; [exact ThirdHops_wf|].
  repeat split; try reflexivity. discriminate.
Qed.

(** ** The minimum bounding box *)

Lemma scan_nodes_none_inside tile bb nodes min_bb :
  (∀ node, node ∈ nodes →
     AABB2.Contains bb (NodeInfo.latlng node (GraphTile.base_ll tile)) = false) →
  scan_nodes tile bb nodes min_bb = Some min_bb.
Proof.
  induction nodes as [|node rest IH]; intros H; simpl; [done|].
  rewrite (H node) by apply list_elem_of_here.
  apply IH. intros n Hn. apply H. by apply list_elem_of_further.
Qed.

Lemma scan_tiles_none_inside g bb ids min_bb :
  (∀ tile_id tile node,
     tile_id ∈ ids → GetGraphTile g tile_id = Some tile →
     node ∈ GraphTile.nodes tile →
     AABB2.Contains bb (NodeInfo.latlng node (GraphTile.base_ll tile)) = false) →
  scan_tiles g bb ids min_bb = Some min_bb.
Proof.
  induction ids as [|tile_id rest IH]; intros H; simpl; [done|].
  destruct (GetGraphTile g tile_id) as [tile|] eqn:Ht.
  - rewrite scan_nodes_none_inside; simpl.
    + apply IH. intros i t n Hi. apply H. by apply list_elem_of_further.
    + intros n Hn. eapply H; [apply list_elem_of_here | done | done].
  - apply IH. intros i t n Hi. apply H. by apply list_elem_of_further.
Qed.

(** C10. When no node of any tile that meets the box lies inside the box,
    [GetMinimumBoundingBox] returns the box built from two default points,
    whose minimum point is not valid; no fault occurs. *)
Theorem GetMinimumBoundingBox_nothing_inside
    (GetGraphIds : AABB2.t → list GraphId.t) (g : GraphReader) (bb : AABB2.t) :
  (∀ tile_id tile node,
     tile_id ∈ GetGraphIds bb → GetGraphTile g tile_id = Some tile →
     node ∈ GraphTile.nodes tile →
     AABB2.Contains bb (NodeInfo.latlng node (GraphTile.base_ll tile)) = false) →
  GetMinimumBoundingBox GetGraphIds g bb
    = Some (AABB2.of_points PointLL_default PointLL_default)
  ∧ PointLL_IsValid
      (AABB2.minpt (AABB2.of_points PointLL_default PointLL_default)) = false.
Proof.
  intros H. split; [|reflexivity].
  unfold GetMinimumBoundingBox. by apply scan_tiles_none_inside.
Qed.

Lemma GetMinimumBoundingBox_nothing_inside_witness :
  GetMinimumBoundingBox (λ _, [GraphId.make 0 0 0]) (Chain.graph 30)
    (AABB2.mk 10 10 20 20)
    = Some (AABB2.of_points PointLL_default PointLL_default)
  ∧ PointLL_IsValid
      (AABB2.minpt (AABB2.of_points PointLL_default PointLL_default)) = false.
Proof.
  apply (GetMinimumBoundingBox_nothing_inside (λ _, [GraphId.make 0 0 0])
           (Chain.graph 30) (AABB2.mk 10 10 20 20)).
  intros tile_id tile node _ [_ ->]%GetGraphTile_singleton Hn.
  simpl in Hn. repeat (apply elem_of_cons in Hn as [->|Hn]; [reflexivity|]).
  by apply elem_of_nil in Hn.
Defined.

(** * Further properties of the graph reader *)

(** ** What a valid opposing edge id says *)

Lemma Is_Valid_invalid : GraphId.Is_Valid GraphId.invalid = false.
Proof. reflexivity. Qed.

(** X1. A valid id comes out of [GetOpposingEdgeId] only for an edge that is
    not a transit line and whose end node resolves; it is an id in the tile of
    that end node, and this tile is the one left in the reference parameter. *)
Theorem GetOpposingEdgeId_valid (g : GraphReader) (edgeid opp : GraphId.t)
    (tile : option GraphTile.t) :
  GetOpposingEdgeId g edgeid = Some (opp, tile) →
  GraphId.Is_Valid opp = true →
  ∃ t de t' ni,
    GetGraphTile g edgeid = Some t
    ∧ GraphTile.directededge t (GraphId.id edgeid) = Some de
    ∧ DirectedEdge.IsTransitLine de = false
    ∧ GetGraphTile g (DirectedEdge.endnode de) = Some t'
    ∧ GraphTile.node t' (GraphId.id (DirectedEdge.endnode de)) = Some ni
    ∧ opp = GraphId.set_id (DirectedEdge.endnode de)
              (add32 (NodeInfo.edge_index ni) (DirectedEdge.opp_index de))
    ∧ tile = Some t'
    ∧ GetGraphTile g opp = Some t'.
Proof.
  unfold GetOpposingEdgeId.
  destruct (GetGraphTile g edgeid) as [t|] eqn:Ht.
  2:{ intros [= <- <-]. by rewrite Is_Valid_invalid. }
  destruct (GraphTile.directededge t _) as [de|] eqn:Hd; simpl; [|done].
  destruct (DirectedEdge.IsTransitLine de) eqn:Htr.
  { intros [= <- <-]. by rewrite Is_Valid_invalid. }
  destruct (GetGraphTile g (DirectedEdge.endnode de)) as [t'|] eqn:Ht'.
  2:{ intros [= <- <-]. by rewrite Is_Valid_invalid. }
  destruct (GraphTile.node t' _) as [ni|] eqn:Hn; simpl; [|done].
  intros [= <- <-] _. exists t, de, t', ni.
  by rewrite GetGraphTile_set_id.
Qed.

Lemma GetOpposingEdgeId_valid_witness :
  ∃ t de t' ni,
    GetGraphTile (Chain.graph 30) Chain.e1 = Some t
    ∧ GraphTile.directededge t (GraphId.id Chain.e1) = Some de
    ∧ DirectedEdge.IsTransitLine de = false
    ∧ GetGraphTile (Chain.graph 30) (DirectedEdge.endnode de) = Some t'
    ∧ GraphTile.node t' (GraphId.id (DirectedEdge.endnode de)) = Some ni
    ∧ Chain.nd 4 = GraphId.set_id (DirectedEdge.endnode de)
              (add32 (NodeInfo.edge_index ni) (DirectedEdge.opp_index de))
    ∧ Some (Chain.tile 30) = Some t'
    ∧ GetGraphTile (Chain.graph 30) (Chain.nd 4) = Some t'.
Proof.
  apply (GetOpposingEdgeId_valid (Chain.graph 30) Chain.e1 (Chain.nd 4)
           (Some (Chain.tile 30))); reflexivity.
Defined.

(** What [GetOpposingEdge] says when it gives an edge. *)
Lemma GetOpposingEdge_Some g e o :
  GetOpposingEdge g e = Some (Some o) →
  ∃ t de t' ni,
    GetGraphTile g e = Some t
    ∧ GraphTile.directededge t (GraphId.id e) = Some de
    ∧ DirectedEdge.IsTransitLine de = false
    ∧ GetGraphTile g (DirectedEdge.endnode de) = Some t'
    ∧ GraphTile.node t' (GraphId.id (DirectedEdge.endnode de)) = Some ni
    ∧ GraphTile.directededge t'
        (add32 (NodeInfo.edge_index ni) (DirectedEdge.opp_index de)) = Some o.
Proof.
  unfold GetOpposingEdge, GetOpposingEdgeId.
  destruct (GetGraphTile g e) as [t|] eqn:Ht; [|done].
  destruct (GraphTile.directededge t _) as [de|] eqn:Hd; simpl; [|done].
  destruct (DirectedEdge.IsTransitLine de) eqn:Htr; [done|].
  destruct (GetGraphTile g (DirectedEdge.endnode de)) as [t'|] eqn:Ht'; [|done].
  destruct (GraphTile.node t' _) as [ni|] eqn:Hn; simpl; [|done].
  destruct (GraphId.Is_Valid _); [|done]. simpl.
  destruct (GraphTile.directededge t' _) as [o'|] eqn:Ho; simpl; [|done].
  intros [= <-]. by exists t, de, t', ni.
Qed.

(** The opposing edge of an edge that resolves, on a level of the
    hierarchy. *)
Lemma GetOpposingEdge_resolved g e t de t' ni o :
  GetGraphTile g e = Some t →
  GraphTile.directededge t (GraphId.id e) = Some de →
  DirectedEdge.IsTransitLine de = false →
  GetGraphTile g (DirectedEdge.endnode de) = Some t' →
  GraphTile.node t' (GraphId.id (DirectedEdge.endnode de)) = Some ni →
  GraphTile.directededge t'
    (add32 (NodeInfo.edge_index ni) (DirectedEdge.opp_index de)) = Some o →
  GraphId.level (DirectedEdge.endnode de) < 7 →
  GetOpposingEdge g e = Some (Some o).
Proof.
  intros Ht Hd Htr Ht' Hn Ho Hl.
  unfold GetOpposingEdge, GetOpposingEdgeId.
  rewrite Ht. simpl. rewrite Hd. simpl. rewrite Htr, Ht'. simpl.
  rewrite Hn. simpl. rewrite Is_Valid_level by done. simpl.
  by rewrite Ho.
Qed.

(** ** Edges that share a node *)

Lemma is_transition_same_level g n1 n2 :
  GraphId.level n1 = GraphId.level n2 → is_transition g n1 n2 = Some false.
Proof. unfold is_transition. intros ->. by rewrite N.eqb_refl. Qed.

(** The tile that line 61 picks for the second edge is the tile of that
    edge. *)
Lemma second_tile g edge1 edge2 t1 :
  GetGraphTile g edge1 = Some t1 →
  (if bool_decide (GraphId.Tile_Base edge2 = GraphId.Tile_Base edge1)
   then Some t1 else GetGraphTile g edge2) = GetGraphTile g edge2.
Proof.
  intros Ht. case_bool_decide as Hb; [|done].
  rewrite <- Ht. unfold GetGraphTile. injection Hb as -> ->. done.
Qed.

Lemma AreEdgesConnected_level_value g e1 e2 t1 de1 t2 de2 o1 o2 :
  GetGraphTile g e1 = Some t1 →
  GraphTile.directededge t1 (GraphId.id e1) = Some de1 →
  GetGraphTile g e2 = Some t2 →
  GraphTile.directededge t2 (GraphId.id e2) = Some de2 →
  GetOpposingEdge g e1 = Some (Some o1) →
  GetOpposingEdge g e2 = Some (Some o2) →
  GraphId.level (DirectedEdge.endnode de2)
  = GraphId.level (DirectedEdge.endnode de1) →
  GraphId.level (DirectedEdge.endnode o1)
  = GraphId.level (DirectedEdge.endnode de1) →
  GraphId.level (DirectedEdge.endnode o2)
  = GraphId.level (DirectedEdge.endnode de1) →
  AreEdgesConnected g e1 e2
  = Some (bool_decide
            (DirectedEdge.endnode de1 = DirectedEdge.endnode de2
             ∨ DirectedEdge.endnode o1 = DirectedEdge.endnode de2
             ∨ DirectedEdge.endnode o2 = DirectedEdge.endnode de1
             ∨ DirectedEdge.endnode o2 = DirectedEdge.endnode o1)).
Proof.
  intros Ht1 Hd1 Ht2 Hd2 Ho1 Ho2 Hl2 Hl1' Hl2'.
  unfold AreEdgesConnected.
  rewrite Ht1. simpl. rewrite Hd1. simpl.
  rewrite (second_tile g e1 e2 t1 Ht1), Ht2. simpl. rewrite Hd2. simpl.
  case_bool_decide as Ha.
  { simpl. symmetry. f_equal. apply bool_decide_eq_true_2. by left. }
  rewrite is_transition_same_level by done. simpl.
  rewrite Ho1. simpl.
  case_bool_decide as Hb.
  { simpl. symmetry. f_equal. apply bool_decide_eq_true_2. right. by left. }
  rewrite is_transition_same_level by congruence. simpl.
  rewrite Ho2. simpl.
  case_bool_decide as Hc.
  { symmetry. f_equal. apply bool_decide_eq_true_2. right. right. by left. }
  case_bool_decide as Hd.
  { symmetry. f_equal. apply bool_decide_eq_true_2. by repeat right. }
  rewrite is_transition_same_level by congruence. simpl.
  rewrite is_transition_same_level by congruence. simpl.
  symmetry. f_equal. apply bool_decide_eq_false_2. intros [?|[?|[?|?]]]; done.
Qed.

(** X2. Two edges that have opposing edges and whose four nodes lie on one
    level are connected exactly when a node of one is a node of the other, and
    the answer does not depend on the order of the two edges. *)
Theorem AreEdgesConnected_one_level (g : GraphReader) (e1 e2 : GraphId.t)
    t1 de1 t2 de2 o1 o2 :
  GetGraphTile g e1 = Some t1 →
  GraphTile.directededge t1 (GraphId.id e1) = Some de1 →
  GetGraphTile g e2 = Some t2 →
  GraphTile.directededge t2 (GraphId.id e2) = Some de2 →
  GetOpposingEdge g e1 = Some (Some o1) →
  GetOpposingEdge g e2 = Some (Some o2) →
  GraphId.level (DirectedEdge.endnode de2)
  = GraphId.level (DirectedEdge.endnode de1) →
  GraphId.level (DirectedEdge.endnode o1)
  = GraphId.level (DirectedEdge.endnode de1) →
  GraphId.level (DirectedEdge.endnode o2)
  = GraphId.level (DirectedEdge.endnode de1) →
  AreEdgesConnected g e1 e2
  = Some (bool_decide
            (DirectedEdge.endnode de1 = DirectedEdge.endnode de2
             ∨ DirectedEdge.endnode o1 = DirectedEdge.endnode de2
             ∨ DirectedEdge.endnode o2 = DirectedEdge.endnode de1
             ∨ DirectedEdge.endnode o2 = DirectedEdge.endnode o1))
  ∧ AreEdgesConnected g e2 e1 = AreEdgesConnected g e1 e2.
Proof.
  intros Ht1 Hd1 Ht2 Hd2 Ho1 Ho2 Hl2 Hl1' Hl2'.
  rewrite (AreEdgesConnected_level_value g e1 e2 t1 de1 t2 de2 o1 o2) by done.
  split; [done|].
  rewrite (AreEdgesConnected_level_value g e2 e1 t2 de2 t1 de1 o2 o1)
    by congruence.
  f_equal. apply bool_decide_ext. intuition congruence.
Qed.

Lemma AreEdgesConnected_one_level_witness :
  AreEdgesConnected (Chain.graph 30) Chain.e0 Chain.e1 = Some true
  ∧ AreEdgesConnected (Chain.graph 30) Chain.e1 Chain.e0
    = AreEdgesConnected (Chain.graph 30) Chain.e0 Chain.e1.
Proof.
  apply (AreEdgesConnected_one_level (Chain.graph 30) Chain.e0 Chain.e1
           (Chain.tile 30) ChainHops.e0 (Chain.tile 30) ChainHops.e1
           ChainHops.o0 ChainHops.o1); reflexivity.
Defined.

(** X3. An edge that has an opposing edge is connected to it, when the two
    ends of the edge lie on one level. *)
Theorem AreEdgesConnected_opposing (g : GraphReader) (e opp : GraphId.t)
    (tile' : option GraphTile.t) (de o : DirectedEdge.t) :
  GetOpposingEdgeId g e = Some (opp, tile') →
  GetOpposingEdge g e = Some (Some o) →
  edge_at g e = Some de →
  GraphId.level (DirectedEdge.endnode o)
  = GraphId.level (DirectedEdge.endnode de) →
  AreEdgesConnected g e opp = Some true.
Proof.
  intros Hid Ho He Hl.
  pose proof Ho as (t & de0 & t' & ni & Ht & Hd & Htr & Ht' & Hn & Hedge)
    %GetOpposingEdge_Some.
  unfold edge_at in He. rewrite Ht in He. simpl in He.
  rewrite Hd in He. injection He as ->.
  unfold GetOpposingEdgeId in Hid. rewrite Ht in Hid. simpl in Hid.
  rewrite Hd in Hid. simpl in Hid. rewrite Htr, Ht' in Hid. simpl in Hid.
  rewrite Hn in Hid. simpl in Hid. injection Hid as <- <-.
  unfold AreEdgesConnected. rewrite Ht. simpl. rewrite Hd. simpl.
  rewrite (second_tile g e _ t Ht), GetGraphTile_set_id, Ht'. simpl.
  rewrite Hedge. simpl.
  case_bool_decide; [done|].
  rewrite is_transition_same_level by done. simpl.
  rewrite Ho. simpl. by rewrite bool_decide_eq_true_2.
Qed.

Lemma AreEdgesConnected_opposing_witness :
  AreEdgesConnected (Chain.graph 30) Chain.e1 (Chain.nd 4) = Some true.
Proof.
  apply (AreEdgesConnected_opposing (Chain.graph 30) Chain.e1 (Chain.nd 4)
           (Some (Chain.tile 30)) ChainHops.e1 ChainHops.o1); reflexivity.
Defined.

(** X4. When the first edge has no opposing edge, the second has one, and none
    of the comparisons before it holds, line 76 reads the end node of the
    opposing edge of the first edge through the null pointer: the call has no
    defined answer. *)
Theorem AreEdgesConnected_missing_opposing (g : GraphReader) (e1 e2 : GraphId.t)
    (de1 de2 o2 : DirectedEdge.t) :
  edge_at g e1 = Some de1 →
  edge_at g e2 = Some de2 →
  DirectedEdge.endnode de1 ≠ DirectedEdge.endnode de2 →
  is_transition g (DirectedEdge.endnode de1) (DirectedEdge.endnode de2)
  = Some false →
  GetOpposingEdge g e1 = Some None →
  GetOpposingEdge g e2 = Some (Some o2) →
  DirectedEdge.endnode o2 ≠ DirectedEdge.endnode de1 →
  AreEdgesConnected g e1 e2 = None.
Proof.
  unfold edge_at. intros H1 H2 Hne Htr Ho1 Ho2 Hne2.
  destruct (GetGraphTile g e1) as [t1|] eqn:Ht1; [|done]. simpl in H1.
  destruct (GetGraphTile g e2) as [t2|] eqn:Ht2; [|done]. simpl in H2.
  unfold AreEdgesConnected. rewrite Ht1. simpl. rewrite H1. simpl.
  rewrite (second_tile g e1 e2 t1 Ht1), Ht2. simpl. rewrite H2. simpl.
  rewrite bool_decide_eq_false_2 by done. rewrite Htr. simpl.
  rewrite Ho1. simpl. rewrite Ho2. simpl.
  by rewrite bool_decide_eq_false_2.
Qed.

Lemma AreEdgesConnected_missing_opposing_witness :
  AreEdgesConnected Station.graph Station.rail Station.road' = None.
Proof.
  apply (AreEdgesConnected_missing_opposing Station.graph Station.rail
           Station.road' (Station.line kRail 1 0) (Station.line kRoad 0 1)
           (Station.line kRoad 2 0));
    reflexivity || discriminate.
Defined.

(** ** Edges joined by a transition *)

Lemma transition_loop_found tile n2 idx (count j : nat) trans :
  (j < count)%nat →
  (∀ i : nat, (i < j)%nat →
     is_Some (GraphTile.transition tile (idx + N.of_nat i))) →
  GraphTile.transition tile (idx + N.of_nat j) = Some trans →
  NodeTransition.endnode trans = n2 →
  transition_loop tile n2 idx count = Some true.
Proof.
  revert idx j. induction count as [|count IH]; intros idx j Hj Hbefore Ht Hend;
    [lia|]. simpl.
  destruct j as [|j].
  - rewrite N.add_0_r in Ht. rewrite Ht. simpl.
    by rewrite bool_decide_eq_true_2.
  - destruct (Hbefore 0%nat ltac:(lia)) as [t0 Ht0].
    rewrite N.add_0_r in Ht0. rewrite Ht0. simpl.
    case_bool_decide; [done|].
    apply (IH (N.succ idx) j); [lia| |by rewrite <- Ht; f_equal; lia|done].
    intros i Hi. specialize (Hbefore (S i) ltac:(lia)).
    by replace (N.succ idx + N.of_nat i) with (idx + N.of_nat (S i)) by lia.
Qed.

(** X5. Two edges whose end nodes lie on different levels are connected when
    one of the transitions of the end node of the first, read within the
    transitions of its tile, leads to the end node of the second. *)
Theorem AreEdgesConnected_transition (g : GraphReader) (e1 e2 : GraphId.t)
    (de1 de2 : DirectedEdge.t) (tile : GraphTile.t) (ni : NodeInfo.t)
    (j : nat) (trans : NodeTransition.t) :
  edge_at g e1 = Some de1 →
  edge_at g e2 = Some de2 →
  GraphId.level (DirectedEdge.endnode de1)
  ≠ GraphId.level (DirectedEdge.endnode de2) →
  GetGraphTile g (DirectedEdge.endnode de1) = Some tile →
  GraphTile.node tile (GraphId.id (DirectedEdge.endnode de1)) = Some ni →
  NodeInfo.transition_index ni + NodeInfo.transition_count ni
  ≤ N.of_nat (List.length (GraphTile.transitions tile)) →
  N.of_nat j < NodeInfo.transition_count ni →
  GraphTile.transition tile (NodeInfo.transition_index ni + N.of_nat j)
  = Some trans →
  NodeTransition.endnode trans = DirectedEdge.endnode de2 →
  AreEdgesConnected g e1 e2 = Some true.
Proof.
  unfold edge_at. intros H1 H2 Hlev Ht Hn Hfit Hj Htrans Hend.
  destruct (GetGraphTile g e1) as [t1|] eqn:Ht1; [|done]. simpl in H1.
  destruct (GetGraphTile g e2) as [t2|] eqn:Ht2; [|done]. simpl in H2.
  unfold AreEdgesConnected. rewrite Ht1. simpl. rewrite H1. simpl.
  rewrite (second_tile g e1 e2 t1 Ht1), Ht2. simpl. rewrite H2. simpl.
  case_bool_decide; [done|].
  unfold is_transition. apply N.eqb_neq in Hlev. rewrite Hlev, Ht. simpl.
  rewrite Hn. simpl.
  assert ((NodeInfo.transition_count ni =? 0) = false) as ->
    by (apply N.eqb_neq; lia).
  rewrite (transition_loop_found tile _ _ _ j trans); [done|lia| |done|done].
  intros i Hi. apply lookup_lt_is_Some. lia.
Qed.

Lemma AreEdgesConnected_transition_witness :
  AreEdgesConnected Levels.graph Levels.below Levels.above = Some true.
Proof.
  apply (AreEdgesConnected_transition Levels.graph Levels.below Levels.above
           (Levels.road 0 1 0) (Levels.road 1 0 0) Levels.lower
           (NodeInfo.mk 1 1 0 1 0 0 0) 0
           (NodeTransition.mk (GraphId.make 0 1 0)));
    try reflexivity.
  discriminate.
Defined.

(** ** Forward connection within the tile of the end node *)

Lemma tiles_addressable_singleton key tl :
  N.of_nat (List.length (GraphTile.directededges tl)) < 2 ^ 32 →
  tiles_addressable (mkGraphReader {[ key := tl ]}).
Proof.
  intros H k tile Hk. simpl in Hk.
  by apply lookup_singleton_Some in Hk as [_ <-].
Qed.

Lemma Chain_tiles_addressable spd : tiles_addressable (Chain.graph spd).
Proof. apply tiles_addressable_singleton. reflexivity. Qed.

(** X6. When the second edge lies in the tile and on the level of the end node
    of the first, [AreEdgesConnectedForward] answers true exactly when the
    second edge is one of the edges of that node. *)
Theorem AreEdgesConnectedForward_same_tile (g : GraphReader)
    (a b : GraphId.t) (da : DirectedEdge.t) (tile : GraphTile.t)
    (ni : NodeInfo.t) :
  tiles_addressable g →
  edge_at g a = Some da →
  GetGraphTile g (DirectedEdge.endnode da) = Some tile →
  GraphTile.node tile (GraphId.id (DirectedEdge.endnode da)) = Some ni →
  NodeInfo.edge_index ni + NodeInfo.edge_count ni
  ≤ N.of_nat (List.length (GraphTile.directededges tile)) →
  GraphId.Tile_Base b = GraphId.Tile_Base (DirectedEdge.endnode da) →
  AreEdgesConnectedForward g a b
  = Some (bool_decide
            (NodeInfo.edge_index ni ≤ GraphId.id b
             < NodeInfo.edge_index ni + NodeInfo.edge_count ni)).
Proof.
  intros Haddr Ha Ht Hn Hfit Hbase.
  unfold edge_at in Ha.
  destruct (GetGraphTile g a) as [ta|] eqn:Hta; [|done]. simpl in Ha.
  unfold AreEdgesConnectedForward, edge_endnode.
  rewrite Hta. simpl. rewrite Ha. simpl.
  assert ((if bool_decide (GraphId.Tile_Base (DirectedEdge.endnode da)
                           ≠ GraphId.Tile_Base a)
           then GetGraphTile g (DirectedEdge.endnode da) else Some ta)
          = Some tile) as ->.
  { case_bool_decide as Hb; [done|].
    rewrite <- Ht, <- Hta.
    unfold GetGraphTile. by injection Hb as -> ->. }
  rewrite andb_false_r.
  assert (GraphId.level b = GraphId.level (DirectedEdge.endnode da)) as ->
    by (by injection Hbase).
  rewrite N.eqb_refl. simpl. rewrite Hn. simpl.
  pose proof (Haddr _ _ Ht) as Hsize.
  unfold add32. rewrite wrap32_small by lia.
  f_equal. case_bool_decide as Hd.
  - apply andb_true_iff. split; [apply N.leb_le|apply N.ltb_lt]; lia.
  - apply andb_false_iff.
    destruct (N.le_gt_cases (NodeInfo.edge_index ni) (GraphId.id b)).
    + right. apply N.ltb_ge. lia.
    + left. apply N.leb_gt. lia.
Qed.

Lemma AreEdgesConnectedForward_same_tile_witness :
  AreEdgesConnectedForward (Chain.graph 30) Chain.e0 Chain.e1
  = Some (bool_decide (2 ≤ GraphId.id Chain.e1 < 2 + 2)).
Proof.
  apply (AreEdgesConnectedForward_same_tile (Chain.graph 30) Chain.e0 Chain.e1
           ChainHops.e0 (Chain.tile 30) (Chain.node 2 2 (2#10) (1#10))
           (Chain_tiles_addressable 30));
    try reflexivity.
  vm_compute. congruence.
Defined.

(** X7. When no transition of the end node of the first edge leads to the
    level of the second edge, the level of the second edge is not looked at
    any further: the answer is that for the edge of the same index on the
    level of the end node. *)
Theorem AreEdgesConnectedForward_level_blind (g : GraphReader)
    (a b : GraphId.t) (da : DirectedEdge.t) (tile : GraphTile.t)
    (ts : list NodeTransition.t) :
  edge_at g a = Some da →
  GetGraphTile g (DirectedEdge.endnode da) = Some tile →
  GraphTile.GetNodeTransitions tile (DirectedEdge.endnode da) = Some ts →
  find_transition (GraphId.level b) ts = None →
  AreEdgesConnectedForward g a b
  = AreEdgesConnectedForward g a
      (GraphId.mk (GraphId.level (DirectedEdge.endnode da))
         (GraphId.tileid b) (GraphId.id b)).
Proof.
  intros Ha Ht Hts Hnone. unfold edge_at in Ha.
  destruct (GetGraphTile g a) as [ta|] eqn:Hta; [|done]. simpl in Ha.
  unfold AreEdgesConnectedForward, edge_endnode.
  rewrite Hta. simpl. rewrite Ha. simpl.
  assert ((if bool_decide (GraphId.Tile_Base (DirectedEdge.endnode da)
                           ≠ GraphId.Tile_Base a)
           then GetGraphTile g (DirectedEdge.endnode da) else Some ta)
          = Some tile) as ->.
  { case_bool_decide as Hb; [done|].
    rewrite <- Ht, <- Hta.
    unfold GetGraphTile. by injection Hb as -> ->. }
  rewrite andb_false_r. simpl. rewrite N.eqb_refl. simpl.
  destruct (GraphId.level b =? _); simpl; [done|].
  rewrite Hts. simpl. by rewrite Hnone.
Qed.

Lemma AreEdgesConnectedForward_level_blind_witness :
  AreEdgesConnectedForward (Chain.graph 30) Chain.e0 (GraphId.make 0 1 3)
  = AreEdgesConnectedForward (Chain.graph 30) Chain.e0 Chain.e1.
Proof.
  apply (AreEdgesConnectedForward_level_blind (Chain.graph 30) Chain.e0
           (GraphId.make 0 1 3) ChainHops.e0 (Chain.tile 30) []);
    reflexivity.
Defined.

(** ** The shortcut above a superseded edge *)

(** X8. In a graph that keeps the opposing-edge invariant, for an edge that is
    no shortcut, below the last level, and whose superseded field is not 0,
    [GetShortcut] returns at once the edge of the begin node at the position
    that the superseded field names, counted from 1. *)
Theorem GetShortcut_superseded (last_level : N) (fuel : nat) (g : GraphReader)
    (e : GraphId.t) tile de k ni tile' ni' :
  opposing_consistent g →
  GraphId.level e < last_level →
  GetGraphTile g e = Some tile →
  GraphTile.directededge tile (GraphId.id e) = Some de →
  DirectedEdge.is_shortcut de = false →
  DirectedEdge.IsTransitLine de = false →
  leaves_node tile (GraphId.id e) k ni →
  GetGraphTile g (DirectedEdge.endnode de) = Some tile' →
  GraphTile.node tile' (GraphId.id (DirectedEdge.endnode de)) = Some ni' →
  GraphId.level (DirectedEdge.endnode de) < 7 →
  DirectedEdge.superseded de ≠ 0 →
  GetShortcut last_level fuel g e
  = Some (GraphId.set_id e
            (add32 (NodeInfo.edge_index ni)
                   (sub32 (DirectedEdge.superseded de) 1))).
Proof.
  intros Hwf Hl Ht Hd Hs Htr Hk Ht' Hn' Hl7 Hsup.
  destruct (Hwf e tile de k ni tile' ni' Ht Hd Hk Ht' Hn')
    as (de' & Hd' & Hend & Hopp & _).
  unfold GetShortcut. apply N.leb_gt in Hl. rewrite Hl, Ht. simpl.
  rewrite Hd. simpl. rewrite Hs.
  rewrite (GetOpposingEdge_resolved g e tile de tile' ni' de') by done.
  simpl. unfold GetShortcut_step. rewrite Hend.
  assert ((if DirectedEdge.leaves_tile de'
           then GetGraphTile g (GraphId.Tile_Base (GraphId.set_id e k))
           else Some tile) = Some tile) as ->.
  { destruct (DirectedEdge.leaves_tile de'); [|done]. exact Ht. }
  simpl. destruct Hk as (Hk & _ & _). rewrite Hk. simpl.
  rewrite Hopp, Hd. simpl.
  apply N.eqb_neq in Hsup. rewrite Hsup. simpl.
  by destruct e.
Qed.

Lemma GetShortcut_superseded_witness :
  GetShortcut 2 0 (Chain.graph 30) Chain.e0 = Some Chain.s.
Proof.
  apply (GetShortcut_superseded 2 0 (Chain.graph 30) Chain.e0
           (Chain.tile 30) ChainHops.e0 0 (Chain.node 0 2 (1#10) (1#10))
           (Chain.tile 30) (Chain.node 2 2 (2#10) (1#10))
           (Chain_opposing_consistent 30));
    try reflexivity.
  - split; [reflexivity|]. split; vm_compute; congruence.
  - discriminate.
Defined.

(** ** A backward walk that comes back *)

Lemma walk_reaches_within g n st st' (m : nat) :
  walk_reaches g n st st' → (m ≤ n)%nat →
  ∃ st'', walk_reaches g m st st''.
Proof.
  intros H. revert m.
  induction H as [st|n tile edgeid node c st' st'' Hc Hs _ IH]; intros m Hm.
  - exists st. replace m with 0%nat by lia. constructor.
  - destruct m as [|m]; [eexists; constructor|].
    destruct (IH m ltac:(lia)) as [st3 H3].
    exists st3. by eapply walk_pass.
Qed.

Lemma GetShortcut_walk_cycle g n st :
  walk_reaches g (S n) st st →
  ∀ fuel, GetShortcut_walk fuel g st.1.1 st.1.2 st.2 = None.
Proof.
  intros Hcycle fuel.
  induction fuel as [fuel IH] using lt_wf_ind.
  destruct (le_lt_dec (S n) fuel) as [Hle|Hlt].
  - replace fuel with (S n + (fuel - S n))%nat by lia.
    rewrite (GetShortcut_walk_reaches g (S n) _ st st Hcycle).
    apply IH. lia.
  - destruct (walk_reaches_within g (S n) st st fuel Hcycle ltac:(lia))
      as [st' Hst'].
    replace fuel with (fuel + 0)%nat by lia.
    by rewrite (GetShortcut_walk_reaches g fuel 0 st st' Hst').
Qed.

(** X9. When the backward walk of [GetShortcut] comes back to a tile, edge and
    node that it has stood at before, having found one continuing edge and no
    superseded edge at every pass, the loop never ends: no number of passes
    gives an answer. *)
Theorem GetShortcut_cycle (last_level : N) (g : GraphReader) (id : GraphId.t)
    tile de c0 st0 (m n : nat) st :
  GraphId.level id < last_level →
  GetGraphTile g id = Some tile →
  GraphTile.directededge tile (GraphId.id id) = Some de →
  DirectedEdge.is_shortcut de = false →
  GetOpposingEdge g id = Some (Some c0) →
  GetShortcut_step g tile c0 = Some (inr st0) →
  walk_reaches g m st0 st →
  walk_reaches g (S n) st st →
  ∀ fuel, GetShortcut last_level fuel g id = None.
Proof.
  intros Hl Ht Hd Hs Ho Hst Hreach Hcycle fuel.
  unfold GetShortcut. apply N.leb_gt in Hl.
  rewrite Hl, Ht. simpl. rewrite Hd. simpl. rewrite Hs, Ho. simpl.
  rewrite Hst. simpl. destruct st0 as [[t0 e0] n0].
  destruct (le_lt_dec m fuel) as [Hle|Hlt].
  - replace fuel with (m + (fuel - m))%nat by lia.
    rewrite (GetShortcut_walk_reaches g m _ _ st Hreach).
    by apply (GetShortcut_walk_cycle g n).
  - destruct (walk_reaches_within g m _ st fuel Hreach ltac:(lia))
      as [st' Hst'].
    pose proof (GetShortcut_walk_reaches g fuel 0 _ st' Hst') as E.
    rewrite Nat.add_0_r in E. simpl in E. by rewrite E.
Qed.

Lemma GetShortcut_cycle_witness :
  GetShortcut 2 1000 Ring.graph (Chain.nd 0) = None.
Proof.
  refine (GetShortcut_cycle 2 Ring.graph (Chain.nd 0) Ring.tile
            (Chain.road 1 1 10 0 30) (Chain.road 0 0 10 0 30)
            (Ring.tile, Chain.nd 0, Chain.node 0 2 0 0) 0 2
            (Ring.tile, Chain.nd 0, Chain.node 0 2 0 0)
            eq_refl eq_refl eq_refl eq_refl eq_refl eq_refl _ _ 1000%nat).
  - constructor.
  - eapply walk_pass; [reflexivity | reflexivity |].
    eapply walk_pass; [reflexivity | reflexivity |].
    eapply walk_pass; [reflexivity | reflexivity |].
    constructor.
Defined.

(** ** The path that a recovery returns *)

Lemma same_enough_inv b s e :
  same_enough b s e = true →
  b ≠ DirectedEdge.endnode e
  ∧ DirectedEdge.is_shortcut e = false
  ∧ attribute_identical s e.
Proof.
  unfold same_enough, attribute_identical.
  rewrite !andb_true_iff, !bool_decide_eq_true, !negb_true_iff, !N.eqb_eq,
    N.eqb_neq.
  tauto.
Qed.

Lemma node_run_length tile ni run :
  node_run tile ni = Some run →
  List.length run = N.to_nat (NodeInfo.edge_count ni)
  ∧ NodeInfo.edge_index ni + NodeInfo.edge_count ni
    ≤ N.of_nat (List.length (GraphTile.directededges tile)).
Proof.
  unfold node_run. destruct (_ <? _) eqn:E; [done|]. intros [= <-].
  apply N.ltb_ge in E. split; [|done].
  rewrite length_take, length_drop. lia.
Qed.

(** The header of a tile names the tile: under [reader_keyed], an id built
    on the header of the tile of a node, with the index of the node, is the
    node. *)
Lemma header_id_node g (n : GraphId.t) tile :
  reader_keyed g → GetGraphTile g n = Some tile →
  GraphId.set_id (GraphTile.graphid tile) (GraphId.id n) = n.
Proof.
  intros Hk Ht. apply Hk in Ht. destruct n as [l t i]. simpl in *.
  injection Ht as -> ->. by destruct (GraphTile.graphid tile).
Qed.

Lemma edge_at_header g (n : GraphId.t) tile i de :
  reader_keyed g → GetGraphTile g n = Some tile →
  GraphTile.directededge tile i = Some de →
  edge_at g (GraphId.set_id (GraphTile.graphid tile) i) = Some de.
Proof.
  intros Hk Ht Hd. unfold edge_at.
  rewrite (GetGraphTile_keyed g n tile i Hk Ht). done.
Qed.

(** One more edge found by the walk leaves the end node of the current
    edge. *)
Lemma found_leaves_end g a c tile ni run (j : nat) edge :
  reader_keyed g →
  edge_at g a = Some c →
  GetGraphTile g (DirectedEdge.endnode c) = Some tile →
  GraphTile.node tile (GraphId.id (DirectedEdge.endnode c)) = Some ni →
  node_run tile ni = Some run →
  run !! j = Some edge →
  leaves_end_of g a
    (GraphId.set_id (GraphTile.graphid tile)
       (NodeInfo.edge_index ni + N.of_nat j)).
Proof.
  intros Hk Ha Ht Hn Hrun Hj.
  destruct (node_run_length _ _ _ Hrun) as [Hlen Hfit].
  apply lookup_lt_Some in Hj.
  exists c, tile, ni. split; [done|]. split; [done|]. split.
  - pose proof (Hk _ _ Ht) as Hkey. unfold GraphId.Tile_Base. simpl.
    injection Hkey as -> ->. done.
  - split; [|done]. split; [done|]. simpl. lia.
Qed.

Lemma RecoverShortcut_walk_path fuel g s c b acc front elast es' :
  reader_keyed g →
  edge_at g elast = Some c →
  RecoverShortcut_walk fuel g s c b acc (front ++ [elast])
  = Some (Recovered es') →
  ∃ more, es' = front ++ elast :: more ∧ recovered_from g s b elast more.
Proof.
  intros Hk. revert c b acc front elast.
  assert (∀ c b acc front elast,
            edge_at g elast = Some c →
            DirectedEdge.endnode c = DirectedEdge.endnode s →
            (if acc <? DirectedEdge.length s
             then Some (Bailed ShorterPath)
             else Some (Recovered (front ++ [elast]))) = Some (Recovered es') →
            ∃ more, es' = front ++ elast :: more
                    ∧ recovered_from g s b elast more) as Hfinal.
  { intros c b acc front elast Ha Hend. destruct (_ <? _); [done|].
    intros [= <-]. exists []. split; [done|]. by eapply recovered_end. }
  induction fuel as [|fuel IH]; intros c b acc front elast Ha; simpl.
  - case_bool_decide; [by eapply Hfinal|done].
  - case_bool_decide as Hend; [by eapply Hfinal|].
    destruct (GetGraphTile g (DirectedEdge.endnode c)) as [tile|] eqn:Ht;
      simpl; [|done].
    destruct (GetDirectedEdges tile _) as [[first run]|] eqn:Hr; simpl; [|done].
    destruct (find_same_enough b s first run) as [[idx edge]|] eqn:Hf; [|done].
    destruct (_ <? add32 _ _); [done|].
    apply GetDirectedEdges_Some in Hr as (ni & Hni & -> & Hrun).
    apply find_same_enough_Some in Hf as (j & -> & Hj & Hsame).
    pose proof (node_run_lookup _ _ _ _ _ Hrun Hj) as Hde.
    rewrite (header_id_node g _ tile Hk Ht).
    intros (more & -> & Hrest)%IH.
    2:{ by apply (edge_at_header g (DirectedEdge.endnode c)). }
    exists (GraphId.set_id (GraphTile.graphid tile)
              (NodeInfo.edge_index ni + N.of_nat j) :: more).
    split; [by rewrite <- app_assoc|].
    eapply recovered_step; [done | done | | | done | done].
    + by eapply found_leaves_end.
    + by apply (edge_at_header g (DirectedEdge.endnode c)).
Qed.

(** What the walk starts from: the first edge leaves the begin node of the
    shortcut and carries a bit of the mask of the shortcut. *)
Lemma RecoverShortcut_seed_start g sid s c0 b0 acc0 es0 :
  reader_keyed g →
  RecoverShortcut_seed g sid = Some (inr (s, (c0, b0, acc0, es0))) →
  ∃ tile ni e0,
    GetGraphTile g sid = Some tile
    ∧ GraphTile.directededge tile (GraphId.id sid) = Some s
    ∧ DirectedEdge.is_shortcut s = true
    ∧ edge_startnode g sid = Some b0
    ∧ GraphId.Is_Valid b0 = true
    ∧ es0 = [e0]
    ∧ edge_at g e0 = Some c0
    ∧ GraphId.Tile_Base e0 = GraphId.Tile_Base sid
    ∧ leaves_node tile (GraphId.id e0) (GraphId.id b0) ni
    ∧ N.land (DirectedEdge.shortcut s) (DirectedEdge.superseded c0) ≠ 0.
Proof.
  intros Hk. unfold RecoverShortcut_seed.
  destruct (GetGraphTile g sid) as [tile|] eqn:Ht; simpl; [|done].
  destruct (GraphTile.directededge tile (GraphId.id sid)) as [s'|] eqn:Hs;
    simpl; [|done].
  destruct (DirectedEdge.is_shortcut s') eqn:Hshort; simpl; [|done].
  destruct (edge_startnode g sid) as [b|] eqn:Hb; simpl; [|done].
  destruct (GraphId.Is_Valid b) eqn:Hv; simpl; [|done].
  destruct (GetDirectedEdges tile _) as [[first run]|] eqn:Hr; simpl; [|done].
  destruct (find_superseded _ first run) as [idx|] eqn:Hf; [|done].
  destruct (GraphTile.directededge tile idx) as [c|] eqn:Hc; simpl; [|done].
  intros [= <- <- <- <- <-].
  apply GetDirectedEdges_Some in Hr as (ni & Hni & -> & Hrun).
  apply find_superseded_Some in Hf as (j & e & -> & Hj & Hland).
  rewrite (node_run_lookup _ _ _ _ _ Hrun Hj) in Hc. injection Hc as <-.
  destruct (node_run_length _ _ _ Hrun) as [Hlen _].
  pose proof (lookup_lt_Some _ _ _ Hj) as Hlt.
  exists tile, ni, (GraphId.set_id (GraphTile.graphid tile)
                      (NodeInfo.edge_index ni + N.of_nat j)).
  repeat (split; [done|]). split.
  { apply (edge_at_header g sid); [done|done|].
    exact (node_run_lookup _ _ _ _ _ Hrun Hj). }
  split.
  { pose proof (Hk _ _ Ht) as Hkey. unfold GraphId.Tile_Base. simpl.
    injection Hkey as -> ->. done. }
  split; [|done]. split; [done|]. simpl. lia.
Qed.

(** A recovery that does not bail returns a path in the sense of
    [recovered_from], from an edge that leaves the begin node of the
    shortcut and carries a bit of its mask. *)
Lemma RecoverShortcut_outcome_path fuel g sid es :
  reader_keyed g →
  RecoverShortcut_outcome fuel g sid = Some (Recovered es) →
  ∃ s b0 e0 more,
    edge_at g sid = Some s
    ∧ edge_startnode g sid = Some b0
    ∧ es = e0 :: more
    ∧ recovered_from g s b0 e0 more
    ∧ ∃ tile ni d0,
        GetGraphTile g sid = Some tile
        ∧ edge_at g e0 = Some d0
        ∧ GraphId.Tile_Base e0 = GraphId.Tile_Base sid
        ∧ leaves_node tile (GraphId.id e0) (GraphId.id b0) ni
        ∧ N.land (DirectedEdge.shortcut s) (DirectedEdge.superseded d0) ≠ 0.
Proof.
  intros Hk. unfold RecoverShortcut_outcome.
  destruct (RecoverShortcut_seed g sid) as [[why|[s [[[c0 b0] acc0] es0]]]|]
    eqn:Hseed; simpl; [done| |done].
  destruct (RecoverShortcut_seed_start g sid s c0 b0 acc0 es0 Hk Hseed)
    as (tile & ni & e0 & Ht & Hs & _ & Hb & _ & ->
        & He0 & Hbase & Hleaves & Hland).
  intros Hw.
  destruct (RecoverShortcut_walk_path fuel g s c0 b0 acc0 [] e0 es Hk He0 Hw)
    as (more & -> & Hpath).
  exists s, b0, e0, more. split; [unfold edge_at; by rewrite Ht|].
  repeat (split; [done|]). by exists tile, ni, c0.
Qed.

Lemma RecoverShortcut_Recovered fuel g sid es :
  RecoverShortcut fuel g sid = Some es →
  RecoverShortcut_outcome fuel g sid = Some (Recovered es) ∨ es = [sid].
Proof.
  unfold RecoverShortcut.
  destruct (RecoverShortcut_outcome fuel g sid) as [[es'|why]|]; simpl;
    [|by right; congruence|done].
  intros [= <-]. by left.
Qed.

Lemma recovered_from_consecutive g s from a more (i : nat) x y :
  recovered_from g s from a more →
  (a :: more) !! i = Some x → (a :: more) !! S i = Some y →
  leaves_end_of g x y.
Proof.
  intros Hpath. revert i.
  induction Hpath as [|from a da b db rest Ha Hne Hleaves Hb Hsame _ IH];
    intros i; [done|].
  destruct i as [|i]; simpl.
  - by intros [= <-] [= <-].
  - apply IH.
Qed.

Lemma leaves_end_of_forward g a b :
  tiles_addressable g → leaves_end_of g a b →
  AreEdgesConnectedForward g a b = Some true.
Proof.
  intros Haddr (da & tile & ni & Ha & Ht & Hbase & (Hn & Hlo & Hhi) & Hfit).
  unfold edge_at in Ha.
  destruct (GetGraphTile g a) as [ta|] eqn:Hta; [|done]. simpl in Ha.
  unfold AreEdgesConnectedForward, edge_endnode.
  rewrite Hta. simpl. rewrite Ha. simpl.
  assert ((if bool_decide (GraphId.Tile_Base (DirectedEdge.endnode da)
                           ≠ GraphId.Tile_Base a)
           then GetGraphTile g (DirectedEdge.endnode da) else Some ta)
          = Some tile) as ->.
  { case_bool_decide as Hb; [done|].
    rewrite <- Ht, <- Hta.
    unfold GetGraphTile. by injection Hb as -> ->. }
  rewrite andb_false_r.
  assert (GraphId.level b = GraphId.level (DirectedEdge.endnode da)) as ->
    by (by injection Hbase).
  rewrite N.eqb_refl. simpl. rewrite Hn. simpl.
  pose proof (Haddr _ _ Ht) as Hsize.
  unfold add32. rewrite wrap32_small by lia.
  f_equal. apply andb_true_iff. split; [by apply N.leb_le|by apply N.ltb_lt].
Qed.

(** X10. Every edge that [RecoverShortcut] returns after another one leaves
    the end node of that one, and [AreEdgesConnectedForward] says so. *)
Theorem RecoverShortcut_connected (fuel : nat) (g : GraphReader)
    (sid : GraphId.t) (es : list GraphId.t) (i : nat) (a b : GraphId.t) :
  reader_keyed g → tiles_addressable g →
  RecoverShortcut fuel g sid = Some es →
  es !! i = Some a → es !! S i = Some b →
  leaves_end_of g a b ∧ AreEdgesConnectedForward g a b = Some true.
Proof.
  intros Hk Haddr [Hout| ->]%RecoverShortcut_Recovered Ha Hb.
  - destruct (RecoverShortcut_outcome_path fuel g sid es Hk Hout)
      as (s & b0 & e0 & more & _ & _ & -> & Hpath & _).
    pose proof (recovered_from_consecutive g s b0 e0 more i a b Hpath Ha Hb).
    split; [done|]. by apply leaves_end_of_forward.
  - done.
Qed.

Lemma RecoverShortcut_connected_witness :
  leaves_end_of (Chain.graph 30) Chain.e0 Chain.e1
  ∧ AreEdgesConnectedForward (Chain.graph 30) Chain.e0 Chain.e1 = Some true.
Proof.
  apply (RecoverShortcut_connected 5 (Chain.graph 30) Chain.s
           [Chain.e0; Chain.e1; Chain.e2] 0 Chain.e0 Chain.e1
           (Chain_reader_keyed 30)
           (Chain_tiles_addressable 30));
    reflexivity.
Defined.

Lemma recovered_from_last g s from a more :
  recovered_from g s from a more →
  ∃ elast dlast,
    last (a :: more) = Some elast
    ∧ edge_at g elast = Some dlast
    ∧ DirectedEdge.endnode dlast = DirectedEdge.endnode s.
Proof.
  induction 1 as [from a da Ha Hend
                 |from a da b db rest Ha Hne Hleaves Hb Hsame _ IH].
  - by exists a, da.
  - destruct IH as (elast & dlast & Hlast & Hd & Hend).
    exists elast, dlast. split; [|done].
    by rewrite last_cons_cons.
Qed.

(** X11. When [RecoverShortcut] returns something else than the shortcut
    alone, the first edge leaves the begin node of the shortcut and carries a
    bit of the mask of the shortcut, and the last edge ends where the shortcut
    ends. *)
Theorem RecoverShortcut_endpoints (fuel : nat) (g : GraphReader)
    (sid : GraphId.t) (es : list GraphId.t) :
  reader_keyed g →
  RecoverShortcut fuel g sid = Some es →
  es ≠ [sid] →
  ∃ s b0 tile ni e0 d0 elast dlast,
    edge_at g sid = Some s
    ∧ edge_startnode g sid = Some b0
    ∧ GetGraphTile g sid = Some tile
    ∧ head es = Some e0
    ∧ edge_at g e0 = Some d0
    ∧ GraphId.Tile_Base e0 = GraphId.Tile_Base sid
    ∧ leaves_node tile (GraphId.id e0) (GraphId.id b0) ni
    ∧ N.land (DirectedEdge.shortcut s) (DirectedEdge.superseded d0) ≠ 0
    ∧ last es = Some elast
    ∧ edge_at g elast = Some dlast
    ∧ DirectedEdge.endnode dlast = DirectedEdge.endnode s.
Proof.
  intros Hk [Hout| ->]%RecoverShortcut_Recovered Hne; [|done].
  destruct (RecoverShortcut_outcome_path fuel g sid es Hk Hout)
    as (s & b0 & e0 & more & Hs & Hb & -> & Hpath
        & tile & ni & d0 & Ht & Hd0 & Hbase & Hleaves & Hland).
  destruct (recovered_from_last g s b0 e0 more Hpath)
    as (elast & dlast & Hlast & Hdl & Hend).
  by exists s, b0, tile, ni, e0, d0, elast, dlast.
Qed.

Lemma RecoverShortcut_endpoints_witness :
  ∃ s b0 tile ni e0 d0 elast dlast,
    edge_at (Chain.graph 30) Chain.s = Some s
    ∧ edge_startnode (Chain.graph 30) Chain.s = Some b0
    ∧ GetGraphTile (Chain.graph 30) Chain.s = Some tile
    ∧ head [Chain.e0; Chain.e1; Chain.e2] = Some e0
    ∧ edge_at (Chain.graph 30) e0 = Some d0
    ∧ GraphId.Tile_Base e0 = GraphId.Tile_Base Chain.s
    ∧ leaves_node tile (GraphId.id e0) (GraphId.id b0) ni
    ∧ N.land (DirectedEdge.shortcut s) (DirectedEdge.superseded d0) ≠ 0
    ∧ last [Chain.e0; Chain.e1; Chain.e2] = Some elast
    ∧ edge_at (Chain.graph 30) elast = Some dlast
    ∧ DirectedEdge.endnode dlast = DirectedEdge.endnode s.
Proof.
  apply (RecoverShortcut_endpoints 5 (Chain.graph 30) Chain.s
           [Chain.e0; Chain.e1; Chain.e2] (Chain_reader_keyed 30));
    [reflexivity | discriminate].
Defined.

Lemma recovered_from_fingerprint g s from a more (i : nat) e :
  recovered_from g s from a more →
  more !! i = Some e →
  ∃ de, edge_at g e = Some de
        ∧ DirectedEdge.is_shortcut de = false
        ∧ attribute_identical s de.
Proof.
  intros Hpath. revert i.
  induction Hpath as [|from a da b db rest Ha Hne Hleaves Hb Hsame _ IH];
    intros i; [done|].
  destruct i as [|i]; simpl; [|apply IH].
  intros [= <-]. exists db. split; [done|].
  by apply same_enough_inv in Hsame as (_ & ? & ?).
Qed.

(** X12. Every edge that [RecoverShortcut] returns after the first is not a
    shortcut, is open to cars, and has the sign, use, classification,
    roundabout, link, toll, destination-only, unpaved and surface attributes
    of the shortcut. *)
Theorem RecoverShortcut_fingerprint (fuel : nat) (g : GraphReader)
    (sid : GraphId.t) (es : list GraphId.t) (s : DirectedEdge.t)
    (i : nat) (e : GraphId.t) :
  reader_keyed g →
  RecoverShortcut fuel g sid = Some es →
  edge_at g sid = Some s →
  es !! S i = Some e →
  ∃ de, edge_at g e = Some de
        ∧ DirectedEdge.is_shortcut de = false
        ∧ attribute_identical s de.
Proof.
  intros Hk [Hout| ->]%RecoverShortcut_Recovered Hs He; [|done].
  destruct (RecoverShortcut_outcome_path fuel g sid es Hk Hout)
    as (s' & b0 & e0 & more & Hs' & _ & -> & Hpath & _).
  rewrite Hs in Hs'. injection Hs' as <-.
  exact (recovered_from_fingerprint g s b0 e0 more i e Hpath He).
Qed.

Lemma RecoverShortcut_fingerprint_witness :
  ∃ de, edge_at (Chain.graph 30) Chain.e2 = Some de
        ∧ DirectedEdge.is_shortcut de = false
        ∧ attribute_identical ChainHops.sde de.
Proof.
  apply (RecoverShortcut_fingerprint 5 (Chain.graph 30) Chain.s
           [Chain.e0; Chain.e1; Chain.e2] ChainHops.sde 1 Chain.e2
           (Chain_reader_keyed 30));
    reflexivity.
Defined.

Lemma recovered_from_no_return g s from a more :
  recovered_from g s from a more →
  (∀ e1 d1, more !! 0%nat = Some e1 → edge_at g e1 = Some d1 →
            DirectedEdge.endnode d1 ≠ from)
  ∧ (∀ (i : nat) x y dx dy,
       (a :: more) !! i = Some x → (a :: more) !! S (S i) = Some y →
       edge_at g x = Some dx → edge_at g y = Some dy →
       DirectedEdge.endnode dy ≠ DirectedEdge.endnode dx).
Proof.
  induction 1 as [from a da Ha Hend
                 |from a da b db rest Ha Hne Hleaves Hb Hsame _ [IH1 IH2]].
  - split; [done|]. intros [|i]; done.
  - split.
    + intros e1 d1 [= <-] Hd1. rewrite Hb in Hd1. injection Hd1 as <-.
      apply same_enough_inv in Hsame as (Hfrom & _). congruence.
    + intros [|i] x y dx dy; simpl.
      * intros [= <-] Hy Hdx Hdy. rewrite Ha in Hdx. injection Hdx as <-.
        by apply (IH1 y dy).
      * apply IH2.
Qed.

(** X13. The path that [RecoverShortcut] returns never goes back at once to
    the node it came from: the second edge does not end at the begin node of
    the shortcut, and no edge ends where the edge two places before it ends. *)
Theorem RecoverShortcut_no_return (fuel : nat) (g : GraphReader)
    (sid : GraphId.t) (es : list GraphId.t) :
  reader_keyed g →
  RecoverShortcut fuel g sid = Some es →
  (∀ e1 d1 b0,
     es !! 1%nat = Some e1 → edge_at g e1 = Some d1 →
     edge_startnode g sid = Some b0 →
     DirectedEdge.endnode d1 ≠ b0)
  ∧ (∀ (i : nat) x y dx dy,
       es !! i = Some x → es !! S (S i) = Some y →
       edge_at g x = Some dx → edge_at g y = Some dy →
       DirectedEdge.endnode dy ≠ DirectedEdge.endnode dx).
Proof.
  intros Hk [Hout| ->]%RecoverShortcut_Recovered.
  - destruct (RecoverShortcut_outcome_path fuel g sid es Hk Hout)
      as (s & b0 & e0 & more & _ & Hb & -> & Hpath & _).
    destruct (recovered_from_no_return g s b0 e0 more Hpath) as [H1 H2].
    split; [|exact H2].
    intros e1 d1 b0' He1 Hd1 Hb'. rewrite Hb in Hb'. injection Hb' as <-.
    by apply (H1 e1 d1).
  - split; [done|]. intros [|i]; done.
Qed.

Lemma RecoverShortcut_no_return_witness :
  DirectedEdge.endnode ChainHops.e1 ≠ Chain.nd 0
  ∧ DirectedEdge.endnode ChainHops.e2 ≠ DirectedEdge.endnode ChainHops.e0.
Proof.
  destruct (RecoverShortcut_no_return 5 (Chain.graph 30) Chain.s
              [Chain.e0; Chain.e1; Chain.e2] (Chain_reader_keyed 30) eq_refl)
    as [H1 H2].
  split.
  - apply (H1 Chain.e1 ChainHops.e1 (Chain.nd 0)); reflexivity.
  - apply (H2 0%nat Chain.e0 Chain.e2 ChainHops.e0 ChainHops.e2); reflexivity.
Defined.

(** X14. [RecoverShortcut] never returns an empty list: it returns the
    shortcut alone, or a list that starts with the superseded edge found at
    the begin node of the shortcut. *)
Theorem RecoverShortcut_nonempty (fuel : nat) (g : GraphReader)
    (sid : GraphId.t) (es : list GraphId.t) :
  RecoverShortcut fuel g sid = Some es →
  es = [sid]
  ∨ ∃ s st0 e0 more,
      RecoverShortcut_seed g sid = Some (inr (s, st0))
      ∧ st0.2 = [e0]
      ∧ es = e0 :: more.
Proof.
  intros [Hout| ->]%RecoverShortcut_Recovered; [|by left]. right.
  unfold RecoverShortcut_outcome in Hout.
  destruct (RecoverShortcut_seed g sid) as [[why|[s [[[c0 b0] acc0] es0]]]|]
    eqn:Hseed; simpl in Hout; [done| |done].
  destruct (RecoverShortcut_seed_inr g sid s _ Hseed)
    as (tile & c & b & idx & _ & _ & _ & _ & [= -> -> -> ->]).
  apply RecoverShortcut_walk_prefix in Hout as [more ->].
  by eexists s, _, _, more.
Qed.

Lemma RecoverShortcut_nonempty_witness :
  [Chain.e0; Chain.e1; Chain.e2] = [Chain.s]
  ∨ ∃ s st0 e0 more,
      RecoverShortcut_seed (Chain.graph 30) Chain.s = Some (inr (s, st0))
      ∧ st0.2 = [e0]
      ∧ [Chain.e0; Chain.e1; Chain.e2] = e0 :: more.
Proof.
  apply (RecoverShortcut_nonempty 5 (Chain.graph 30) Chain.s
           [Chain.e0; Chain.e1; Chain.e2]).
  reflexivity.
Defined.

(** X15. When the superseded edge at the begin node of the shortcut already
    ends where the shortcut ends, the loop is not entered and only the test
    for a shorter path is made: that edge is returned alone unless it is
    shorter than the shortcut, and so also when it is longer. *)
Theorem RecoverShortcut_single (fuel : nat) (g : GraphReader)
    (sid : GraphId.t) (s c0 : DirectedEdge.t) (b0 : GraphId.t) (acc0 : N)
    (es0 : list GraphId.t) :
  RecoverShortcut_seed g sid = Some (inr (s, (c0, b0, acc0, es0))) →
  DirectedEdge.endnode c0 = DirectedEdge.endnode s →
  ∃ e0,
    es0 = [e0]
    ∧ acc0 = wrap32 (DirectedEdge.length c0)
    ∧ RecoverShortcut fuel g sid
      = Some (if acc0 <? DirectedEdge.length s then [sid] else [e0]).
Proof.
  intros Hseed Hend.
  destruct (RecoverShortcut_seed_inr g sid s _ Hseed)
    as (tile & c & b & idx & _ & _ & _ & _ & [= -> -> -> ->]).
  eexists. split; [done|]. split; [done|].
  unfold RecoverShortcut, RecoverShortcut_outcome. rewrite Hseed. simpl.
  destruct fuel; simpl; rewrite bool_decide_eq_true_2 by done;
    by destruct (_ <? _).
Qed.

Lemma RecoverShortcut_single_witness :
  ∃ e0,
    [Chain.e0] = [e0]
    ∧ 10 = wrap32 (DirectedEdge.length (Chain.road 1 1 10 1 30))
    ∧ RecoverShortcut 5 Single.graph Chain.s
      = Some (if 10 <? DirectedEdge.length (Chain.short 1 0 5 1 30)
              then [Chain.s] else [e0]).
Proof.
  apply (RecoverShortcut_single 5 Single.graph Chain.s
           (Chain.short 1 0 5 1 30) (Chain.road 1 1 10 1 30) (Chain.nd 0) 10
           [Chain.e0]); reflexivity.
Defined.

(** ** The forward walk ends *)

(** More passes than the walk needs do not change what it returns. *)
Lemma RecoverShortcut_walk_more_fuel fuel g s c b acc es o :
  RecoverShortcut_walk fuel g s c b acc es = Some o →
  RecoverShortcut_walk (S fuel) g s c b acc es = Some o.
Proof.
  revert c b acc es. induction fuel as [|fuel IH]; intros c b acc es H.
  - simpl in *. by case_bool_decide.
  - remember (S fuel) as fuel' eqn:E. simpl. subst fuel'. simpl in H.
    case_bool_decide; [done|].
    destruct (GetGraphTile g _) as [tile|]; [|done]. simpl in *.
    destruct (GetDirectedEdges tile _) as [[first run]|]; simpl in *; [|done].
    destruct (find_same_enough b s first run) as [[idx edge]|]; [|done].
    destruct (_ <? add32 _ _); [done|]. by apply IH.
Qed.

Lemma RecoverShortcut_walk_fuel_le fuel fuel' g s c b acc es o :
  (fuel ≤ fuel')%nat →
  RecoverShortcut_walk fuel g s c b acc es = Some o →
  RecoverShortcut_walk fuel' g s c b acc es = Some o.
Proof.
  induction 1 as [|fuel' _ IH]; [done|].
  intros H. by apply RecoverShortcut_walk_more_fuel, IH.
Qed.

(** One pass with an accumulated length that the next edge takes past the
    length of the shortcut returns. *)
Lemma RecoverShortcut_walk_pass g s fuel c b acc es key t i :
  runs_resolve g → lengths_positive g → lengths_bounded g →
  DirectedEdge.length s ≤ kMaxEdgeLength →
  tiles g !! key = Some t → GraphTile.directededges t !! i = Some c →
  acc ≤ kMaxEdgeLength →
  (acc ≤ DirectedEdge.length s →
   ∀ tile (j : nat) edge,
     GetGraphTile g (DirectedEdge.endnode c) = Some tile →
     GraphTile.directededges tile !! j = Some edge →
     acc + DirectedEdge.length edge ≤ DirectedEdge.length s →
     is_Some (RecoverShortcut_walk fuel g s edge
                (GraphId.set_id (GraphTile.graphid tile)
                   (GraphId.id (DirectedEdge.endnode c)))
                (acc + DirectedEdge.length edge)
                (es ++ [GraphId.set_id (GraphTile.graphid tile) (N.of_nat j)]))) →
  is_Some (RecoverShortcut_walk (S fuel) g s c b acc es).
Proof.
  intros Hres Hpos Hbnd Hs Ht Hc Hacc Hnext. simpl.
  case_bool_decide; [by destruct (_ <? _)|].
  destruct (GetGraphTile g (DirectedEdge.endnode c)) as [tile|] eqn:Htile;
    simpl; [|done].
  destruct (Hres key t i c tile Ht Hc Htile) as [[first run] Hr].
  rewrite Hr. simpl.
  destruct (find_same_enough b s first run) as [[idx edge]|] eqn:Hf; [|done].
  apply GetDirectedEdges_Some in Hr as (ni & Hni & -> & Hrun).
  apply find_same_enough_Some in Hf as (j & -> & Hj & _).
  pose proof (node_run_lookup _ _ _ _ _ Hrun Hj) as Hde.
  unfold GraphTile.directededge in Hde.
  pose proof (Hbnd _ _ _ _ Htile Hde) as Hlen.
  pose proof (Hpos _ _ _ _ Htile Hde) as Hlen'.
  unfold add32. rewrite wrap32_small by (unfold kMaxEdgeLength in *; lia).
  destruct (_ <? _) eqn:E; [done|]. apply N.ltb_ge in E.
  specialize (Hnext ltac:(lia) tile _ edge eq_refl Hde E).
  by rewrite N2Nat.id in Hnext.
Qed.

Lemma RecoverShortcut_walk_enough g s :
  runs_resolve g → lengths_positive g → lengths_bounded g →
  DirectedEdge.length s ≤ kMaxEdgeLength →
  ∀ fuel c b acc es key t i,
    tiles g !! key = Some t → GraphTile.directededges t !! i = Some c →
    acc ≤ DirectedEdge.length s →
    (N.to_nat (DirectedEdge.length s) + 1 ≤ N.to_nat acc + fuel)%nat →
    is_Some (RecoverShortcut_walk fuel g s c b acc es).
Proof.
  intros Hres Hpos Hbnd Hs.
  induction fuel as [|fuel IH]; intros c b acc es key t i Ht Hc Hacc Hfuel;
    [lia|].
  apply (RecoverShortcut_walk_pass g s fuel c b acc es key t i); try done.
  { lia. }
  intros _ tile j edge Htile Hedge Hle.
  pose proof (Hpos _ _ _ _ Htile Hedge).
  apply (IH _ _ _ _ _ tile j Htile Hedge Hle). lia.
Qed.

(** X16. On a graph whose edges have a length, that fits its field, and whose
    end nodes have their edges within their tile, as many passes as the length
    of the shortcut are enough for [RecoverShortcut] to return, and more
    passes return the same. *)
Theorem RecoverShortcut_terminates (g : GraphReader) (sid : GraphId.t)
    (s : DirectedEdge.t) (fuel : nat) :
  runs_resolve g → lengths_positive g → lengths_bounded g →
  edge_at g sid = Some s →
  is_Some (RecoverShortcut_seed g sid) →
  (N.to_nat (DirectedEdge.length s) ≤ fuel)%nat →
  is_Some (RecoverShortcut fuel g sid)
  ∧ RecoverShortcut fuel g sid
    = RecoverShortcut (N.to_nat (DirectedEdge.length s)) g sid.
Proof.
  intros Hres Hpos Hbnd Hs [seed Hseed] Hfuel.
  assert (∀ k, (N.to_nat (DirectedEdge.length s) ≤ k)%nat →
               is_Some (RecoverShortcut_outcome k g sid)) as Hsome.
  { intros k Hk. unfold RecoverShortcut_outcome. rewrite Hseed. simpl.
    destruct seed as [why|[s' [[[c0 b0] acc0] es0]]]; [done|].
    destruct (RecoverShortcut_seed_inr g sid s' _ Hseed)
      as (tile & c & b & idx & Ht & Hs' & Hc & _ & [= -> -> -> ->]).
    unfold edge_at in Hs. rewrite Ht in Hs. simpl in Hs.
    rewrite Hs' in Hs. injection Hs as ->.
    unfold GraphTile.directededge in Hs', Hc.
    pose proof (Hbnd _ _ _ _ Ht Hs') as HL.
    pose proof (Hpos _ _ _ _ Ht Hs') as HL'.
    pose proof (Hbnd _ _ _ _ Ht Hc) as Hc0.
    pose proof (Hpos _ _ _ _ Ht Hc) as Hc0'.
    rewrite wrap32_small by (unfold kMaxEdgeLength in *; lia).
    destruct (N.le_gt_cases (DirectedEdge.length c) (DirectedEdge.length s))
      as [Hle|Hgt].
    - apply (RecoverShortcut_walk_enough g s Hres Hpos Hbnd HL k c b _ _
               _ tile _ Ht Hc Hle). lia.
    - destruct k as [|k]; [lia|].
      apply (RecoverShortcut_walk_pass g s k c b _ _ _ tile _
               Hres Hpos Hbnd HL Ht Hc Hc0). lia. }
  assert (∀ k o, (N.to_nat (DirectedEdge.length s) ≤ k)%nat →
            RecoverShortcut_outcome (N.to_nat (DirectedEdge.length s)) g sid
            = Some o →
            RecoverShortcut_outcome k g sid = Some o) as Hsame.
  { intros k o Hk. unfold RecoverShortcut_outcome. rewrite Hseed. simpl.
    destruct seed as [why|[s' [[[c0 b0] acc0] es0]]]; [done|].
    by apply RecoverShortcut_walk_fuel_le. }
  destruct (Hsome _ (Nat.le_refl _)) as [o Ho].
  pose proof (Hsame fuel o Hfuel Ho) as Ho'.
  unfold RecoverShortcut. rewrite Ho, Ho'. split; [|done].
  by destruct o.
Qed.

Lemma lengths_positive_singleton key tl :
  Forall (λ de, 0 < DirectedEdge.length de) (GraphTile.directededges tl) →
  lengths_positive (mkGraphReader {[ key := tl ]}).
Proof.
  intros H k t i de Hk Hi. simpl in Hk.
  apply lookup_singleton_Some in Hk as [_ <-].
  by apply (proj1 (Forall_lookup _ _) H i de).
Qed.

Lemma runs_resolve_singleton key tl :
  Forall (λ de, is_Some (GetDirectedEdges tl
                           (GraphId.id (DirectedEdge.endnode de))))
    (GraphTile.directededges tl) →
  runs_resolve (mkGraphReader {[ key := tl ]}).
Proof.
  intros H k t i de t' Hk Hi Ht'. simpl in Hk.
  apply lookup_singleton_Some in Hk as [_ <-].
  apply GetGraphTile_singleton in Ht' as [_ ->].
  by apply (proj1 (Forall_lookup _ _) H i de).
Qed.

Lemma Chain_lengths_positive spd : lengths_positive (Chain.graph spd).
Proof.
  apply lengths_positive_singleton. simpl. repeat constructor.
Qed.

Lemma Chain_runs_resolve spd : runs_resolve (Chain.graph spd).
Proof.
  apply runs_resolve_singleton. simpl.
  repeat (constructor; [by eexists|]). constructor.
Qed.

Lemma RecoverShortcut_terminates_witness :
  is_Some (RecoverShortcut 700 (Chain.graph 30) Chain.s)
  ∧ RecoverShortcut 700 (Chain.graph 30) Chain.s
    = RecoverShortcut (N.to_nat (DirectedEdge.length ChainHops.sde))
        (Chain.graph 30) Chain.s.
Proof.
  apply (RecoverShortcut_terminates (Chain.graph 30) Chain.s ChainHops.sde 700
           (Chain_runs_resolve 30) (Chain_lengths_positive 30)
           (Chain_lengths_bounded 30) eq_refl).
  - by eexists.
  - vm_compute. lia.
Defined.

(** ** The density at the start of an edge *)

(** X17. In a graph that keeps the opposing-edge invariant, the density that
    [GetEdgeDensity] gives for an edge that is not a transit line is that of
    the node the edge leaves. *)
Theorem GetEdgeDensity_begin_node (g : GraphReader) (e : GraphId.t)
    tile de k ni tile' ni' :
  opposing_consistent g →
  GetGraphTile g e = Some tile →
  GraphTile.directededge tile (GraphId.id e) = Some de →
  leaves_node tile (GraphId.id e) k ni →
  DirectedEdge.IsTransitLine de = false →
  GetGraphTile g (DirectedEdge.endnode de) = Some tile' →
  GraphTile.node tile' (GraphId.id (DirectedEdge.endnode de)) = Some ni' →
  GraphId.level (DirectedEdge.endnode de) < 7 →
  GetEdgeDensity g e = Some (NodeInfo.density ni).
Proof.
  intros Hwf Ht Hd Hk Htr Ht' Hn' Hl.
  destruct (Hwf e tile de k ni tile' ni' Ht Hd Hk Ht' Hn')
    as (de' & Hd' & Hend & _ & _).
  unfold GetEdgeDensity.
  rewrite (GetOpposingEdge_resolved g e tile de tile' ni' de') by done.
  simpl. rewrite Hend, GetGraphTile_set_id, Ht. simpl.
  destruct Hk as (Hk & _ & _). by rewrite Hk.
Qed.

Lemma GetEdgeDensity_begin_node_witness :
  GetEdgeDensity Station.graph Station.road' = Some 9.
Proof.
  apply (GetEdgeDensity_begin_node Station.graph Station.road'
           Station.tile (Station.line kRoad 0 1) 2 (Station.node 3 1 9)
           Station.tile (Station.node 0 2 5)).
  - intros [l t i] tile de k ni tile' ni' Ht Hd (Hk & Hlo & Hhi) Ht' Hn'.
    apply GetGraphTile_singleton in Ht as [Hkey ->].
    apply GetGraphTile_singleton in Ht' as [Hkey' ->].
    simpl in Hkey. injection Hkey as <- <-.
    unfold GraphTile.directededge, GraphTile.node in *.
    simpl in Hd, Hk, Hlo, Hhi.
    enum_index Hk k; injection Hk as <-; simpl in Hlo, Hhi;
      enum_index Hd i; try lia;
      injection Hd as <-; simpl in Hn'; injection Hn' as <-;
      (eexists; split; [reflexivity|]); done.
  - reflexivity.
  - reflexivity.
  - split; [reflexivity|]. split; vm_compute; congruence.
  - reflexivity.
  - reflexivity.
  - reflexivity.
  - reflexivity.
Defined.

(** X18. The density is 0 whenever the edge has no opposing edge to go by: its
    tile does not resolve, it is a transit line, or the tile of its end node
    does not resolve. *)
Theorem GetEdgeDensity_unavailable (g : GraphReader) (e : GraphId.t) :
  GetGraphTile g e = None
  ∨ (∃ tile de,
       GetGraphTile g e = Some tile
       ∧ GraphTile.directededge tile (GraphId.id e) = Some de
       ∧ (DirectedEdge.IsTransitLine de = true
          ∨ GetGraphTile g (DirectedEdge.endnode de) = None)) →
  GetEdgeDensity g e = Some 0.
Proof.
  unfold GetEdgeDensity, GetOpposingEdge, GetOpposingEdgeId.
  intros [Hnone|(tile & de & Ht & Hd & Hcase)].
  - by rewrite Hnone.
  - rewrite Ht. simpl. rewrite Hd. simpl.
    destruct (DirectedEdge.IsTransitLine de) eqn:Htr; [done|].
    destruct Hcase as [|Hnone]; [done|]. by rewrite Hnone.
Qed.

Lemma GetEdgeDensity_unavailable_witness :
  GetEdgeDensity Station.graph Station.rail = Some 0.
Proof.
  apply GetEdgeDensity_unavailable. right.
  exists Station.tile, (Station.line kRail 1 0).
  split; [reflexivity|]. split; [reflexivity|]. left. reflexivity.
Defined.

(** ** The two nodes of an edge *)

(** X19. For an edge that has an opposing edge, and whose [leaves_tile] flag
    is down only when the tile handed in is that of its end node,
    [GetDirectedEdgeNodes] gives the end node of the opposing edge as the
    start node, and the end node of the edge; when the edge leaves its tile
    for one that does not resolve, the start node is the invalid id and the
    end node is still given. *)
Theorem GetDirectedEdgeNodes_opposing (g : GraphReader) (e : GraphId.t)
    (tile : GraphTile.t) (de : DirectedEdge.t) :
  GetGraphTile g e = Some tile →
  GraphTile.directededge tile (GraphId.id e) = Some de →
  (∀ o, GetOpposingEdge g e = Some (Some o) →
        (DirectedEdge.leaves_tile de = false →
         GetGraphTile g (DirectedEdge.endnode de) = Some tile) →
        GetDirectedEdgeNodes g (Some tile) de
        = Some (DirectedEdge.endnode o, DirectedEdge.endnode de))
  ∧ (DirectedEdge.leaves_tile de = true →
     GetGraphTile g (DirectedEdge.endnode de) = None →
     GetDirectedEdgeNodes g (Some tile) de
     = Some (GraphId.invalid, DirectedEdge.endnode de)).
Proof.
  intros Ht Hd. split.
  - intros o Hopp Hflag.
    destruct (GetOpposingEdge_Some g e o Hopp)
      as (t0 & de0 & t' & ni & Ht0 & Hd0 & _ & Ht' & Hn & Ho).
    rewrite Ht in Ht0. injection Ht0 as <-.
    rewrite Hd in Hd0. injection Hd0 as <-.
    unfold GetDirectedEdgeNodes.
    destruct (DirectedEdge.leaves_tile de) eqn:Hl.
    + rewrite Ht'. simpl. rewrite Hn. simpl. by rewrite Ho.
    + rewrite Hflag in Ht' by done. injection Ht' as <-.
      simpl. rewrite Hn. simpl. by rewrite Ho.
  - intros Hl Hnone. unfold GetDirectedEdgeNodes. by rewrite Hl, Hnone.
Qed.

Lemma GetDirectedEdgeNodes_opposing_witness :
  GetDirectedEdgeNodes (Chain.graph 30) (Some (Chain.tile 30)) ChainHops.e1
  = Some (Chain.nd 1, Chain.nd 2).
Proof.
  apply (proj1 (GetDirectedEdgeNodes_opposing (Chain.graph 30) Chain.e1
                  (Chain.tile 30) ChainHops.e1 eq_refl eq_refl) ChainHops.o1);
    reflexivity.
Defined.

(** ** What the minimum bounding box holds *)

Lemma Contains_spec b p :
  AABB2.Contains b p = true ↔
  (AABB2.minx b <= fst p ∧ AABB2.miny b <= snd p
   ∧ fst p <= AABB2.maxx b ∧ snd p <= AABB2.maxy b)%Q.
Proof.
  unfold AABB2.Contains. rewrite !andb_true_iff, !Qle_bool_iff. tauto.
Qed.

Lemma Qle_bool_cases (x y : Q) :
  (Qle_bool x y = true ∧ (x <= y)%Q) ∨ (Qle_bool x y = false ∧ (y < x)%Q).
Proof.
  destruct (Qle_bool x y) eqn:E.
  - left. split; [done|]. by apply Qle_bool_iff.
  - right. split; [done|]. apply Qnot_le_lt. intros H%Qle_bool_iff. congruence.
Qed.

(** A box only grows when it is expanded, and holds the point it was
    expanded by. *)
Lemma Expand_bounds b p :
  (AABB2.minx (AABB2.Expand b p) <= AABB2.minx b
   ∧ AABB2.miny (AABB2.Expand b p) <= AABB2.miny b
   ∧ AABB2.maxx b <= AABB2.maxx (AABB2.Expand b p)
   ∧ AABB2.maxy b <= AABB2.maxy (AABB2.Expand b p))%Q
  ∧ AABB2.Contains (AABB2.Expand b p) p = true.
Proof.
  rewrite Contains_spec. unfold AABB2.Expand. simpl.
  destruct (Qle_bool_cases (AABB2.minx b) (fst p)) as [[-> ?]|[-> ?]],
           (Qle_bool_cases (AABB2.miny b) (snd p)) as [[-> ?]|[-> ?]],
           (Qle_bool_cases (fst p) (AABB2.maxx b)) as [[-> ?]|[-> ?]],
           (Qle_bool_cases (snd p) (AABB2.maxy b)) as [[-> ?]|[-> ?]];
    repeat split; lra.
Qed.

Lemma Expand_all_bounds pts b :
  (AABB2.minx (foldl AABB2.Expand b pts) <= AABB2.minx b
   ∧ AABB2.miny (foldl AABB2.Expand b pts) <= AABB2.miny b
   ∧ AABB2.maxx b <= AABB2.maxx (foldl AABB2.Expand b pts)
   ∧ AABB2.maxy b <= AABB2.maxy (foldl AABB2.Expand b pts))%Q
  ∧ ∀ p, p ∈ pts → AABB2.Contains (foldl AABB2.Expand b pts) p = true.
Proof.
  revert b. induction pts as [|q pts IH]; intros b; simpl.
  - split; [repeat split; lra|]. intros p Hp. by apply elem_of_nil in Hp.
  - destruct (IH (AABB2.Expand b q)) as [Hb Hin].
    destruct (Expand_bounds b q) as [Hq Hqin].
    split; [repeat split; lra|].
    intros p [->|Hp]%elem_of_cons; [|by apply Hin].
    apply Contains_spec in Hqin. apply Contains_spec. lra.
Qed.

Lemma grown_refl b : grown b b.
Proof. repeat split; lra. Qed.

Lemma grown_trans b1 b2 b3 : grown b1 b2 → grown b2 b3 → grown b1 b3.
Proof. unfold grown. intros ? ?. repeat split; lra. Qed.

Lemma grown_Contains b b' q :
  grown b b' → AABB2.Contains b q = true → AABB2.Contains b' q = true.
Proof. unfold grown. rewrite !Contains_spec. intros ? ?. lra. Qed.

Lemma grown_started b b' : grown b b' → started b → started b'.
Proof. unfold grown, started. intros ? ?. lra. Qed.

Lemma expand_edges_covers tile run b b' :
  expand_edges tile run b = Some b' →
  grown b b'
  ∧ ∀ de pts p,
      de ∈ run →
      GraphTile.shape tile (DirectedEdge.edgeinfo_offset de) = Some pts →
      p ∈ pts → AABB2.Contains b' p = true.
Proof.
  revert b. induction run as [|e run IH]; intros b; simpl.
  - intros [= <-]. split; [apply grown_refl|].
    intros de pts p Hde. by apply elem_of_nil in Hde.
  - destruct (GraphTile.shape tile _) as [shape|] eqn:Hs; simpl; [|done].
    intros [Hg Hin]%IH.
    destruct (Expand_all_bounds shape b) as [Hb Hshape].
    split; [by eapply grown_trans|].
    intros de pts p [->|Hde]%elem_of_cons Hpts Hp.
    + rewrite Hs in Hpts. injection Hpts as <-.
      eapply grown_Contains; [exact Hg|]. by apply Hshape.
    + by eapply Hin.
Qed.

Lemma started_valid b : started b → PointLL_IsValid (AABB2.minpt b) = true.
Proof.
  intros [Hx Hy]. unfold PointLL_IsValid. simpl.
  apply andb_true_iff. split; apply negb_true_iff.
  - destruct (Qeq_bool _ _) eqn:E; [|done]. apply Qeq_bool_iff in E. lra.
  - destruct (Qeq_bool _ _) eqn:E; [|done]. apply Qeq_bool_iff in E. lra.
Qed.

Lemma default_not_valid :
  PointLL_IsValid
    (AABB2.minpt (AABB2.of_points PointLL_default PointLL_default)) = false.
Proof. reflexivity. Qed.

Lemma scan_nodes_covers tile bb nodes min_bb r :
  (AABB2.maxx bb < INVALID_LL)%Q → (AABB2.maxy bb < INVALID_LL)%Q →
  min_bb = AABB2.of_points PointLL_default PointLL_default ∨ started min_bb →
  scan_nodes tile bb nodes min_bb = Some r →
  (r = AABB2.of_points PointLL_default PointLL_default ∨ started r)
  ∧ (started min_bb → grown min_bb r)
  ∧ (∀ p, shape_point_inside tile bb nodes p →
          started r ∧ AABB2.Contains r p = true).
Proof.
  intros Hx Hy. revert min_bb.
  induction nodes as [|node rest IH]; intros min_bb Hinit; simpl.
  - intros [= <-]. split; [done|]. split; [intros _; apply grown_refl|].
    intros p (node & ? & ? & ? & Hn & _). by apply elem_of_nil in Hn.
  - destruct (AABB2.Contains bb _) eqn:Hin.
    + set (node_ll := NodeInfo.latlng node (GraphTile.base_ll tile)) in *.
      set (min_bb1 := if negb (PointLL_IsValid (AABB2.minpt min_bb))
                      then AABB2.of_points node_ll node_ll else min_bb).
      assert (started min_bb1 ∧ (started min_bb → min_bb1 = min_bb))
        as [Hst1 Hkeep].
      { unfold min_bb1. destruct Hinit as [->|Hst].
        - rewrite default_not_valid. simpl. split.
          + apply Contains_spec in Hin.
            unfold started, AABB2.of_points. cbn [AABB2.minx AABB2.miny].
            destruct Hin as (_ & _ & ? & ?). split; lra.
          + intros [Hbad _]. simpl in Hbad. by apply Qlt_irrefl in Hbad.
        - rewrite (started_valid _ Hst). simpl. done. }
      destruct (node_run tile node) as [run|] eqn:Hrun; simpl; [|done].
      destruct (expand_edges tile run min_bb1) as [min_bb2|] eqn:He;
        simpl; [|done].
      destruct (expand_edges_covers _ _ _ _ He) as [Hg2 Hshape].
      pose proof (grown_started _ _ Hg2 Hst1) as Hst2.
      intros Hscan.
      destruct (IH min_bb2 (or_intror Hst2) Hscan) as (Hr & Hg & Hrest).
      split; [done|]. split.
      * intros Hst. rewrite <- (Hkeep Hst). eapply grown_trans; [exact Hg2|].
        by apply Hg.
      * intros p (n & run' & de & pts & Hn & Hnin & Hrun' & Hde & Hpts & Hp).
        apply elem_of_cons in Hn as [->|Hn].
        -- rewrite Hrun in Hrun'. injection Hrun' as <-.
           split; [eapply grown_started; [by apply Hg|done]|].
           eapply grown_Contains; [by apply Hg|]. by eapply Hshape.
        -- apply Hrest. by exists n, run', de, pts.
    + intros Hscan. destruct (IH min_bb Hinit Hscan) as (Hr & Hg & Hrest).
      split; [done|]. split; [done|].
      intros p (n & run' & de & pts & Hn & Hnin & Hrun' & Hde & Hpts & Hp).
      apply elem_of_cons in Hn as [->|Hn]; [congruence|].
      apply Hrest. by exists n, run', de, pts.
Qed.

Lemma scan_tiles_covers g bb ids min_bb r :
  (AABB2.maxx bb < INVALID_LL)%Q → (AABB2.maxy bb < INVALID_LL)%Q →
  min_bb = AABB2.of_points PointLL_default PointLL_default ∨ started min_bb →
  scan_tiles g bb ids min_bb = Some r →
  (r = AABB2.of_points PointLL_default PointLL_default ∨ started r)
  ∧ (started min_bb → grown min_bb r)
  ∧ (∀ tile_id tile p,
       tile_id ∈ ids → GetGraphTile g tile_id = Some tile →
       shape_point_inside tile bb (GraphTile.nodes tile) p →
       started r ∧ AABB2.Contains r p = true).
Proof.
  intros Hx Hy. revert min_bb.
  induction ids as [|id rest IH]; intros min_bb Hinit; simpl.
  - intros [= <-]. split; [done|]. split; [intros _; apply grown_refl|].
    intros ? ? ? Hi. by apply elem_of_nil in Hi.
  - destruct (GetGraphTile g id) as [tile|] eqn:Ht.
    + destruct (scan_nodes tile bb _ min_bb) as [min_bb'|] eqn:Hs;
        simpl; [|done].
      destruct (scan_nodes_covers _ _ _ _ _ Hx Hy Hinit Hs)
        as (Hinit' & Hg' & Hcov').
      intros Hscan. destruct (IH min_bb' Hinit' Hscan) as (Hr & Hg & Hrest).
      split; [done|]. split.
      * intros Hst. eapply grown_trans; [by apply Hg'|].
        apply Hg. eapply grown_started; [by apply Hg'|done].
      * intros tile_id tile' p [->|Hi]%elem_of_cons Ht' Hp.
        -- rewrite Ht in Ht'. injection Ht' as <-.
           destruct (Hcov' p Hp) as [Hst' Hc].
           split; [eapply grown_started; [by apply Hg|done]|].
           eapply grown_Contains; [by apply Hg|done].
        -- by eapply Hrest.
    + intros Hscan. destruct (IH min_bb Hinit Hscan) as (Hr & Hg & Hrest).
      split; [done|]. split; [done|].
      intros tile_id tile' p [->|Hi]%elem_of_cons Ht' Hp; [congruence|].
      by eapply Hrest.
Qed.

(** X20. When the box asked about lies below the invalid coordinate, the box
    that [GetMinimumBoundingBox] returns holds every point of the shape of
    every edge that leaves a node lying in the box asked about, in every tile
    that the box meets and that resolves. *)
Theorem GetMinimumBoundingBox_covers
    (GetGraphIds : AABB2.t → list GraphId.t) (g : GraphReader)
    (bb r : AABB2.t) :
  (AABB2.maxx bb < INVALID_LL)%Q → (AABB2.maxy bb < INVALID_LL)%Q →
  GetMinimumBoundingBox GetGraphIds g bb = Some r →
  ∀ tile_id tile node run de pts p,
    tile_id ∈ GetGraphIds bb →
    GetGraphTile g tile_id = Some tile →
    node ∈ GraphTile.nodes tile →
    AABB2.Contains bb (NodeInfo.latlng node (GraphTile.base_ll tile)) = true →
    node_run tile node = Some run →
    de ∈ run →
    GraphTile.shape tile (DirectedEdge.edgeinfo_offset de) = Some pts →
    p ∈ pts →
    PointLL_IsValid (AABB2.minpt r) = true ∧ AABB2.Contains r p = true.
Proof.
  intros Hx Hy Hr tile_id tile node run de pts p Hid Ht Hn Hin Hrun Hde Hpts Hp.
  unfold GetMinimumBoundingBox in Hr.
  destruct (scan_tiles_covers g bb _ _ r Hx Hy (or_introl eq_refl) Hr)
    as (_ & _ & Hcov).
  destruct (Hcov tile_id tile p Hid Ht) as [Hst Hc].
  { by exists node, run, de, pts. }
  split; [by apply started_valid|done].
Qed.

Lemma GetMinimumBoundingBox_covers_witness :
  PointLL_IsValid (AABB2.minpt (AABB2.mk (1#10) (1#10) (4#10) (1#10))) = true
  ∧ AABB2.Contains (AABB2.mk (1#10) (1#10) (4#10) (1#10)) (4#10, 1#10)%Q = true.
Proof.
  apply (GetMinimumBoundingBox_covers (λ _, [GraphId.make 0 0 0])
           (Chain.graph 30) (AABB2.mk 0 0 1 1)
           (AABB2.mk (1#10) (1#10) (4#10) (1#10))
           eq_refl eq_refl eq_refl
           (GraphId.make 0 0 0) (Chain.tile 30) (Chain.node 2 2 (2#10) (1#10))
           [ChainHops.o0; ChainHops.e1] ChainHops.e1
           [(1#10, 1#10); (4#10, 1#10)]%Q (4#10, 1#10)%Q).
  - apply list_elem_of_here.
  - reflexivity.
  - apply list_elem_of_further, list_elem_of_here.
  - reflexivity.
  - reflexivity.
  - apply list_elem_of_further, list_elem_of_here.
  - reflexivity.
  - apply list_elem_of_further, list_elem_of_here.
Defined.

Lemma spanned_Expand (S : PointLL → Prop) b p :
  spanned S b → S p → spanned S (AABB2.Expand b p).
Proof.
  intros (H1 & H2 & H3 & H4) Hp. unfold AABB2.Expand.
  repeat split; simpl; destruct (Qle_bool _ _); (done || by exists p).
Qed.

Lemma spanned_Expand_all (S : PointLL → Prop) pts b :
  spanned S b → (∀ p, p ∈ pts → S p) → spanned S (foldl AABB2.Expand b pts).
Proof.
  revert b. induction pts as [|q pts IH]; intros b Hb Hpts; simpl; [done|].
  apply IH.
  - apply spanned_Expand; [done|]. apply Hpts, list_elem_of_here.
  - intros p Hp. by apply Hpts, list_elem_of_further.
Qed.

Lemma expand_edges_spanned (S : PointLL → Prop) tile run b b' :
  (∀ de pts p,
     de ∈ run →
     GraphTile.shape tile (DirectedEdge.edgeinfo_offset de) = Some pts →
     p ∈ pts → S p) →
  spanned S b →
  expand_edges tile run b = Some b' →
  spanned S b'.
Proof.
  revert b. induction run as [|e run IH]; intros b HS Hb; simpl.
  - by intros [= <-].
  - destruct (GraphTile.shape tile _) as [shape|] eqn:Hs; simpl; [|done].
    apply IH.
    + intros de pts p Hde. apply HS. by apply list_elem_of_further.
    + apply spanned_Expand_all; [done|].
      intros p Hp. eapply HS; [apply list_elem_of_here|done|done].
Qed.

Lemma scan_nodes_spanned (S : PointLL → Prop) tile bb nodes min_bb r :
  (AABB2.maxx bb < INVALID_LL)%Q → (AABB2.maxy bb < INVALID_LL)%Q →
  (∀ p, point_inside tile bb nodes p → S p) →
  min_bb = AABB2.of_points PointLL_default PointLL_default
  ∨ (started min_bb ∧ spanned S min_bb) →
  scan_nodes tile bb nodes min_bb = Some r →
  r = AABB2.of_points PointLL_default PointLL_default
  ∨ (started r ∧ spanned S r).
Proof.
  intros Hx Hy. revert min_bb.
  induction nodes as [|node rest IH]; intros min_bb HS Hinit; simpl.
  - by intros [= <-].
  - assert (∀ p, point_inside tile bb rest p → S p) as HSrest.
    { intros p [(n & Hn & Hnin & ->)|(n & run & de & pts & Hn & Hrest)];
        apply HS; [left; exists n|right; exists n, run, de, pts];
        (split; [by apply list_elem_of_further|done]). }
    destruct (AABB2.Contains bb _) eqn:Hin; [|by apply IH].
    destruct (node_run tile node) as [run|] eqn:Hrun; simpl; [|done].
    destruct (expand_edges tile run _) as [min_bb2|] eqn:He; simpl; [|done].
    apply IH; [done|]. right.
    assert (S (NodeInfo.latlng node (GraphTile.base_ll tile))) as Hnode.
    { apply HS. left. exists node. split; [apply list_elem_of_here|done]. }
    assert (∀ de pts p,
              de ∈ run →
              GraphTile.shape tile (DirectedEdge.edgeinfo_offset de) = Some pts →
              p ∈ pts → S p) as Hshape.
    { intros de pts p Hde Hpts Hp. apply HS. right.
      exists node, run, de, pts. split; [apply list_elem_of_here|done]. }
    destruct Hinit as [->|[Hst Hsp]].
    + rewrite default_not_valid in He. simpl in He.
      destruct (expand_edges_covers _ _ _ _ He) as [Hg2 _]. split.
      * eapply grown_started; [exact Hg2|].
        apply Contains_spec in Hin.
        unfold started, AABB2.of_points. cbn [AABB2.minx AABB2.miny].
        destruct Hin as (_ & _ & ? & ?). split; lra.
      * eapply expand_edges_spanned; [exact Hshape| |exact He].
        unfold spanned.
        split; [|split; [|split]];
          by exists (NodeInfo.latlng node (GraphTile.base_ll tile)).
    + rewrite (started_valid _ Hst) in He. simpl in He.
      destruct (expand_edges_covers _ _ _ _ He) as [Hg2 _]. split.
      * by eapply grown_started.
      * by eapply expand_edges_spanned.
Qed.

Lemma scan_tiles_spanned (S : PointLL → Prop) g bb ids min_bb r :
  (AABB2.maxx bb < INVALID_LL)%Q → (AABB2.maxy bb < INVALID_LL)%Q →
  (∀ tile_id tile p,
     tile_id ∈ ids → GetGraphTile g tile_id = Some tile →
     point_inside tile bb (GraphTile.nodes tile) p → S p) →
  min_bb = AABB2.of_points PointLL_default PointLL_default
  ∨ (started min_bb ∧ spanned S min_bb) →
  scan_tiles g bb ids min_bb = Some r →
  r = AABB2.of_points PointLL_default PointLL_default
  ∨ (started r ∧ spanned S r).
Proof.
  intros Hx Hy. revert min_bb.
  induction ids as [|id rest IH]; intros min_bb HS Hinit; simpl.
  - by intros [= <-].
  - assert (∀ tile_id tile p,
              tile_id ∈ rest → GetGraphTile g tile_id = Some tile →
              point_inside tile bb (GraphTile.nodes tile) p → S p) as HSrest.
    { intros tile_id tile p Hi. apply HS. by apply list_elem_of_further. }
    destruct (GetGraphTile g id) as [tile|] eqn:Ht; [|by apply IH].
    destruct (scan_nodes tile bb _ min_bb) as [min_bb'|] eqn:Hs; simpl; [|done].
    apply IH; [done|].
    eapply scan_nodes_spanned; [done | done | | exact Hinit | exact Hs].
    intros p Hp. eapply HS; [apply list_elem_of_here|done|done].
Qed.

(** X21. When the box asked about lies below the invalid coordinate, the box
    that [GetMinimumBoundingBox] returns is the default one, or each of its
    four bounds is a coordinate of a node lying in the box asked about or of a
    point of the shape of an edge that leaves such a node: it is no larger
    than these points make it. *)
Theorem GetMinimumBoundingBox_tight
    (GetGraphIds : AABB2.t → list GraphId.t) (g : GraphReader)
    (bb r : AABB2.t) :
  (AABB2.maxx bb < INVALID_LL)%Q → (AABB2.maxy bb < INVALID_LL)%Q →
  GetMinimumBoundingBox GetGraphIds g bb = Some r →
  r = AABB2.of_points PointLL_default PointLL_default
  ∨ spanned
      (λ p, ∃ tile_id tile,
              tile_id ∈ GetGraphIds bb
              ∧ GetGraphTile g tile_id = Some tile
              ∧ point_inside tile bb (GraphTile.nodes tile) p)
      r.
Proof.
  intros Hx Hy Hr. unfold GetMinimumBoundingBox in Hr.
  destruct (scan_tiles_spanned
              (λ p, ∃ tile_id tile,
                      tile_id ∈ GetGraphIds bb
                      ∧ GetGraphTile g tile_id = Some tile
                      ∧ point_inside tile bb (GraphTile.nodes tile) p)
              g bb (GetGraphIds bb)
              (AABB2.of_points PointLL_default PointLL_default) r Hx Hy)
    as [->|[_ Hsp]]; [ | by left | done | by left | by right ].
  intros tile_id tile p Hi Ht Hp. by exists tile_id, tile.
Qed.

Lemma GetMinimumBoundingBox_tight_witness :
  AABB2.mk (1#10) (1#10) (4#10) (1#10)
  = AABB2.of_points PointLL_default PointLL_default
  ∨ spanned
      (λ p, ∃ tile_id tile,
              tile_id ∈ [GraphId.make 0 0 0]
              ∧ GetGraphTile (Chain.graph 30) tile_id = Some tile
              ∧ point_inside tile (AABB2.mk 0 0 1 1) (GraphTile.nodes tile) p)
      (AABB2.mk (1#10) (1#10) (4#10) (1#10)).
Proof.
  apply (GetMinimumBoundingBox_tight (λ _, [GraphId.make 0 0 0])
           (Chain.graph 30) (AABB2.mk 0 0 1 1)
           (AABB2.mk (1#10) (1#10) (4#10) (1#10))); reflexivity.
Defined.

(** X22. Tiles that do not resolve are passed over: [GetMinimumBoundingBox]
    returns what it returns for the ids of the tiles that resolve, in the same
    order. *)
Theorem GetMinimumBoundingBox_skips_missing
    (GetGraphIds : AABB2.t → list GraphId.t) (g : GraphReader) (bb : AABB2.t) :
  GetMinimumBoundingBox GetGraphIds g bb
  = GetMinimumBoundingBox
      (λ b, filter (λ id, is_Some (GetGraphTile g id)) (GetGraphIds b)) g bb.
Proof.
  unfold GetMinimumBoundingBox.
  generalize (AABB2.of_points PointLL_default PointLL_default).
  induction (GetGraphIds bb) as [|id rest IH]; intros min_bb; [done|].
  simpl. destruct (GetGraphTile g id) as [tile|] eqn:Ht.
  - rewrite filter_cons_True by (by rewrite Ht). simpl. rewrite Ht.
    destruct (scan_nodes tile bb _ min_bb) as [min_bb'|]; simpl; [|done].
    apply IH.
  - rewrite filter_cons_False by (rewrite Ht; by intros [? ?]). apply IH.
Qed.

(** * Chains under a shortcut *)

(** X25. On a well-formed chain under a shortcut, whatever the place of the
    shortcut among the edges of its begin node, [RecoverShortcut] of the
    shortcut gives the ids of the edges of the chain in order, with fuel
    for one pass for each edge after the first, and the lengths of these
    edges add up to the length of the shortcut. *)
Theorem RecoverShortcut_of_chain (last_level : N) (g : GraphReader)
    (s : GraphId.t) (shortcut : DirectedEdge.t) (h : hop) (rest : list hop) :
  chain_wf last_level g s shortcut h rest →
  (∀ fuel, (List.length rest ≤ fuel)%nat →
     RecoverShortcut fuel g s = Some (hop_id <$> h :: rest))
  ∧ total_length g (hop_id <$> h :: rest) = Some (DirectedEdge.length shortcut).
Proof.
  intros Hwf. split.
  - intros fuel.
    by apply (RecoverShortcut_chain (shortcut:=shortcut) (last_level:=last_level)).
  - rewrite (total_length_chain (shortcut:=shortcut) (last_level:=last_level)
               (h :: rest)) by apply Hwf.
    f_equal. apply Hwf.
Qed.

Lemma RecoverShortcut_of_chain_witness :
  (∀ fuel, (2 ≤ fuel)%nat →
     RecoverShortcut fuel Third.graph Third.s3
     = Some [Third.e0; Third.e1; Third.e2])
  ∧ total_length Third.graph [Third.e0; Third.e1; Third.e2] = Some 600.
Proof.
  exact (RecoverShortcut_of_chain 2 Third.graph Third.s3 ThirdHops.sde
           ThirdHops.h0 [ThirdHops.h1; ThirdHops.h2] ThirdHops_wf).
Defined.

(** X26. On a well-formed chain under a shortcut, [GetShortcut] of the
    [k]-th edge of the chain, with fuel for [k] passes, is the id of the
    edge of the begin node at the position that the superseded field of the
    first edge, less one, gives.  That is the shortcut exactly when the
    shortcut stands at that position: with masks of one bit, for the first
    and the second shortcut of a node and for no other. *)
Theorem GetShortcut_of_chain (last_level : N) (g : GraphReader)
    (s : GraphId.t) (shortcut : DirectedEdge.t) (h : hop) (rest : list hop)
    (k : nat) (hk : hop) (fuel : nat) :
  chain_wf last_level g s shortcut h rest →
  (h :: rest) !! k = Some hk →
  (k ≤ fuel)%nat →
  GetShortcut last_level fuel g (hop_id hk) = Some (superseded_position h)
  ∧ (GetShortcut last_level fuel g (hop_id hk) = Some s
     ↔ GraphId.id s
       = add32 (NodeInfo.edge_index (h_node h))
               (sub32 (DirectedEdge.superseded (h_de h)) 1)).
Proof.
  intros Hwf Hk Hfuel.
  pose proof (GetShortcut_chain (shortcut:=shortcut) (s:=s) h rest k hk fuel
                Hwf Hk Hfuel) as Hget.
  split; [done|]. rewrite Hget.
  destruct (hd_leaves _ _ _ _ _ (wf_head _ _ _ _ _ _ Hwf)) as (j & _ & ->).
  unfold superseded_position. simpl. split.
  - by intros [= ->].
  - by intros ->.
Qed.

Lemma GetShortcut_of_chain_witness :
  (GetShortcut 2 2 (Chain.graph 30) Chain.e2 = Some Chain.s
   ∧ (GetShortcut 2 2 (Chain.graph 30) Chain.e2 = Some Chain.s ↔ 0 = 0))
  ∧ (GetShortcut 2 2 Third.graph Third.e2 = Some Third.a
     ∧ (GetShortcut 2 2 Third.graph Third.e2 = Some Third.s3 ↔ 2 = 3)).
Proof.
  split.
  - exact (GetShortcut_of_chain 2 (Chain.graph 30) Chain.s ChainHops.sde
             ChainHops.h0 [ChainHops.h1; ChainHops.h2] 2 ChainHops.h2 2
             ChainHops_wf eq_refl (le_n 2)).
  - exact (GetShortcut_of_chain 2 Third.graph Third.s3 ThirdHops.sde
             ThirdHops.h0 [ThirdHops.h1; ThirdHops.h2] 2 ThirdHops.h2 2
             ThirdHops_wf eq_refl (le_n 2)).
Defined.

(** * The tile grid *)

Local Open Scope Z_scope.

(** ** Rows, columns and ids *)

(** C8. On a grid with at least one column, [GetRowColumn] followed by
    [TileId] gives back every id of the grid, and [TileId] followed by
    [GetRowColumn] gives back every (row, column) pair of the grid; the two
    map the ids of the grid and its pairs onto each other. *)
Theorem TileId_GetRowColumn_inverse (g : Tiles.t) :
  0 < Tiles.ncolumns g →
  (∀ tileid, Tiles.valid_id g tileid →
     let rc := Tiles.GetRowColumn g tileid in
     Tiles.TileId g (snd rc) (fst rc) = tileid ∧ Tiles.valid_row_column g rc)
  ∧ (∀ row col, Tiles.valid_row_column g (row, col) →
     Tiles.GetRowColumn g (Tiles.TileId g col row) = (row, col)
     ∧ Tiles.valid_id g (Tiles.TileId g col row)).
Proof.
  intros Hc. split.
  - intros tileid [Hlo Hhi]. unfold Tiles.GetRowColumn, Tiles.TileId. simpl.
    pose proof (Z.quot_rem' tileid (Tiles.ncolumns g)) as Hqr.
    pose proof (Z.rem_bound_pos tileid (Tiles.ncolumns g) Hlo Hc) as Hrem.
    pose proof (Z.quot_pos tileid (Tiles.ncolumns g) Hlo Hc) as Hq.
    split; [lia|]. split; simpl; [|lia]. split; [done|].
    apply Z.quot_lt_upper_bound; lia.
  - intros row col [[Hr0 Hr1] [Hc0 Hc1]]. simpl in *.
    unfold Tiles.GetRowColumn, Tiles.TileId, Tiles.valid_id. split.
    + f_equal.
      * symmetry. apply (Z.quot_unique _ _ row col); lia.
      * symmetry. apply (Z.rem_unique _ _ row col); nia.
    + nia.
Qed.

Lemma TileId_GetRowColumn_inverse_witness :
  Tiles.TileId grid_world 220 13 = 4900
  ∧ Tiles.GetRowColumn grid_world 4900 = (13, 220).
Proof.
  destruct (TileId_GetRowColumn_inverse grid_world) as [H1 H2];
    [reflexivity|].
  destruct (H1 4900) as [Hid _]; [vm_compute; split; congruence|].
  destruct (H2 13 220) as [Hrc _]; [vm_compute; repeat split; congruence|].
  split; [exact Hid | exact Hrc].
Defined.

(** ** The brute-force answer that the closest first is held to *)



(** * Further properties of the tests of the grid *)

(** ** What [assert_answer] accepts *)

(** X23. [assert_answer] returns without an exception exactly when every tile
    of the answer that [g.Intersect(l)] gave, whatever it is, is an expected
    tile and its bins are among the bins expected for it: the two counts that
    it compares add nothing, and an answer that lacks expected tiles or bins
    is accepted. *)
Theorem assert_answer_inclusion (answer expected : gmap Z (gset Z)) :
  assert_answer answer expected = true ↔
  ∀ tile bins,
    answer !! tile = Some bins →
    ∃ bins', expected !! tile = Some bins' ∧ bins ⊆ bins'.
Proof.
  unfold assert_answer.
  rewrite andb_true_iff, bool_decide_eq_true, forallb_forall.
  split.
  - intros [_ Hall] tile bins Hm.
    assert (In (tile, bins) (map_to_list answer)) as Hin.
    { apply list_elem_of_In. by apply elem_of_map_to_list. }
    specialize (Hall (tile, bins) Hin). simpl in Hall.
    destruct (expected !! tile) as [bins'|] eqn:He; [|done].
    exists bins'. split; [done|].
    apply andb_true_iff in Hall as [_ Hbins].
    rewrite forallb_forall in Hbins.
    intros s Hs.
    eapply bool_decide_eq_true_1, Hbins.
    apply list_elem_of_In. by apply elem_of_elements.
  - intros Hincl. split.
    + rewrite <- !size_dom. apply subseteq_size.
      intros tile [bins Hm]%elem_of_dom.
      destruct (Hincl tile bins Hm) as (bins' & He & _).
      apply elem_of_dom. by exists bins'.
    + intros [tile bins] Hin%list_elem_of_In%elem_of_map_to_list. simpl.
      destruct (Hincl tile bins Hin) as (bins' & -> & Hsub).
      apply andb_true_iff. split.
      * apply bool_decide_eq_true. by apply subseteq_size.
      * apply forallb_forall. intros s Hs%list_elem_of_In%elem_of_elements.
        apply bool_decide_eq_true. by apply Hsub.
Qed.
